(** * chrome-api-discovery: endpoint templating and OpenAPI synthesis

    A shallow embedding of [src/lib/api-analyzer.js] (class [APIAnalyzer]),
    [src/lib/openapi-generator.js] (classes [OpenAPIGenerator] and [Utils])
    and of the capture glue of [src/background/background.js] that builds
    the endpoint records, followed by the properties of the specification
    that were checked against them.

    Conventions.
    - JavaScript strings are [string]s of bytes; case mapping acts on the
      ASCII letters, which is what the platform does on URL paths, HTTP
      methods and header names.
    - A JavaScript object used as a dictionary is a [gmap string _]; its
      keys are own properties: the paths of URLs start with a slash, methods
      are HTTP verbs and status keys are decimal numbers, so no inherited
      member of an object is ever hit.
    - A [Set] is the list of its members in insertion order.
    - Instance fields of a class are a record threaded through the methods
      that touch them.
    - An exception is the [Throw] branch of [result]. *)

From Stdlib Require Import Ascii String List Bool Arith Lia.
From stdpp Require Import gmap strings list fin_maps pretty.

Open Scope string_scope.
Open Scope list_scope.
#[local] Arguments String.append !s1 s2 : simpl nomatch.

(** ** The JavaScript string primitives the sources rely on

    Strings are sequences of ASCII characters, as URLs, verbs and header
    names are; the case mappings act on the letters A-Z and a-z, which is
    what the platform's do on such strings. *)

Module JS.

Definition toLowerChar (c : ascii) : ascii :=
  let n := nat_of_ascii c in
  if ((65 <=? n) && (n <=? 90))%nat then ascii_of_nat (n + 32) else c.

Definition toUpperChar (c : ascii) : ascii :=
  let n := nat_of_ascii c in
  if ((97 <=? n) && (n <=? 122))%nat then ascii_of_nat (n - 32) else c.

Fixpoint smap (f : ascii -> ascii) (s : string) : string :=
  match s with
  | EmptyString => EmptyString
  | String c r => String (f c) (smap f r)
  end.

Definition toLowerCase : string -> string := smap toLowerChar.
Definition toUpperCase : string -> string := smap toUpperChar.

(** [s.startsWith(p)] *)
Fixpoint startsWith (p s : string) : bool :=
  match p, s with
  | EmptyString, _ => true
  | String a p', String b s' => if Ascii.eqb a b then startsWith p' s' else false
  | String _ _, EmptyString => false
  end.

(** [s.includes(p)] *)
Fixpoint includes (s p : string) : bool :=
  startsWith p s ||
  match s with
  | EmptyString => false
  | String _ r => includes r p
  end.

(** [s.split(c)] for a one-character separator. *)
Fixpoint split (c : ascii) (s : string) : list string :=
  match s with
  | EmptyString => [EmptyString]
  | String x r =>
      if Ascii.eqb x c then EmptyString :: split c r
      else match split c r with
           | h :: t => String x h :: t
           | [] => [String x EmptyString]
           end
  end.

(** [l.join(sep)] *)
Fixpoint join (sep : string) (l : list string) : string :=
  match l with
  | [] => EmptyString
  | [x] => x
  | x :: r => x +:+ sep +:+ join sep r
  end.

(** [Boolean(s)] on a string: only the empty string is falsy. *)
Definition truthy (s : string) : bool :=
  match s with EmptyString => false | _ => true end.

(** [a || b] on strings. *)
Definition or_else (a b : string) : string := if truthy a then a else b.

(** [str.charAt(0).toUpperCase() + str.slice(1)] *)
Definition capitalize (str : string) : string :=
  match str with
  | EmptyString => EmptyString
  | String c r => String (toUpperChar c) r
  end.

Definition string_eqb (a b : string) : bool := bool_decide (a = b).

(** [o[key] = v] on an object made by [{}] that serves as a map.  The key
    [__proto__] reaches the setter of [Object.prototype]: the prototype of
    [o] is set or left, and [o] gets no property. *)
Definition is_proto (key : string) : bool := string_eqb key "__proto__".

Definition set_property {V : Type} (key : string) (v : V) (o : gmap string V)
    : gmap string V :=
  if is_proto key then o else <[key := v]> o.

(** [String(n)] for a non-negative integer. *)
Definition ofNat (n : nat) : string := pretty n.

End JS.

(** ** Regular expressions

    The fragment of the ECMAScript pattern language used by the two
    libraries: literal characters, character classes given by ranges,
    greedy bounded repetition of a single-character atom, sequence,
    alternation, positive lookahead and the two anchors, with the [i]
    flag.  Matching is by backtracking in priority order, as the platform
    does it. *)

Module Regex.

Inductive atom : Type :=
| Lit (c : ascii)
| Class (ranges : list (ascii * ascii)).

Inductive regex : Type :=
| Atom (a : atom)
| Rep (lo : nat) (hi : option nat) (a : atom)
| Seq (r1 r2 : regex)
| Alt (r1 r2 : regex)
| Ahead (r : regex)
| Eps
| Bos
| Eos.

Definition in_range (c : ascii) (r : ascii * ascii) : bool :=
  ((nat_of_ascii (fst r) <=? nat_of_ascii c) && (nat_of_ascii c <=? nat_of_ascii (snd r)))%nat.

Definition atom_plain (a : atom) (c : ascii) : bool :=
  match a with
  | Lit x => Ascii.eqb x c
  | Class rs => existsb (in_range c) rs
  end.

(** With the [i] flag a character matches when one of its two case
    variants does. *)
Definition atom_matches (ci : bool) (a : atom) (c : ascii) : bool :=
  if ci
  then atom_plain a c || atom_plain a (JS.toUpperChar c) || atom_plain a (JS.toLowerChar c)
  else atom_plain a c.

Definition hi_allows (hi : option nat) : bool :=
  match hi with Some 0 => false | _ => true end.

Definition hi_pred (hi : option nat) : option nat :=
  match hi with Some n => Some (Nat.pred n) | None => None end.

Section Matcher.
Context {A : Type}.
Variable ci : bool.

  (** Greedy repetition: take one more character when allowed, and fall
      back to stopping here when the rest cannot be matched.  [pos] is the
      index of [s] in the input. *)
Fixpoint rep (a : atom) (lo : nat) (hi : option nat) (pos : nat) (s : string)
      (k : nat -> string -> option A) : option A :=
    let stop := match lo with 0 => k pos s | S _ => None end in
    match s with
    | String c r =>
        if hi_allows hi && atom_matches ci a c then
          match rep a (Nat.pred lo) (hi_pred hi) (S pos) r k with
          | Some x => Some x
          | None => stop
          end
        else stop
    | EmptyString => stop
    end.
End Matcher.

(** [run ci r pos s k]: match [r] at the front of [s], which sits at index
    [pos] of the input, and pass what is left to [k]. *)
Fixpoint run {A : Type} (ci : bool) (r : regex) (pos : nat) (s : string)
    (k : nat -> string -> option A) : option A :=
  match r with
  | Atom a =>
      match s with
      | String c rest => if atom_matches ci a c then k (S pos) rest else None
      | EmptyString => None
      end
  | Rep lo hi a => rep ci a lo hi pos s k
  | Seq r1 r2 => run ci r1 pos s (fun p rest => run ci r2 p rest k)
  | Alt r1 r2 =>
      match run ci r1 pos s k with
      | Some x => Some x
      | None => run ci r2 pos s k
      end
  | Ahead r1 =>
      match run ci r1 pos s (fun _ _ => Some tt) with
      | Some _ => k pos s
      | None => None
      end
  | Eps => k pos s
  | Bos => match pos with 0 => k pos s | S _ => None end
  | Eos => match s with EmptyString => k pos s | String _ _ => None end
  end.

(** A pattern with its flags; [g] only matters to [replace]. *)
Record pattern : Type := Pattern { source : regex; flag_i : bool }.

(** The number of characters consumed by a match that starts at index
    [pos], where [s] is the input from that index on. *)
Definition exec_here (p : pattern) (pos : nat) (s : string) : option nat :=
  run (flag_i p) (source p) pos s
      (fun _ rest => Some (String.length s - String.length rest)).

(** [p.test(s)] for a pattern without the [g] flag, and [s.match(p)] read
    as a boolean: is there a match starting anywhere. *)
Fixpoint search (p : pattern) (pos : nat) (s : string) : bool :=
  match exec_here p pos s with
  | Some _ => true
  | None =>
      match s with
      | EmptyString => false
      | String _ r => search p (S pos) r
      end
  end.

Definition test (p : pattern) (s : string) : bool := search p 0 s.

(** [s.replace(p, by)] for a pattern with the [g] flag and a replacement
    text without dollar escapes: every match, left to right, none
    overlapping; an empty match lets one character through. *)
Fixpoint replace_from (p : pattern) (by_ : string) (skip : nat) (pos : nat)
    (s : string) : string :=
  match skip with
  | S n =>
      match s with
      | String _ r => replace_from p by_ n (S pos) r
      | EmptyString => EmptyString
      end
  | 0 =>
      match exec_here p pos s with
      | Some (S n) =>
          by_ +:+ match s with
                  | String _ r => replace_from p by_ n (S pos) r
                  | EmptyString => EmptyString
                  end
      | Some 0 =>
          by_ +:+ match s with
                  | String c r => String c (replace_from p by_ 0 (S pos) r)
                  | EmptyString => EmptyString
                  end
      | None =>
          match s with
          | String c r => String c (replace_from p by_ 0 (S pos) r)
          | EmptyString => EmptyString
          end
      end
  end.

Definition replace (p : pattern) (by_ : string) (s : string) : string :=
  replace_from p by_ 0 0 s.

(** Shorthands for writing the patterns of the sources. *)
Definition chr (c : ascii) : regex := Atom (Lit c).
Definition digit : atom := Class [("0", "9")]%char.       (* \d *)
Definition hex : atom := Class [("a", "f"); ("0", "9")]%char.   (* [a-f0-9] *)
Definition alnum : atom := Class [("a", "z"); ("0", "9")]%char. (* [a-z0-9] *)

Fixpoint seq (l : list regex) : regex :=
  match l with
  | [] => Eps
  | [r] => r
  | r :: t => Seq r (seq t)
  end.

Fixpoint lits (s : string) : list regex :=
  match s with
  | EmptyString => []
  | String c r => chr c :: lits r
  end.

Definition str (s : string) : regex := seq (lits s).
Definition opt (r : regex) : regex := Alt r Eps.          (* r? *)
Definition plus (a : atom) : regex := Rep 1 None a.       (* a+ *)
Definition star (a : atom) : regex := Rep 0 None a.       (* a* *)
Definition alts (l : list regex) : regex :=
  match l with
  | [] => Eps
  | r :: t => fold_left Alt t r
  end.

End Regex.


(** ** Numeric coercion of strings

    [isNaN(s)] on a string [s] asks whether [s] fails to be a
    [StringNumericLiteral] of the language standard: optional white space
    around nothing at all, a signed decimal literal (with [Infinity]), or
    an unsigned binary, octal or hexadecimal integer.  On the ASCII
    strings of this model the white space is the characters 9 to 13 and
    the space. *)

Module JSNumber.
Import Regex.

Definition space : atom := Class [(ascii_of_nat 9, ascii_of_nat 13); (" ", " ")]%char.
Definition sign : atom := Class [("+", "+"); ("-", "-")]%char.
Definition exponent : regex :=
  opt (seq [Atom (Class [("e", "e"); ("E", "E")]%char); Rep 0 (Some 1) sign; plus digit]).

Definition strDecimalLiteral : regex :=
  seq [ Rep 0 (Some 1) sign;
        alts [ str "Infinity";
               seq [plus digit; chr "."; star digit; exponent];
               seq [chr "."; plus digit; exponent];
               seq [plus digit; exponent] ] ].

Definition nonDecimalIntegerLiteral : regex :=
  alts [ seq [chr "0"; Atom (Class [("b", "b"); ("B", "B")]%char);
              plus (Class [("0", "1")]%char)];
         seq [chr "0"; Atom (Class [("o", "o"); ("O", "O")]%char);
              plus (Class [("0", "7")]%char)];
         seq [chr "0"; Atom (Class [("x", "x"); ("X", "X")]%char);
              plus (Class [("0", "9"); ("a", "f"); ("A", "F")]%char)] ].

Definition stringNumericLiteral : pattern :=
  Pattern (seq [ Bos; star space;
                 opt (Alt strDecimalLiteral nonDecimalIntegerLiteral);
                 star space; Eos ]) false.

Definition isNaN (s : string) : bool := negb (test stringNumericLiteral s).

End JSNumber.

(** ** URLs

    The record is what the sources read off a parsed URL.  The parser
    itself belongs to the platform: the libraries take it as the parameter
    [new_URL], whose [None] stands for the [TypeError] of the constructor. *)

Module URL.

Record t : Type := Make {
  protocol : string;   (* with its colon, as in "https:" *)
  hostname : string;
  port : string;       (* empty for the default port of the scheme *)
  pathname : string;
  search : string
}.

Definition origin (u : t) : string :=
  protocol u +:+ "//" +:+ hostname u +:+
  (if JS.truthy (port u) then ":" +:+ port u else "").

(** A concrete reading of [new URL(s)] for the inputs used in the examples
    below: absolute [http] and [https] URLs of the form
    [scheme://host[:port][/path][?query][#fragment]], already
    percent-encoded and without credentials. *)
Fixpoint until (stop : ascii -> bool) (s : string) : string * string :=
  match s with
  | EmptyString => (EmptyString, EmptyString)
  | String c r =>
      if stop c then (EmptyString, s)
      else let '(a, b) := until stop r in (String c a, b)
  end.

Definition is_char (x : ascii) (c : ascii) : bool := Ascii.eqb x c.

Definition parse (s : string) : option t :=
  let '(scheme, rest) := until (is_char ":") s in
  let scheme := JS.toLowerCase scheme in
  if negb (JS.string_eqb scheme "http" || JS.string_eqb scheme "https") then None
  else if negb (JS.startsWith "://" rest) then None
  else
    let rest := String.substring 3 (String.length rest - 3) rest in
    let '(authority, rest) :=
      until (fun c => is_char "/" c || is_char "?" c || is_char "#" c) rest in
    let '(host, port) := until (is_char ":") authority in
    let port := match port with String _ p => p | EmptyString => EmptyString end in
    let port :=
      if (JS.string_eqb scheme "http" && JS.string_eqb port "80")
         || (JS.string_eqb scheme "https" && JS.string_eqb port "443")
      then EmptyString else port in
    let '(path, rest) := until (fun c => is_char "?" c || is_char "#" c) rest in
    let '(query, _) := until (is_char "#") rest in
    if negb (JS.truthy host) then None
    else Some {| protocol := scheme +:+ ":";
                 hostname := JS.toLowerCase host;
                 port := port;
                 pathname := JS.or_else path "/";
                 search := if JS.string_eqb query "?" then EmptyString else query |}.

End URL.

(** ** Exceptions *)

Inductive result (A : Type) : Type :=
| Ok (x : A)
| Throw (error : string).
Arguments Ok {A} x.
Arguments Throw {A} error.

Definition rbind {A B : Type} (m : result A) (f : A -> result B) : result B :=
  match m with
  | Ok x => f x
  | Throw e => Throw e
  end.

(** ** Endpoint records

    The shape built by [createEndpointFromRequest] (background.js, lines
    392-407); the optional fields are those the libraries guard with a
    truthiness test. *)

Record Endpoint : Type := {
  url : string;
  method : string;
  status : option nat;
  contentType : option string;
  hostname : string;
  pathname : string;
  searchParams : option (list (string * string));
  headers : option (list (string * string));
  responseSize : nat
}.

Module Background.

(** The fields of a [webRequest] completion event that are read. *)
Record Details : Type := {
  d_url : string;
  d_method : string;
  d_statusCode : nat;
  d_contentType : option string;   (* the content-type response header *)
  d_responseSize : nat
}.

(** One [key=value] pair of a query string. *)
Definition pair_of (kv : string) : string * string :=
  let '(k, v) := URL.until (URL.is_char "=") kv in
  (k, match v with String _ r => r | EmptyString => EmptyString end).

(** [parseSearchParams] (background.js, lines 422-433) on a query string
    without escapes whose keys are not array indices; a repeated key keeps
    its first position and its last value, and the key [__proto__] makes no
    entry ([params[key] = value] reaches the setter of the prototype). *)
Fixpoint assign (k v : string) (o : list (string * string)) : list (string * string) :=
  match o with
  | [] => [(k, v)]
  | (k', v') :: r => if JS.string_eqb k k' then (k, v) :: r else (k', v') :: assign k v r
  end.

Definition parseSearchParams (search : string) : list (string * string) :=
  match search with
  | EmptyString => []
  | String _ q =>
      fold_left (fun params kv => let '(k, v) := pair_of kv in
                                  if JS.is_proto k then params else assign k v params)
                (filter (fun kv => JS.truthy kv = true) (JS.split "&" q)) []
  end.

(** [getContentType] (background.js, lines 409-420): the header value up
    to its first semicolon, or ["unknown"]. *)
Definition getContentType (d : Details) : string :=
  match d_contentType d with
  | Some v => fst (URL.until (URL.is_char ";") v)
  | None => "unknown"
  end.

(** [createEndpointFromRequest] (background.js, lines 392-407). *)
Definition createEndpointFromRequest (new_URL : string -> option URL.t)
    (d : Details) : result Endpoint :=
  match new_URL (d_url d) with
  | None => Throw "TypeError: Invalid URL"
  | Some u =>
      Ok {| url := d_url d;
            method := d_method d;
            status := Some (d_statusCode d);
            contentType := Some (getContentType d);
            hostname := URL.hostname u;
            pathname := URL.pathname u;
            searchParams := Some (parseSearchParams (URL.search u));
            headers := Some [];
            responseSize := d_responseSize d |}
  end.

(** [this.endpoints] after the completion events [events] while discovery
    is on (lines 345-355 and 458-462): an event whose URL does not parse
    makes the listener throw and adds nothing. *)
Definition capture (new_URL : string -> option URL.t) (events : list Details)
    : list Endpoint :=
  omap (fun d => match createEndpointFromRequest new_URL d with
                 | Ok endpoint => Some endpoint
                 | Throw _ => None
                 end) events.

End Background.

(** ** Path templating, as each of the two libraries does it *)

Module Templating.
Import Regex.

(** [APIAnalyzer.patterns.idPatterns] (api-analyzer.js, lines 9-13):
    [/\/\d+(\/|$)/g], [/\/[a-f0-9]{8,}(\/|$)/gi], [/\/[a-z0-9]{24}(\/|$)/gi]. *)
Definition idPatterns : list pattern :=
  [ Pattern (seq [chr "/"; Rep 1 None digit; Alt (chr "/") Eos]) false;
    Pattern (seq [chr "/"; Rep 8 None hex; Alt (chr "/") Eos]) true;
    Pattern (seq [chr "/"; Rep 24 (Some 24) alnum; Alt (chr "/") Eos]) true ].

(** The end of a segment, [(?=\/|$)]. *)
Definition segment_end : regex := Ahead (Alt (chr "/") Eos).

(** The bodies of the three identifier shapes: [\d+], the 8-4-4-4-12 groups
    of [a-f0-9] and [[a-f0-9]{24}]. *)
Definition digits_body : list regex := [Rep 1 None digit].

Definition uuid_body : list regex :=
  [ Rep 8 (Some 8) hex; chr "-"; Rep 4 (Some 4) hex; chr "-";
    Rep 4 (Some 4) hex; chr "-"; Rep 4 (Some 4) hex; chr "-";
    Rep 12 (Some 12) hex ].

Definition hex24_body : list regex := [Rep 24 (Some 24) hex].

(** [/\/(BODY)(?=\/|$)/g], the form of the three patterns of
    [OpenAPIGenerator.normalizePath] (openapi-generator.js, lines 138,
    141 and 144). *)
Definition in_path (body : list regex) (ci : bool) : pattern :=
  Pattern (seq (chr "/" :: body ++ [segment_end])) ci.

(** [/^BODY$/], the form of the three patterns of
    [OpenAPIGenerator.extractPathParameters] (lines 299, 305 and 312). *)
Definition whole (body : list regex) (ci : bool) : pattern :=
  Pattern (seq (Bos :: body ++ [Eos])) ci.

End Templating.

(** ** [APIAnalyzer] (api-analyzer.js) *)

Module APIAnalyzer.
Import Regex.

(** [patterns.resourcePatterns] (lines 14-38), all with the [i] flag. *)
Definition resourcePatterns : list pattern :=
  map (fun r => Pattern r true)
  [ seq [str "/user"; Rep 0 (Some 1) (Lit "s"); chr "/"];
    seq [str "/post"; Rep 0 (Some 1) (Lit "s"); chr "/"];
    seq [str "/article"; Rep 0 (Some 1) (Lit "s"); chr "/"];
    seq [str "/product"; Rep 0 (Some 1) (Lit "s"); chr "/"];
    seq [str "/order"; Rep 0 (Some 1) (Lit "s"); chr "/"];
    seq [str "/comment"; Rep 0 (Some 1) (Lit "s"); chr "/"];
    seq [str "/file"; Rep 0 (Some 1) (Lit "s"); chr "/"];
    seq [str "/image"; Rep 0 (Some 1) (Lit "s"); chr "/"];
    seq [str "/video"; Rep 0 (Some 1) (Lit "s"); chr "/"];
    seq [str "/categorie"; Rep 0 (Some 1) (Lit "s"); chr "/"];
    seq [str "/tag"; Rep 0 (Some 1) (Lit "s"); chr "/"];
    str "/search"; str "/auth"; str "/login"; str "/logout"; str "/register";
    str "/profile"; str "/settings"; str "/admin"; str "/api/"; str "/rest/";
    seq [str "/v"; Rep 1 None digit; chr "/"];
    str "/graphql" ].

(** [normalizePath] (lines 374-382). *)
Definition normalizePath (path : string) : string :=
  fold_left (fun normalized pattern => replace pattern "/{id}" normalized)
            Templating.idPatterns path.

(** [capitalize] (lines 367-369). *)
Definition capitalize : string -> string := JS.capitalize.

(** The table of [generateOperationId] and of
    [OpenAPIGenerator.generateUniqueOperationId], looked up with the
    upper-cased verb, with the lower-cased verb as the fallback. *)
Definition methodPrefix (method : string) : string :=
  let table := [("GET", "get"); ("POST", "create"); ("PUT", "update");
                ("DELETE", "delete"); ("PATCH", "patch"); ("HEAD", "head");
                ("OPTIONS", "options")] in
  match find (fun kv => JS.string_eqb (fst kv) (JS.toUpperCase method)) table with
  | Some kv => snd kv
  | None => JS.toLowerCase method
  end.

(** [path.split("/").filter(Boolean)] *)
Definition segments_of (path : string) : list string :=
  filter (fun s => JS.truthy s = true) (JS.split "/" path).

(** [generateOperationId] (lines 346-362). *)
Definition generateOperationId (method path : string) : string :=
  let segments := segments_of path in
  let resource := JS.or_else (List.last segments "") "item" in
  methodPrefix method +:+ capitalize resource.

(** [extractTags] (lines 387-401). *)
Definition extractTags (path : string) : list string :=
  let segments := segments_of path in
  match segments with
  | [] => []
  | s0 :: _ =>
      s0 :: (if (2 <? length segments)%nat then
               match nth_error segments 1 with Some s1 => [s1] | None => [] end
             else [])
  end.

(** A [Set] in insertion order: [set.add(x)]. *)
Definition set_add (x : string) (l : list string) : list string :=
  if bool_decide (x ∈ l) then l else l ++ [x].

(** A [Set] filled by a loop over [l], and [[...new Set(l)]]. *)
Definition add_all (l acc : list string) : list string :=
  fold_left (fun seen x => set_add x seen) l acc.

Definition distinct (l : list string) : list string := add_all l [].

(** A [Map] of counters in insertion order: [m.set(k, (m.get(k) || 0) + 1)]. *)
Fixpoint count_up (k : string) (m : list (string * nat)) : list (string * nat) :=
  match m with
  | [] => [(k, 1)]
  | (k', n) :: r => if JS.string_eqb k k' then (k', S n) :: r else (k', n) :: count_up k r
  end.

(** [sortMapByValue] (lines 297-301): the entries by decreasing count, the
    sort being stable. *)
Fixpoint insert_by_count {K : Type} (e : K * nat) (l : list (K * nat)) : list (K * nat) :=
  match l with
  | [] => [e]
  | e' :: r => if (snd e' <=? snd e)%nat then e :: l else e' :: insert_by_count e r
  end.

Definition sortMapByValue {K : Type} (m : list (K * nat)) : list (K * nat) :=
  fold_right insert_by_count [] m.

(** The result of [inferParameterTypes]. *)
Record Inferred : Type := {
  i_type : string;
  i_example : option string;
  i_anyOf : option (list string);      (* the [type] of each alternative *)
  i_examples : option (list string)
}.

(** The classification of one sample (lines 317-323). *)
Definition sampleType (sample : string) : string :=
  if JS.string_eqb sample "true" || JS.string_eqb sample "false" then "boolean"
  else if negb (JSNumber.isNaN sample) && negb (JS.string_eqb sample "") then "number"
  else "string".

(** [inferParameterTypes] (lines 306-341). *)
Definition inferParameterTypes (samples : list string) : Inferred :=
  match samples with
  | [] => {| i_type := "string"; i_example := None; i_anyOf := None; i_examples := None |}
  | _ =>
      let '(types, uniqueValues) :=
        fold_left (fun '(types, uniqueValues) sample =>
                     (set_add (sampleType sample) types, set_add sample uniqueValues))
                  samples ([], []) in
      if (length types =? 1)%nat then
        {| i_type := hd "" types;
           i_example := head uniqueValues;
           i_anyOf := None; i_examples := None |}
      else
        {| i_type := "string";
           i_example := None;
           i_anyOf := Some types;
           i_examples := Some (take 3 uniqueValues) |}
  end.

Section WithURL.
Variable new_URL : string -> option URL.t.

  (** [getEndpointGroupKey] (lines 106-118). *)
Definition getEndpointGroupKey (endpoint : Endpoint) : result string :=
    match new_URL (url endpoint) with
    | None => Throw "TypeError: Invalid URL"
    | Some u =>
        let pathSegments := segments_of (URL.pathname u) in
        Ok (if (2 <=? length pathSegments)%nat
            then URL.hostname u +:+ JS.join "/" (take 2 pathSegments)
            else match pathSegments with
                 | [s0] => URL.hostname u +:+ s0
                 | _ => URL.hostname u
                 end)
    end.

  (** [getBaseUrl] (lines 123-130). *)
Definition getBaseUrl (url : string) : string :=
    match new_URL url with
    | Some u => URL.protocol u +:+ "//" +:+ URL.hostname u
    | None => url
    end.

  (** [extractEndpointPattern] (lines 135-145). *)
Definition extractEndpointPattern (endpoint : Endpoint) : result string :=
    match new_URL (url endpoint) with
    | None => Throw "TypeError: Invalid URL"
    | Some u =>
        Ok (fold_left (fun path pattern => replace pattern "/{id}" path)
                      Templating.idPatterns (URL.pathname u))
    end.

  (** A group while it is being filled (lines 71-78). *)
Record Group : Type := {
    baseUrl : string;
    g_hostname : string;
    endpoints : list Endpoint;
    patterns : list string;
    methods : list string;
    statusCodes : list (option nat)
  }.

Definition add_status (x : option nat) (l : list (option nat)) : list (option nat) :=
    if bool_decide (x ∈ l) then l else l ++ [x].

Fixpoint update_group (key : string) (f : Group -> Group)
      (groups : list (string * Group)) : list (string * Group) :=
    match groups with
    | [] => []
    | (k, g) :: r =>
        if JS.string_eqb key k then (k, f g) :: r else (k, g) :: update_group key f r
    end.

  (** One turn of the loop of [groupEndpointsByPattern] (lines 67-89). *)
Definition group_step (groups : list (string * Group)) (endpoint : Endpoint)
      : result (list (string * Group)) :=
    rbind (getEndpointGroupKey endpoint) (fun key =>
    rbind (if existsb (fun kg => JS.string_eqb key (fst kg)) groups then Ok groups
           else match new_URL (url endpoint) with
                | None => Throw "TypeError: Invalid URL"
                | Some u =>
                    Ok (groups ++ [(key, {| baseUrl := getBaseUrl (url endpoint);
                                            g_hostname := URL.hostname u;
                                            endpoints := []; patterns := [];
                                            methods := []; statusCodes := [] |})])
                end) (fun groups =>
    rbind (extractEndpointPattern endpoint) (fun pattern =>
    Ok (update_group key
          (fun group =>
             {| baseUrl := baseUrl group;
                g_hostname := g_hostname group;
                endpoints := endpoints group ++ [endpoint];
                patterns := set_add pattern (patterns group);
                methods := set_add (method endpoint) (methods group);
                statusCodes := add_status (status endpoint) (statusCodes group) |})
          groups)))).

Fixpoint for_each {S E : Type} (step : S -> E -> result S) (l : list E) (s : S)
      : result S :=
    match l with
    | [] => Ok s
    | e :: r => rbind (step s e) (for_each step r)
    end.

  (** [groupEndpointsByPattern] (lines 64-101): the groups with their
      endpoint count, largest first. *)
Definition groupEndpointsByPattern (eps : list Endpoint) : result (list (Group * nat)) :=
    rbind (for_each group_step eps []) (fun groups =>
    Ok (sortMapByValue (map (fun kg => (snd kg, length (endpoints (snd kg)))) groups))).

  (** The part of [generateStatistics] (lines 223-292) that counts; the
      mean response size and the time range are left out. *)
Record Statistics : Type := {
    totalEndpoints : nat;
    uniqueHosts : list string;
    st_methods : list (string * nat);
    st_statusCodes : list (string * nat);
    st_contentTypes : list (string * nat);
    totalResponseSize : nat
  }.

Definition status_key (s : option nat) : string :=
    match s with Some n => JS.ofNat n | None => "undefined" end.

Definition stats_step (st : Statistics) (endpoint : Endpoint) : Statistics :=
    {| totalEndpoints := totalEndpoints st;
       uniqueHosts := match new_URL (url endpoint) with
                      | Some u => set_add (URL.hostname u) (uniqueHosts st)
                      | None => uniqueHosts st
                      end;
       st_methods := count_up (method endpoint) (st_methods st);
       st_statusCodes := count_up (status_key (status endpoint)) (st_statusCodes st);
       st_contentTypes :=
         match contentType endpoint with
         | Some ct => if JS.truthy ct && negb (JS.string_eqb ct "unknown")
                      then count_up ct (st_contentTypes st) else st_contentTypes st
         | None => st_contentTypes st
         end;
       totalResponseSize := totalResponseSize st + responseSize endpoint |}.

Definition generateStatistics (eps : list Endpoint) : Statistics :=
    let st := fold_left stats_step eps
                {| totalEndpoints := length eps; uniqueHosts := [];
                   st_methods := []; st_statusCodes := []; st_contentTypes := [];
                   totalResponseSize := 0 |} in
    {| totalEndpoints := totalEndpoints st;
       uniqueHosts := uniqueHosts st;
       st_methods := sortMapByValue (st_methods st);
       st_statusCodes := sortMapByValue (st_statusCodes st);
       st_contentTypes := sortMapByValue (st_contentTypes st);
       totalResponseSize := totalResponseSize st |}.

  (** [detectResourceType] (lines 205-218): the index of the first pattern
      found in the lower-cased URL. *)
Fixpoint first_match (i : nat) (ps : list pattern) (s : string) : option nat :=
    match ps with
    | [] => None
    | p :: r => if test p s then Some i else first_match (S i) r s
    end.

Definition detectResourceType (endpoint : Endpoint) : option nat :=
    first_match 0 resourcePatterns (JS.toLowerCase (url endpoint)).

  (** [extractCommonPatterns] (lines 150-200).  A resource type is counted
      when it is truthy: index 0 is not, ["unknown"] is. *)
Record Common : Type := {
    commonPaths : list (string * nat);
    commonQueryParams : list (string * nat);
    commonHeaders : list (string * nat);
    resourceTypes : list (string * nat)
  }.

Definition keys (o : option (list (string * string))) : list string :=
    match o with Some l => map fst l | None => [] end.

Definition common_step (c : Common) (endpoint : Endpoint) : result Common :=
    rbind (extractEndpointPattern endpoint) (fun path =>
    Ok {| commonPaths := count_up path (commonPaths c);
          commonQueryParams :=
            fold_left (fun m k => count_up k m) (keys (searchParams endpoint))
                      (commonQueryParams c);
          commonHeaders :=
            fold_left (fun m k => count_up k m) (keys (headers endpoint))
                      (commonHeaders c);
          resourceTypes :=
            match detectResourceType endpoint with
            | Some 0 => resourceTypes c
            | Some i => count_up (JS.ofNat i) (resourceTypes c)
            | None => count_up "unknown" (resourceTypes c)
            end |}).

Definition extractCommonPatterns (eps : list Endpoint) : result Common :=
    rbind (for_each common_step eps
             {| commonPaths := []; commonQueryParams := []; commonHeaders := [];
                resourceTypes := [] |}) (fun c =>
    Ok {| commonPaths := sortMapByValue (commonPaths c);
          commonQueryParams := sortMapByValue (commonQueryParams c);
          commonHeaders := sortMapByValue (commonHeaders c);
          resourceTypes := sortMapByValue (resourceTypes c) |}).

  (** [analyzeEndpoints] (lines 45-59). *)
Record Analysis : Type := {
    groups : list (Group * nat);
    a_patterns : option Common;
    statistics : option Statistics
  }.

Definition analyzeEndpoints (eps : list Endpoint) : result Analysis :=
    match eps with
    | [] => Ok {| groups := []; a_patterns := None; statistics := None |}
    | _ =>
        rbind (groupEndpointsByPattern eps) (fun groups =>
        rbind (extractCommonPatterns eps) (fun patterns =>
        let statistics := generateStatistics eps in
        Ok {| groups := groups; a_patterns := Some patterns;
              statistics := Some statistics |}))
    end.
End WithURL.

End APIAnalyzer.

(** ** [OpenAPIGenerator] (openapi-generator.js, lines 6-627) *)

Module OpenAPIGenerator.
Import Regex.

(** *** The document *)

Record Property : Type := { p_type : string; p_example : option string }.

Record Schema : Type := {
  s_type : string;
  s_properties : list (string * Property);
  s_required : list string
}.

Record Param : Type := {
  name : string;
  in_ : string;
  required : bool;
  schema_type : string;
  example : option string;
  p_description : string
}.

(** A media type entry holds a schema, which is always a [$ref] here. *)
Record Response : Type := {
  r_description : string;
  content : gmap string string
}.

Record RequestBody : Type := {
  rb_required : bool;
  rb_content : gmap string string
}.

Record Operation : Type := {
  operationId : string;
  tags : list string;
  summary : string;
  description : string;
  parameters : list Param;
  responses : gmap string Response;
  security : list (list (string * list string));
  requestBody : option RequestBody
}.

Record SecurityScheme : Type := {
  ss_type : string;
  scheme : string;
  bearerFormat : string
}.

Record Components : Type := {
  schemas : gmap string Schema;
  securitySchemes : option (gmap string SecurityScheme)
}.

Record Contact : Type := { c_name : string; c_url : string }.

Record Info : Type := {
  title : string;
  version : string;
  i_description : string;
  contact : option Contact;
  license : option Contact
}.

Record Tag : Type := { t_name : string; t_description : string }.

Record Metadata : Type := {
  totalEndpoints : nat;
  discoveryDate : string;
  extensionVersion : string
}.

Record Document : Type := {
  openapi : string;
  info : Info;
  servers : list string;                         (* the [url] of each entry *)
  paths : gmap string (gmap string Operation);
  components : Components;
  doc_tags : list Tag;
  x_jentic_source_url : option string;
  x_discovery_metadata : option Metadata
}.

Record Options : Type := {
  o_title : option string;
  o_version : option string;
  o_description : option string;
  o_contact : option Contact;
  o_license : option Contact;
  o_sourceUrl : option string
}.

Definition no_options : Options :=
  {| o_title := None; o_version := None; o_description := None;
     o_contact := None; o_license := None; o_sourceUrl := None |}.

(** *** The instance fields (lines 7-10) *)

Record Generator : Type := {
  schemaCache : gmap string Schema;
  operationIdCache : gset string
}.

Definition constructor : Generator :=
  {| schemaCache := ∅; operationIdCache := ∅ |}.

(** *** Methods that do not touch the instance *)

(** [generateEmptySpec] (lines 37-52). *)
Definition generateEmptySpec : Document :=
  {| openapi := "3.0.3";
     info := {| title := "Discovered API"; version := "0.1.0";
                i_description := "No API endpoints discovered yet. Start discovery to generate specifications.";
                contact := None; license := None |};
     servers := ["https://example.com"];
     paths := ∅;
     components := {| schemas := ∅; securitySchemes := None |};
     doc_tags := [];
     x_jentic_source_url := None;
     x_discovery_metadata := None |}.

Definition or_default (o : option string) (d : string) : string :=
  JS.or_else (default "" o) d.

(** [generateInfo] (lines 57-71). *)
Definition generateInfo (options : Options) : Info :=
  {| title := or_default (o_title options) "Discovered API";
     version := or_default (o_version options) "0.1.0";
     i_description := or_default (o_description options)
                        "API discovered automatically by Chrome Extension";
     contact := Some (default {| c_name := "API Discovery Extension";
                                 c_url := "https://github.com/yourusername/chrome-api-discovery" |}
                              (o_contact options));
     license := Some (default {| c_name := "MIT";
                                 c_url := "https://opensource.org/licenses/MIT" |}
                              (o_license options)) |}.

(** [capitalize] (lines 597-599). *)
Definition capitalize : string -> string := JS.capitalize.

(** [normalizePath] (lines 136-147). *)
Definition normalizePath (pathname : string) : string :=
  let normalized :=
    replace (Templating.in_path Templating.digits_body false) "/{id}" pathname in
  let normalized :=
    replace (Templating.in_path Templating.uuid_body true) "/{uuid}" normalized in
  let normalized :=
    replace (Templating.in_path Templating.hex24_body true) "/{objectId}" normalized in
  normalized.

(** [pathname.split('/').filter(Boolean)] *)
Definition segments_of (pathname : string) : list string :=
  filter (fun s => JS.truthy s = true) (JS.split "/" pathname).

(** [extractResourceName] (lines 251-254). *)
Definition extractResourceName (pathname : string) : string :=
  let segments := segments_of pathname in
  JS.or_else (List.last segments "") "resource".

(** [generateOperationTags] (lines 204-218). *)
Definition generateOperationTags (pathname : string) : list string :=
  let segments := segments_of pathname in
  match segments with
  | [] => []
  | s0 :: _ =>
      s0 :: (if (2 <? length segments)%nat then
               match nth_error segments 1 with Some s1 => [s1] | None => [] end
             else [])
  end.

(** [generateOperationSummary] (lines 223-235). *)
Definition generateOperationSummary (endpoint : Endpoint) : string :=
  let method := JS.toUpperCase (method endpoint) in
  let resource := extractResourceName (pathname endpoint) in
  if JS.string_eqb method "GET" then "Retrieve " +:+ resource
  else if JS.string_eqb method "POST" then "Create " +:+ resource
  else if JS.string_eqb method "PUT" then "Update " +:+ resource
  else if JS.string_eqb method "DELETE" then "Delete " +:+ resource
  else if JS.string_eqb method "PATCH" then "Partially update " +:+ resource
  else method +:+ " " +:+ resource.

(** [generateOperationDescription] (lines 240-246). *)
Definition generateOperationDescription (endpoint : Endpoint) : string :=
  let method := JS.toUpperCase (method endpoint) in
  let resource := extractResourceName (pathname endpoint) in
  let path := pathname endpoint in
  method +:+ " operation for " +:+ resource +:+ " at " +:+ path +:+
  ". Discovered automatically by API Discovery extension.".

(** What [extractPathParameters] pushes (lines 300-317). *)
Record PathParam : Type := {
  pp_name : string;
  pp_type : string;
  pp_format : option string;
  pp_resource : string
}.

(** [getResourceFromSegment] (lines 327-332). *)
Definition getResourceFromSegment (segments : list string) (index : nat) : string :=
  if (0 <? index)%nat then nth (index - 1) segments "" else "resource".

(** [extractPathParameters] (lines 294-322). *)
Definition path_param_at (segments : list string) (index : nat) (segment : string)
    : list PathParam :=
  if test (Templating.whole Templating.digits_body false) segment then
    [{| pp_name := "id"; pp_type := "integer"; pp_format := None;
        pp_resource := getResourceFromSegment segments index |}]
  else if test (Templating.whole Templating.uuid_body true) segment then
    [{| pp_name := "uuid"; pp_type := "string"; pp_format := Some "uuid";
        pp_resource := getResourceFromSegment segments index |}]
  else if test (Templating.whole Templating.hex24_body true) segment then
    [{| pp_name := "objectId"; pp_type := "string"; pp_format := None;
        pp_resource := getResourceFromSegment segments index |}]
  else [].

Definition extractPathParameters (pathname : string) : list PathParam :=
  let segments := JS.split "/" pathname in
  concat (imap (path_param_at segments) segments).

(** [inferParameterType] (lines 337-347): the [type] of the schema. *)
Definition inferParameterType (value : string) : string :=
  if JS.string_eqb value "true" || JS.string_eqb value "false" then "boolean"
  else if negb (JSNumber.isNaN value) && negb (JS.string_eqb value "") then "number"
  else "string".

(** [generateParameters] (lines 259-289). *)
Definition generateParameters (endpoint : Endpoint) : list Param :=
  let pathParams := extractPathParameters (pathname endpoint) in
  map (fun param =>
         {| name := pp_name param; in_ := "path"; required := true;
            schema_type := pp_type param; example := None;
            p_description := "Identifier for " +:+ pp_resource param |})
      pathParams
  ++ match searchParams endpoint with
     | Some entries =>
         map (fun '(name, value) =>
                {| name := name; in_ := "query"; required := false;
                   schema_type := inferParameterType value; example := Some value;
                   p_description := "Query parameter: " +:+ name |})
             entries
     | None => []
     end.

(** [getStatusDescription] (lines 574-592). *)
Definition getStatusDescription (status : option nat) : string :=
  let descriptions :=
    [(200, "OK"); (201, "Created"); (204, "No Content"); (400, "Bad Request");
     (401, "Unauthorized"); (403, "Forbidden"); (404, "Not Found");
     (409, "Conflict"); (422, "Unprocessable Entity"); (429, "Too Many Requests");
     (500, "Internal Server Error"); (502, "Bad Gateway");
     (503, "Service Unavailable")] in
  match status with
  | Some n =>
      match find (fun kv => (fst kv =? n)%nat) descriptions with
      | Some kv => snd kv
      | None => "Response"
      end
  | None => "Response"
  end.

(** [String(endpoint.status)], the key of [responses[endpoint.status]]. *)
Definition status_key (status : option nat) : string :=
  match status with Some n => JS.ofNat n | None => "undefined" end.

(** [endpoint.status >= n]; an absent status compares false. *)
Definition status_ge (status : option nat) (n : nat) : bool :=
  match status with Some s => (n <=? s)%nat | None => false end.

Definition ref_to (schemaName : string) : string :=
  "#/components/schemas/" +:+ schemaName.

Definition error_response (description : string) : Response :=
  {| r_description := description;
     content := {[ "application/json" := ref_to "Error" ]} |}.

(** [generateRequestBody] (lines 435-448). *)
Definition generateRequestBody (endpoint : Endpoint) : RequestBody :=
  let resource := extractResourceName (pathname endpoint) in
  {| rb_required := true;
     rb_content := {[ "application/json" := ref_to (capitalize resource +:+ "Input") ]} |}.

Definition auth_like (h : string) : bool :=
  JS.includes (JS.toLowerCase h) "authorization"
  || JS.includes (JS.toLowerCase h) "api-key"
  || JS.includes (JS.toLowerCase h) "token".

(** [generateSecurity] (lines 453-464). *)
Definition generateSecurity (endpoint : Endpoint) : list (list (string * list string)) :=
  match headers endpoint with
  | Some hs => if existsb auth_like (map fst hs) then [[("bearerAuth", [])]] else []
  | None => []
  end.

(** [generateSecuritySchemes] (lines 521-540). *)
Definition generateSecuritySchemes (endpoints : list Endpoint)
    : gmap string SecurityScheme :=
  let hasAuth :=
    existsb (fun e =>
               match headers e with
               | Some hs =>
                   existsb (fun h => JS.includes (JS.toLowerCase h) "authorization")
                           (map fst hs)
               | None => false
               end) endpoints in
  if hasAuth
  then {[ "bearerAuth" := {| ss_type := "http"; scheme := "bearer"; bearerFormat := "JWT" |} ]}
  else ∅.

(** [analyzeEndpoints] (lines 604-626): groups keyed by the first segment
    of the template, in order of first appearance. *)
Record Group : Type := { g_name : string; patterns : list string }.

Fixpoint push_pattern (key path : string) (groups : list Group) : list Group :=
  match groups with
  | [] => [{| g_name := key; patterns := [path] |}]
  | g :: r =>
      if JS.string_eqb key (g_name g)
      then {| g_name := g_name g; patterns := patterns g ++ [path] |} :: r
      else g :: push_pattern key path r
  end.

Definition analyzeEndpoints (endpoints : list Endpoint) : list Group :=
  fold_left (fun groups endpoint =>
               let path := normalizePath (pathname endpoint) in
               let key := JS.or_else (nth 1 (JS.split "/" path) "") "default" in
               push_pattern key path groups)
            endpoints [].

Definition resource_schema (resourceName : string) : Schema :=
  {| s_type := "object";
     s_properties :=
       [("id", {| p_type := "string"; p_example := Some "123" |});
        ("name", {| p_type := "string"; p_example := Some ("Example " +:+ resourceName) |})];
     s_required := [] |}.

Definition input_schema (resourceName : string) : Schema :=
  {| s_type := "object";
     s_properties :=
       [("name", {| p_type := "string"; p_example := Some ("Example " +:+ resourceName) |})];
     s_required := ["name"] |}.

Definition error_schema : Schema :=
  {| s_type := "object";
     s_properties :=
       [("error", {| p_type := "string"; p_example := Some "Error message" |});
        ("code", {| p_type := "string"; p_example := Some "ERROR_CODE" |});
        ("details", {| p_type := "object"; p_example := None |})];
     s_required := [] |}.

(** [generateSchemas] (lines 479-516). *)
Definition generateSchemas (analysis : list Group) : gmap string Schema :=
  let schemas :=
    fold_left (fun schemas group =>
                 let resourceName := extractResourceName (hd "" (patterns group)) in
                 let schemaName := capitalize resourceName in
                 JS.set_property (schemaName +:+ "Input") (input_schema resourceName)
                   (JS.set_property schemaName (resource_schema resourceName) schemas))
              analysis ∅ in
  <["Error" := error_schema]> schemas.

(** [generateComponents] (lines 469-474). *)
Definition generateComponents (endpoints : list Endpoint) (analysis : list Group)
    : Components :=
  {| schemas := generateSchemas analysis;
     securitySchemes := Some (generateSecuritySchemes endpoints) |}.

(** [generateTags] (lines 545-550). *)
Definition generateTags (analysis : list Group) : list Tag :=
  map (fun group =>
         let n := extractResourceName (hd "" (patterns group)) in
         {| t_name := n; t_description := "Operations for " +:+ n +:+ " resources" |})
      analysis.

Section WithURL.
Variable new_URL : string -> option URL.t.

  (** [determineBaseURL] (lines 102-111). *)
Definition determineBaseURL (endpoints : list Endpoint) : string :=
    match endpoints with
    | [] => "https://example.com"
    | e0 :: _ =>
        match new_URL (url e0) with
        | Some u => URL.protocol u +:+ "//" +:+ URL.hostname u
        | None => "https://example.com"
        end
    end.

  (** [generateServers] (lines 76-97). *)
Definition generateServers (baseURL : string) (endpoints : list Endpoint)
      : list string :=
    let uniqueHosts :=
      APIAnalyzer.distinct (filter (fun o => JS.truthy o = true)
                  (omap (fun e => URL.origin <$> new_URL (url e)) endpoints)) in
    [baseURL] ++
    (if (1 <? length uniqueHosts)%nat
     then filter (fun host => host ≠ baseURL) uniqueHosts
     else []).
End WithURL.

(** *** Methods that read or write the instance fields *)

(** The loop of [generateUniqueOperationId] (lines 191-195), with the
    number of turns it may still take. *)
Fixpoint suffix_loop (turns : nat) (cache : gset string) (stem operationId : string)
    (counter : nat) : option string :=
  if bool_decide (operationId ∈ cache) then
    match turns with
    | 0 => None
    | S t => suffix_loop t cache stem (stem +:+ JS.ofNat counter) (S counter)
    end
  else Some operationId.

(** [generateUniqueOperationId] (lines 174-199).  The loop leaves within
    [size cache] turns ([suffix_loop_total] below), so the fallback is never
    taken. *)
Definition generateUniqueOperationId (method pathname : string) (g : Generator)
    : string * Generator :=
  let segments := segments_of pathname in
  let resource := JS.or_else (List.last segments "") "item" in
  let stem := APIAnalyzer.methodPrefix method +:+ capitalize resource in
  let operationId :=
    default stem (suffix_loop (size (operationIdCache g)) (operationIdCache g)
                              stem stem 1) in
  (operationId,
   {| schemaCache := schemaCache g;
      operationIdCache := {[operationId]} ∪ operationIdCache g |}).

(** [generateResponseSchema] (lines 410-430). *)
Definition generateResponseSchema (endpoint : Endpoint) (g : Generator)
    : string * Generator :=
  let resource := extractResourceName (pathname endpoint) in
  let schemaName := capitalize resource in
  match schemaCache g !! schemaName with
  | Some _ => (ref_to schemaName, g)
  | None =>
      (ref_to schemaName,
       {| schemaCache := <[schemaName := resource_schema resource]> (schemaCache g);
          operationIdCache := operationIdCache g |})
  end.

(** [generateResponseContent] (lines 390-405). *)
Definition generateResponseContent (endpoint : Endpoint) (g : Generator)
    : gmap string string * Generator :=
  let '(schema, g) := generateResponseSchema endpoint g in
  let mediaType :=
    match contentType endpoint with
    | Some ct => if JS.truthy ct && negb (JS.string_eqb ct "unknown")
                 then ct else "application/json"
    | None => "application/json"
    end in
  ({[ mediaType := schema ]}, g).

(** [generateResponses] (lines 352-385). *)
Definition generateResponses (endpoint : Endpoint) (g : Generator)
    : gmap string Response * Generator :=
  let '(content, g) := generateResponseContent endpoint g in
  let responses : gmap string Response :=
    {[ status_key (status endpoint) :=
         {| r_description := getStatusDescription (status endpoint);
            content := content |} ]} in
  let responses :=
    if status_ge (status endpoint) 400
    then <["4xx" := error_response "Client error"]> responses else responses in
  let responses :=
    if status_ge (status endpoint) 500
    then <["5xx" := error_response "Server error"]> responses else responses in
  (responses, g).

(** [generateOperation] (lines 152-169). *)
Definition generateOperation (endpoint : Endpoint) (g : Generator)
    : Operation * Generator :=
  let '(operationId, g) :=
    generateUniqueOperationId (method endpoint) (pathname endpoint) g in
  let tags := generateOperationTags (pathname endpoint) in
  let summary := generateOperationSummary endpoint in
  let description := generateOperationDescription endpoint in
  let parameters := generateParameters endpoint in
  let '(responses, g) := generateResponses endpoint g in
  let security := generateSecurity endpoint in
  let lower := JS.toLowerCase (method endpoint) in
  ({| operationId := operationId; tags := tags; summary := summary;
      description := description; parameters := parameters;
      responses := responses; security := security;
      requestBody :=
        if bool_decide (lower ∈ ["post"; "put"; "patch"])
        then Some (generateRequestBody endpoint) else None |}, g).

(** One turn of the loop of [generatePaths] (lines 119-128). *)
Definition paths_step (acc : gmap string (gmap string Operation) * Generator)
    (endpoint : Endpoint) : gmap string (gmap string Operation) * Generator :=
  let '(paths, g) := acc in
  let path := normalizePath (pathname endpoint) in
  let method := JS.toLowerCase (method endpoint) in
  let item := default ∅ (paths !! path) in
  let '(operation, g) := generateOperation endpoint g in
  (<[path := <[method := operation]> item]> paths, g).

(** [generatePaths] (lines 116-131). *)
Definition generatePaths (endpoints : list Endpoint) (g : Generator)
    : gmap string (gmap string Operation) * Generator :=
  fold_left paths_step endpoints (∅, g).

(** [generateExtensions] (lines 555-569); [now] is the reading of the
    clock. *)
Definition generateExtensions (now : string) (endpoints : list Endpoint)
    (options : Options) : option string * Metadata :=
  (match o_sourceUrl options with
   | Some u => if JS.truthy u then Some u else None
   | None => None
   end,
   {| totalEndpoints := length endpoints; discoveryDate := now;
      extensionVersion := "0.1.0" |}).

(** [generateOpenAPISpec] (lines 15-32). *)
Definition generateOpenAPISpec (new_URL : string -> option URL.t) (now : string)
    (endpoints : list Endpoint) (options : Options) (g : Generator)
    : Document * Generator :=
  match endpoints with
  | [] => (generateEmptySpec, g)
  | _ =>
      let analysis := analyzeEndpoints endpoints in
      let baseURL := determineBaseURL new_URL endpoints in
      let info := generateInfo options in
      let servers := generateServers new_URL baseURL endpoints in
      let '(paths, g) := generatePaths endpoints g in
      let components := generateComponents endpoints analysis in
      let tags := generateTags analysis in
      let '(source, metadata) := generateExtensions now endpoints options in
      ({| openapi := "3.0.3"; info := info; servers := servers; paths := paths;
          components := components; doc_tags := tags;
          x_jentic_source_url := source;
          x_discovery_metadata := Some metadata |}, g)
  end.

End OpenAPIGenerator.

(** ** [Utils] (openapi-generator.js, lines 640-710) *)

Module Utils.

(** The data [sanitizeSensitiveData] walks: every value that is not an
    object is a scalar, whose payload is never looked at. *)
Inductive scalar : Type :=
| Null
| Undefined
| Boolean (b : bool)
| Number (n : Z)
| Text (s : string).

#[warnings="-register-all"] Inductive value : Type :=
| Scalar (x : scalar)
| Array (items : list value)
| Object (entries : list (string * value)).

(** Induction over values, with the hypothesis for every item of an array
    and every entry of an object. *)
Fixpoint value_rect' (P : value -> Prop)
    (fscalar : forall x, P (Scalar x))
    (farray : forall items, Forall P items -> P (Array items))
    (fobject : forall entries, Forall (fun e => P (snd e)) entries -> P (Object entries))
    (v : value) : P v :=
  match v with
  | Scalar x => fscalar x
  | Array items =>
      farray items
        ((fix go (l : list value) : Forall P l :=
            match l with
            | [] => List.Forall_nil P
            | x :: r => List.Forall_cons P x r (value_rect' P fscalar farray fobject x) (go r)
            end) items)
  | Object entries =>
      fobject entries
        ((fix go (l : list (string * value)) : Forall (fun e => P (snd e)) l :=
            match l with
            | [] => List.Forall_nil _
            | e :: r =>
                List.Forall_cons _ e r (value_rect' P fscalar farray fobject (snd e)) (go r)
            end) entries)
  end.

Definition defaultSensitiveKeys : list string :=
  [ "authorization"; "cookie"; "set-cookie"; "x-api-key"; "x-csrf-token";
    "x-auth-token"; "x-access-token"; "x-refresh-token"; "x-session-id";
    "password"; "secret"; "token"; "key"; "credential" ].

Definition redacted : value := Scalar (Text "[REDACTED]").

(** [allSensitiveKeys.some(sensitive => lowerKey.includes(sensitive))] *)
Definition is_sensitive (allSensitiveKeys : list string) (key : string) : bool :=
  existsb (fun sensitive => JS.includes (JS.toLowerCase key) sensitive) allSensitiveKeys.

(** [sanitizeSensitiveData] (lines 644-675).  A value stands for its own
    enumerable properties, in the order of [Object.entries].  The entries
    of an object have distinct keys, so assigning them one by one to the
    fresh object [sanitized] keeps them in place; the assignment under the
    key [__proto__] makes no entry (see [JS.set_property]). *)
Fixpoint sanitizeSensitiveData (data : value) (sensitiveKeys : list string) : value :=
  match data with
  | Scalar _ => data
  | Array items =>
      let allSensitiveKeys := defaultSensitiveKeys ++ sensitiveKeys in
      Array (map (fun item => sanitizeSensitiveData item allSensitiveKeys) items)
  | Object entries =>
      let allSensitiveKeys := defaultSensitiveKeys ++ sensitiveKeys in
      Object (omap (fun '(key, value) =>
                      if JS.is_proto key then None
                      else Some
                        (key,
                         if is_sensitive allSensitiveKeys key then redacted
                         else match value with
                              | Scalar _ => value
                              | _ => sanitizeSensitiveData value allSensitiveKeys
                              end))
                   entries)
  end.

(** [isSensitiveHeader] (lines 702-710). *)
Definition isSensitiveHeader (headerName : string) : bool :=
  let sensitivePatterns :=
    [ "authorization"; "cookie"; "set-cookie"; "x-api-key"; "x-csrf-token";
      "x-auth-token"; "x-access-token"; "x-refresh-token"; "x-session-id";
      "password"; "secret"; "token"; "key"; "credential" ] in
  existsb (fun pattern => JS.includes headerName pattern) sensitivePatterns.

(** [sanitizeHeaders] (lines 680-697) on an array of [{name, value}]. *)
Definition sanitizeHeaders (headers : list (string * string)) : gmap string string :=
  fold_left (fun sanitized header =>
               let lowerName := JS.toLowerCase (fst header) in
               if isSensitiveHeader lowerName
               then JS.set_property (fst header) "[REDACTED]" sanitized
               else JS.set_property (fst header) (snd header) sanitized)
            headers ∅.

End Utils.

(** ** Notions used to state and prove the properties *)

Module Segments.
Import Regex.

(** A sequence of patterns run one after the other. *)
Fixpoint runs {A} (ci : bool) (items : list regex)
    (k : nat -> string -> option A) (pos : nat) (s : string) : option A :=
  match items with
  | [] => k pos s
  | r :: t => run ci r pos s (runs ci t k)
  end.

(** Single characters and repetitions of them, none of which is a slash. *)
Definition slash_free (ci : bool) (r : regex) : bool :=
  match r with
  | Atom a | Rep _ _ a => negb (atom_matches ci a "/")
  | _ => false
  end.

(** The input ends here or goes on with a slash. *)
Definition at_boundary (rest : string) : bool :=
  match rest with
  | EmptyString => true
  | String c _ => Ascii.eqb c "/"
  end.

Fixpoint no_slash (seg : string) : bool :=
  match seg with
  | EmptyString => true
  | String c r => negb (Ascii.eqb c "/") && no_slash r
  end.

(** Every segment behind its slash. *)
Fixpoint slashed (segs : list string) : string :=
  match segs with
  | [] => EmptyString
  | seg :: r => "/" +:+ seg +:+ slashed r
  end.

(** [x] is what is left of [s] after some prefix. *)
Definition suffix_of (x s : string) : Prop := exists pre, s = pre +:+ x.

(** The body of a shape covers the whole segment. *)
Definition covers (body : list regex) (ci : bool) (seg : string) : option unit :=
  runs ci body (fun _ x => match x with EmptyString => Some tt | _ => None end) 0 seg.

(** The per-segment rule: the first of the three shapes that the whole
    segment has decides its placeholder.  [objectId_i] tells whether the
    24-character shape is read with the [i] flag. *)
Definition segment_template (objectId_i : bool) (segment : string) : string :=
  if test (Templating.whole Templating.digits_body false) segment then "{id}"
  else if test (Templating.whole Templating.uuid_body true) segment then "{uuid}"
  else if test (Templating.whole Templating.hex24_body objectId_i) segment then "{objectId}"
  else segment.

(** The three shapes said character by character. *)
Definition is_digit (c : ascii) : bool :=
  ((48 <=? nat_of_ascii c) && (nat_of_ascii c <=? 57))%nat.

Definition is_lower_hex (c : ascii) : bool :=
  is_digit c || ((97 <=? nat_of_ascii c) && (nat_of_ascii c <=? 102))%nat.

Definition is_hex (c : ascii) : bool :=
  is_lower_hex c || ((65 <=? nat_of_ascii c) && (nat_of_ascii c <=? 70))%nat.

Fixpoint all_chars (p : ascii -> bool) (s : string) : bool :=
  match s with
  | EmptyString => true
  | String c r => p c && all_chars p r
  end.

(** What is left of [s] after exactly [n] characters that satisfy [p]. *)
Fixpoint take_chars (p : ascii -> bool) (n : nat) (s : string) : option string :=
  match n with
  | 0 => Some s
  | S m =>
      match s with
      | String c r => if p c then take_chars p m r else None
      | EmptyString => None
      end
  end.

(** Groups of the given sizes with a dash between them, and nothing more. *)
Fixpoint groups_shape (p : ascii -> bool) (sizes : list nat) (s : string) : bool :=
  match sizes with
  | [] => false
  | [n] => match take_chars p n s with Some EmptyString => true | _ => false end
  | n :: rest =>
      match take_chars p n s with
      | Some (String c r) => Ascii.eqb c "-" && groups_shape p rest r
      | _ => false
      end
  end.

Definition digits_shape (seg : string) : bool :=
  JS.truthy seg && all_chars is_digit seg.

Definition uuid_shape (seg : string) : bool :=
  groups_shape is_hex [8; 4; 4; 4; 12] seg.

Definition hex24_shape (upper_too : bool) (seg : string) : bool :=
  groups_shape (if upper_too then is_hex else is_lower_hex) [24] seg.

(** The per-segment rule of the specification; [upper_too] tells whether
    the 24-character shape also admits the upper-case hexadecimal digits. *)
Definition segment_rule (upper_too : bool) (segment : string) : string :=
  if digits_shape segment then "{id}"
  else if uuid_shape segment then "{uuid}"
  else if hex24_shape upper_too segment then "{objectId}"
  else segment.

Definition template_by_rule (upper_too : bool) (path : string) : string :=
  JS.join "/" (map (segment_rule upper_too) (JS.split "/" path)).

End Segments.

Module Confidentiality.
Import Utils.

(** The keys under which [sanitizeSensitiveData] redacts when it is called
    with the extra keys [extra]. *)
Definition sensitive (extra : list string) (key : string) : bool :=
  is_sensitive (defaultSensitiveKeys ++ extra) key.

(** Two values that differ at most in what they store under sensitive
    keys: the same scalars, arrays of the same length, objects with the
    same keys in the same order. *)
#[warnings="-register-all"] Inductive low_equiv (extra : list string) : value -> value -> Prop :=
| low_scalar x : low_equiv extra (Scalar x) (Scalar x)
| low_array l1 l2 :
    Forall2 (low_equiv extra) l1 l2 -> low_equiv extra (Array l1) (Array l2)
| low_object e1 e2 :
    Forall2 (fun a b => fst a = fst b /\
                        (sensitive extra (fst a) = true \/
                         low_equiv extra (snd a) (snd b))) e1 e2 ->
    low_equiv extra (Object e1) (Object e2).

(** Positions inside a value. *)
Inductive step : Type :=
| Key (k : string)
| Index (i : nat).

Fixpoint entry (k : string) (entries : list (string * value)) : option value :=
  match entries with
  | [] => None
  | (k', v) :: r => if JS.string_eqb k k' then Some v else entry k r
  end.

Definition child (s : step) (v : value) : option value :=
  match s, v with
  | Key k, Object entries => entry k entries
  | Index i, Array items => nth_error items i
  | _, _ => None
  end.

Fixpoint at_path (p : list step) (v : value) : option value :=
  match p with
  | [] => Some v
  | s :: r => match child s v with Some w => at_path r w | None => None end
  end.

(** No key on the way is sensitive. *)
Definition clear_step (extra : list string) (s : step) : bool :=
  match s with
  | Key k => negb (sensitive extra k)
  | Index _ => true
  end.

(** The step is not through the key [__proto__]. *)
Definition plain_step (s : step) : bool :=
  match s with
  | Key k => negb (JS.string_eqb k "__proto__")
  | Index _ => true
  end.

End Confidentiality.

Module Synthesis.
Import OpenAPIGenerator.

(** The key under which [generatePaths] files an endpoint. *)
Definition key (endpoint : Endpoint) : string * string :=
  (normalizePath (pathname endpoint), JS.toLowerCase (method endpoint)).

(** [paths[p][m]] *)
Definition operation_at (paths : gmap string (gmap string Operation))
    (p m : string) : option Operation :=
  paths !! p ≫= (.!! m).

(** The resource that names the operation: the last non-empty segment of
    the path as it was observed. *)
Definition resource_of (pathname : string) : string :=
  JS.or_else (List.last (segments_of pathname) "") "item".

(** The response map that [generateResponses] builds for an endpoint,
    whatever the state of the instance. *)
Definition responses_of (endpoint : Endpoint) : gmap string Response :=
  let mediaType :=
    match contentType endpoint with
    | Some ct => if JS.truthy ct && negb (JS.string_eqb ct "unknown")
                 then ct else "application/json"
    | None => "application/json"
    end in
  let own : gmap string Response :=
    {[ status_key (status endpoint) :=
         {| r_description := getStatusDescription (status endpoint);
            content := {[ mediaType :=
                            ref_to (capitalize (extractResourceName (pathname endpoint))) ]} |} ]} in
  let with4 := if status_ge (status endpoint) 400
               then <["4xx" := error_response "Client error"]> own else own in
  if status_ge (status endpoint) 500
  then <["5xx" := error_response "Server error"]> with4 else with4.

(** The operation built for an endpoint, given the identifier it gets. *)
Definition operation_with (operationId : string) (endpoint : Endpoint) : Operation :=
  {| operationId := operationId;
     tags := generateOperationTags (pathname endpoint);
     summary := generateOperationSummary endpoint;
     description := generateOperationDescription endpoint;
     parameters := generateParameters endpoint;
     responses := responses_of endpoint;
     security := generateSecurity endpoint;
     requestBody :=
       if bool_decide (JS.toLowerCase (method endpoint) ∈ ["post"; "put"; "patch"])
       then Some (generateRequestBody endpoint) else None |}.

(** Some header name of the endpoint satisfies [f]. *)
Definition has_header (f : string -> bool) (endpoint : Endpoint) : bool :=
  match headers endpoint with
  | Some hs => existsb f (map fst hs)
  | None => false
  end.

(** Two runs of the loop of [generatePaths] that agree on the paths and on
    the operationId cache. *)
Definition agree (a b : gmap string (gmap string Operation) * Generator) : Prop :=
  fst a = fst b /\ operationIdCache (snd a) = operationIdCache (snd b).

Definition bearer_required : list (list (string * list string)) :=
  [[("bearerAuth", [])]].

Definition bearer_scheme : SecurityScheme :=
  {| ss_type := "http"; scheme := "bearer"; bearerFormat := "JWT" |}.

Definition names_authorization (h : string) : bool :=
  JS.includes (JS.toLowerCase h) "authorization".

(** Every [$ref] below [paths]. *)
Definition refs_of_operation (op : Operation) : list string :=
  concat (map (fun r => map snd (map_to_list (content (snd r))))
              (map_to_list (responses op)))
  ++ match requestBody op with
     | Some rb => map snd (map_to_list (rb_content rb))
     | None => []
     end.

Definition refs_of_paths (d : Document) : list string :=
  concat (map (fun item => concat (map (fun o => refs_of_operation (snd o))
                                       (map_to_list (snd item))))
              (map_to_list (paths d))).

(** A [$ref] resolves when it names an entry of [components.schemas]. *)
Definition resolves (d : Document) (ref : string) : bool :=
  existsb (fun n => JS.string_eqb ref (ref_to n))
          (map fst (map_to_list (schemas (components d)))).

End Synthesis.

(** ** The observations of the scenarios *)

Module Scenarios.

Definition completed (url method : string) (status : nat) : Background.Details :=
  {| Background.d_url := url; Background.d_method := method;
     Background.d_statusCode := status;
     Background.d_contentType := Some "application/json";
     Background.d_responseSize := 0 |}.

(** [endpoint.headers = {...endpoint.headers, ...headers}] for headers
    not yet present. *)
Definition carrying (hs : list (string * string)) (e : Endpoint) : Endpoint :=
  {| url := url e; method := method e; status := status e;
     contentType := contentType e; hostname := hostname e; pathname := pathname e;
     searchParams := searchParams e;
     headers := Some (default [] (headers e) ++ hs);
     responseSize := responseSize e |}.

Definition users_42_43 : list Endpoint :=
  Background.capture URL.parse
    [ completed "https://api.x.com/users/42" "GET" 200;
      completed "https://api.x.com/users/43" "GET" 200 ].

Definition users_200_404 : list Endpoint :=
  Background.capture URL.parse
    [ completed "https://api.x.com/users?page=1" "GET" 200;
      completed "https://api.x.com/users?limit=2" "GET" 404 ].

(** The parameter [page] observed with the values 5 and abc, in both
    orders. *)
Definition page_5_then_abc : list Endpoint :=
  Background.capture URL.parse
    [ completed "https://api.x.com/users?page=5" "GET" 200;
      completed "https://api.x.com/users?page=abc" "GET" 200 ].

Definition page_abc_then_5 : list Endpoint :=
  Background.capture URL.parse
    [ completed "https://api.x.com/users?page=abc" "GET" 200;
      completed "https://api.x.com/users?page=5" "GET" 200 ].

Definition users_once : list Endpoint :=
  Background.capture URL.parse [ completed "https://api.x.com/users" "GET" 200 ].

(** One observation with the header [Authorization: Bearer xyz]. *)
Definition users_authorized : list Endpoint :=
  map (carrying [("Authorization", "Bearer xyz")])
      (Background.capture URL.parse [ completed "https://api.x.com/users" "GET" 200 ]).

Definition users_authorized_then_not : list Endpoint :=
  map (carrying [("Authorization", "[REDACTED]")])
      (Background.capture URL.parse [ completed "https://api.x.com/users" "GET" 200 ])
  ++ Background.capture URL.parse [ completed "https://api.x.com/users" "GET" 200 ].

Definition users_with_api_key : list Endpoint :=
  map (carrying [("X-API-Key", "[REDACTED]")])
      (Background.capture URL.parse [ completed "https://api.x.com/users" "GET" 200 ]).

Definition user_42 : list Endpoint :=
  Background.capture URL.parse [ completed "https://api.x.com/users/42" "GET" 200 ].

Definition local_then_remote : list Endpoint :=
  Background.capture URL.parse
    [ completed "http://localhost:3000/api/users" "GET" 200;
      completed "https://api.x.com/api/users" "GET" 200 ].

Definition local_only : list Endpoint :=
  Background.capture URL.parse [ completed "http://localhost:3000/api/users" "GET" 200 ].

(** An endpoint whose [url] is not a URL. *)
Definition unparseable : Endpoint :=
  {| url := "not a url"; method := "GET"; status := Some 200;
     contentType := Some "application/json"; hostname := ""; pathname := "/users";
     searchParams := Some []; headers := Some []; responseSize := 0 |}.

(** What one call leaves in the instance, and the document of the next. *)
Definition first_call (endpoints : list Endpoint)
    : OpenAPIGenerator.Document * OpenAPIGenerator.Generator :=
  OpenAPIGenerator.generateOpenAPISpec URL.parse "2026-01-01T00:00:00.000Z" endpoints
    OpenAPIGenerator.no_options OpenAPIGenerator.constructor.

Definition second_call (endpoints : list Endpoint)
    : OpenAPIGenerator.Document * OpenAPIGenerator.Generator :=
  OpenAPIGenerator.generateOpenAPISpec URL.parse "2026-01-01T00:00:00.000Z" endpoints
    OpenAPIGenerator.no_options (snd (first_call endpoints)).

End Scenarios.

(** ** Further notions and observations *)

Module Placeholders.
Import Regex.

(** The name of the placeholder that a segment gets, if it gets one. *)
Definition placeholder_name (segment : string) : option string :=
  if Segments.digits_shape segment then Some "id"
  else if Segments.uuid_shape segment then Some "uuid"
  else if Segments.hex24_shape true segment then Some "objectId"
  else None.

Definition placeholder (segment : string) : string :=
  match placeholder_name segment with
  | Some n => "{" +:+ n +:+ "}"
  | None => segment
  end.

End Placeholders.

Module MoreScenarios.

Definition users_get_post : list Endpoint :=
  Background.capture URL.parse
    [ Scenarios.completed "https://api.x.com/users" "GET" 200;
      Scenarios.completed "https://api.x.com/users" "POST" 201 ].

Definition two_default_origins : list Endpoint :=
  Background.capture URL.parse
    [ Scenarios.completed "https://api.x.com/users" "GET" 200;
      Scenarios.completed "https://cdn.x.com/img" "GET" 200;
      Scenarios.completed "https://api.x.com/posts" "GET" 200 ].

End MoreScenarios.

Module Counting.

(** [m.get(k) || 0] on a [Map] of counters, also after [sortMapByValue]. *)
Fixpoint count_of (k : string) (m : list (string * nat)) : nat :=
  match m with
  | [] => 0
  | (k', n) :: r => if JS.string_eqb k k' then n else count_of k r
  end.

(** The sum of the counts. *)
Definition total {K : Type} (m : list (K * nat)) : nat :=
  fold_right (fun e acc => snd e + acc) 0 m.

(** The counts never go up along the list. *)
Fixpoint descending {K : Type} (m : list (K * nat)) : Prop :=
  match m with
  | [] => True
  | e :: r => Forall (fun e' => snd e' <= snd e) r /\ descending r
  end.

(** The entries with a given count, in their order. *)
Definition with_count {K : Type} (c : nat) (m : list (K * nat)) : list (K * nat) :=
  filter (fun e => snd e = c) m.

End Counting.

(** ** The service worker (background.js, lines 252-574) *)

Module BackgroundScript.

(** A [webRequest] event: the fields of [Background.Details] and those
    read by [isAPIRequest] and [handleRequestHeaders]. *)
Record Request : Type := {
  details : Background.Details;
  r_type : string;
  initiator : option string;
  requestHeaders : option (list (string * string))   (* [{name, value}] *)
}.

Record State : Type := {
  isDiscovering : bool;
  endpoints : list Endpoint
}.

(** The fields as the constructor sets them (lines 253-257). *)
Definition initial : State := {| isDiscovering := false; endpoints := [] |}.

Definition apiPatterns : list string :=
  [ "/api/"; "/rest/"; "/graphql"; "/v1/"; "/v2/"; "/v3/"; ".json";
    "application/json"; "text/json" ].

(** [isAPIRequest] (lines 367-390), read as the condition it is used for. *)
Definition isAPIRequest (r : Request) : bool :=
  if JS.string_eqb (r_type r) "xmlhttprequest" then true
  else
    let url := JS.toLowerCase (Background.d_url (details r)) in
    existsb (fun pattern => JS.includes url pattern) apiPatterns
    || match initiator r with Some i => JS.truthy i | None => false end.

Definition sensitive : list string :=
  [ "authorization"; "cookie"; "x-api-key"; "x-csrf-token"; "x-auth-token";
    "x-access-token"; "x-refresh-token" ].

(** [sensitive.includes(name.toLowerCase())] *)
Definition is_sensitive (name : string) : bool :=
  bool_decide (JS.toLowerCase name ∈ sensitive).

(** [Object.fromEntries(pairs)] and [{...o, ...pairs}]: a repeated key
    keeps its first position and takes the last value. *)
Definition spread (o pairs : list (string * string)) : list (string * string) :=
  fold_left (fun o kv => Background.assign (fst kv) (snd kv) o) pairs o.

(** [sanitizeHeaders] (lines 435-456). *)
Definition sanitizeHeaders (headers : option (list (string * string)))
    : list (string * string) :=
  match headers with
  | None => []
  | Some hs =>
      spread [] (map (fun header =>
                        (fst header,
                         if is_sensitive (fst header) then "[REDACTED]" else snd header))
                     hs)
  end.

(** [updateEndpointHeaders] (lines 464-470): the first endpoint with that
    URL gets the headers. *)
Fixpoint updateEndpointHeaders (url_ : string) (hs : list (string * string))
    (eps : list Endpoint) : list Endpoint :=
  match eps with
  | [] => []
  | e :: r =>
      if JS.string_eqb (url e) url_ then
        {| url := url e; method := method e; status := status e;
           contentType := contentType e; hostname := hostname e;
           pathname := pathname e; searchParams := searchParams e;
           headers := Some (spread (default [] (headers e)) hs);
           responseSize := responseSize e |} :: r
      else e :: updateEndpointHeaders url_ hs r
  end.

(** What changes the two fields: the messages START_DISCOVERY,
    STOP_DISCOVERY and CLEAR_DATA and the two [webRequest] events.  The
    other messages read the fields or change nothing. *)
Inductive event : Type :=
| StartDiscovery
| StopDiscovery
| ClearData
| Completed (r : Request)
| BeforeSendHeaders (r : Request).

Section WithURL.
Variable new_URL : string -> option URL.t.

(** [handleWebRequest] (lines 345-355); when the URL does not parse the
    listener throws before the endpoint is added. *)
Definition handleWebRequest (r : Request) (s : State) : State :=
  if negb (isDiscovering s) || negb (isAPIRequest r) then s
  else match Background.createEndpointFromRequest new_URL (details r) with
       | Ok endpoint =>
           {| isDiscovering := isDiscovering s; endpoints := endpoints s ++ [endpoint] |}
       | Throw _ => s
       end.

(** [handleRequestHeaders] (lines 357-365). *)
Definition handleRequestHeaders (r : Request) (s : State) : State :=
  if negb (isDiscovering s) || negb (isAPIRequest r) then s
  else {| isDiscovering := isDiscovering s;
          endpoints := updateEndpointHeaders (Background.d_url (details r))
                         (sanitizeHeaders (requestHeaders r)) (endpoints s) |}.

(** The listeners and the messages START_DISCOVERY, STOP_DISCOVERY and
    CLEAR_DATA (lines 266-317 and 484-500). *)
Definition step (s : State) (ev : event) : State :=
  match ev with
  | StartDiscovery => {| isDiscovering := true; endpoints := endpoints s |}
  | StopDiscovery => {| isDiscovering := false; endpoints := endpoints s |}
  | ClearData => {| isDiscovering := isDiscovering s; endpoints := [] |}
  | Completed r => handleWebRequest r s
  | BeforeSendHeaders r => handleRequestHeaders r s
  end.

Definition run (events : list event) (s : State) : State :=
  fold_left step events s.
End WithURL.

(** No header with a sensitive name is stored with its value. *)
Definition headers_redacted (e : Endpoint) : Prop :=
  forall name value,
    (name, value) ∈ default [] (headers e) ->
    is_sensitive name = true -> value = "[REDACTED]".

End BackgroundScript.

(** ** The generator inside the service worker (background.js, lines 2-249) *)

Module BackgroundGenerator.
Import Regex.

(** [normalizePath] (lines 84-86). *)
Definition normalizePath (pathname : string) : string :=
  replace (Templating.in_path Templating.digits_body false) "/{id}" pathname.

(** The table of [generateUniqueOperationId] (lines 105-112). *)
Definition methodPrefix (method : string) : string :=
  let table := [("GET", "get"); ("POST", "create"); ("PUT", "update");
                ("DELETE", "delete"); ("PATCH", "patch")] in
  match find (fun kv => JS.string_eqb (fst kv) (JS.toUpperCase method)) table with
  | Some kv => snd kv
  | None => JS.toLowerCase method
  end.

(** [generateUniqueOperationId] (lines 101-124). *)
Definition generateUniqueOperationId (method pathname : string)
    (g : OpenAPIGenerator.Generator) : string * OpenAPIGenerator.Generator :=
  let segments := filter (fun s => JS.truthy s = true) (JS.split "/" pathname) in
  let resource := JS.or_else (List.last segments "") "item" in
  let stem := methodPrefix method +:+ JS.capitalize resource in
  let operationId :=
    default stem
      (OpenAPIGenerator.suffix_loop (size (OpenAPIGenerator.operationIdCache g))
         (OpenAPIGenerator.operationIdCache g) stem stem 1) in
  (operationId,
   {| OpenAPIGenerator.schemaCache := OpenAPIGenerator.schemaCache g;
      OpenAPIGenerator.operationIdCache :=
        {[operationId]} ∪ OpenAPIGenerator.operationIdCache g |}).

End BackgroundGenerator.

(** ** [Utils.sanitizeFilename] (openapi-generator.js, lines 925-931) *)

Module Filenames.
Import Regex.

(** [[^a-z0-9]] under the [i] flag: the characters outside [0-9], [A-Z]
    and [a-z]. *)
Definition other_than_alnum : atom :=
  Class [("000", "/"); (":", "@"); ("[", "`"); ("{", "255")]%char.

(** [/[^a-z0-9]/gi], [/-+/g] and [/^-|-$/g]. *)
Definition not_alnum : pattern := Pattern (Atom other_than_alnum) false.
Definition dashes : pattern := Pattern (Rep 1 None (Lit "-")) false.
Definition dash_at_an_end : pattern :=
  Pattern (Alt (Seq Bos (chr "-")) (Seq (chr "-") Eos)) false.

Definition sanitizeFilename (filename : string) : string :=
  JS.toLowerCase
    (replace dash_at_an_end ""
       (replace dashes "-"
          (replace not_alnum "-" filename))).

(** What the three replacements do, character by character. *)
Definition is_dash (c : ascii) : bool := Ascii.eqb c "-".

Definition dash_unless_alnum (c : ascii) : ascii :=
  if atom_plain other_than_alnum c then "-"%char else c.

(** Every run of dashes becomes one dash; [after_dash] tells whether the
    character before was a dash. *)
Fixpoint squeeze (after_dash : bool) (s : string) : string :=
  match s with
  | EmptyString => EmptyString
  | String c r =>
      if is_dash c then
        if after_dash then squeeze true r else String c (squeeze true r)
      else String c (squeeze false r)
  end.

Definition strip_first (s : string) : string :=
  match s with
  | String c r => if is_dash c then r else s
  | EmptyString => EmptyString
  end.

Fixpoint strip_last (s : string) : string :=
  match s with
  | EmptyString => EmptyString
  | String c EmptyString => if is_dash c then EmptyString else s
  | String c r => String c (strip_last r)
  end.

(** The shape of a result: digits, lower-case letters and dashes, no dash
    first or last, no two dashes in a row. *)
Definition is_lower_alnum (c : ascii) : bool :=
  ((48 <=? nat_of_ascii c) && (nat_of_ascii c <=? 57)
   || (97 <=? nat_of_ascii c) && (nat_of_ascii c <=? 122))%nat.

Fixpoint ends_with_dash (s : string) : bool :=
  match s with
  | EmptyString => false
  | String c EmptyString => is_dash c
  | String _ r => ends_with_dash r
  end.

Fixpoint dashes_apart (s : string) : bool :=
  match s with
  | String a (String b _ as r) => negb (is_dash a && is_dash b) && dashes_apart r
  | _ => true
  end.

(** The letters and digits of a string, in lower case and in order. *)
Fixpoint letters_and_digits (s : string) : string :=
  match s with
  | EmptyString => EmptyString
  | String c r =>
      if atom_plain other_than_alnum c then letters_and_digits r
      else String (JS.toLowerChar c) (letters_and_digits r)
  end.

Definition tidy (s : string) : bool :=
  Segments.all_chars (fun c => is_lower_alnum c || is_dash c) s
  && negb (JS.startsWith "-" s) && negb (ends_with_dash s) && dashes_apart s.

End Filenames.

(** ** A discovery session *)

Module Sessions.
Import BackgroundScript.

Definition request (url : string) (hs : list (string * string)) : Request :=
  {| details := Scenarios.completed url "GET" 200;
     r_type := "xmlhttprequest";
     initiator := None;
     requestHeaders := Some hs |}.

(** A request is seen complete, then the same URL is requested again
    with a bearer token. *)
Definition authorized_again : list event :=
  [ StartDiscovery;
    Completed (request "https://api.x.com/users" []);
    BeforeSendHeaders
      (request "https://api.x.com/users"
               [("Authorization", "Bearer abc"); ("Accept", "*/*")]) ].

End Sessions.

(** * Properties *)

(** ** Strings and patterns *)

Module StringFacts.

Lemma sapp_assoc (a b c : string) : (a +:+ b) +:+ c = a +:+ (b +:+ c).
Proof. induction a as [|x a IH]; simpl; [done | by rewrite IH]. Qed.

Lemma sapp_nil_r (a : string) : a +:+ "" = a.
Proof. induction a as [|x a IH]; simpl; [done | by rewrite IH]. Qed.

Lemma slength_app (a b : string) :
  String.length (a +:+ b) = String.length a + String.length b.
Proof. induction a as [|x a IH]; simpl; [done | by rewrite IH]. Qed.

End StringFacts.

Module RegexFacts.
Import Regex Segments StringFacts.

Lemma suffix_of_refl s : suffix_of s s.
Proof. by exists EmptyString. Qed.

Lemma suffix_of_tail c x s : suffix_of x s -> suffix_of x (String c s).
Proof. intros [pre ->]. by exists (String c pre). Qed.

Lemma suffix_of_trans x y z : suffix_of x y -> suffix_of y z -> suffix_of x z.
Proof.
  intros [p ->] [q ->]. exists (q +:+ p). by rewrite sapp_assoc.
Qed.

(** The continuation only ever sees suffixes of the input. *)
Lemma rep_ext {A} ci a lo hi pos s (k k' : nat -> string -> option A) :
  (forall p x, suffix_of x s -> k p x = k' p x) ->
  rep ci a lo hi pos s k = rep ci a lo hi pos s k'.
Proof.
  revert lo hi pos. induction s as [|c s IH]; intros lo hi pos H; simpl.
  - destruct lo; [apply H, suffix_of_refl | done].
  - rewrite (IH (Nat.pred lo) (hi_pred hi) (S pos)).
    + rewrite (H pos (String c s) (suffix_of_refl _)). done.
    + intros p x Hx. apply H. by apply suffix_of_tail.
Qed.

Lemma run_ext {A} ci r : forall pos s (k k' : nat -> string -> option A),
  (forall p x, suffix_of x s -> k p x = k' p x) ->
  run ci r pos s k = run ci r pos s k'.
Proof.
  induction r as [a|lo hi a|r1 IH1 r2 IH2|r1 IH1 r2 IH2|r IH| | |];
    intros pos s k k' H; simpl.
  - destruct s as [|c s]; [done|]. rewrite H; [done|]. apply suffix_of_tail, suffix_of_refl.
  - by apply rep_ext.
  - apply IH1. intros p x Hx. apply IH2. intros q y Hy. apply H.
    eapply suffix_of_trans; eauto.
  - rewrite (IH1 pos s k k' H), (IH2 pos s k k' H). done.
  - rewrite (H pos s (suffix_of_refl _)). done.
  - apply H, suffix_of_refl.
  - destruct pos; [apply H, suffix_of_refl | done].
  - destruct s; [apply H, suffix_of_refl | done].
Qed.


Lemma run_seq_snoc {A} ci items last pos s (k : nat -> string -> option A) :
  run ci (seq (items ++ [last])) pos s k
  = runs ci items (fun p x => run ci last p x k) pos s.
Proof.
  revert pos s. induction items as [|r t IH]; intros pos s; [done|].
  assert (Hseq : seq ((r :: t) ++ [last]) = Seq r (seq (t ++ [last])))
    by (destruct t; reflexivity).
  rewrite Hseq. simpl. apply run_ext. intros p x _. apply IH.
Qed.


Lemma runs_ext {A} ci items : forall pos s (k k' : nat -> string -> option A),
  (forall p x, suffix_of x s -> k p x = k' p x) ->
  runs ci items k pos s = runs ci items k' pos s.
Proof.
  induction items as [|r t IH]; intros pos s k k' H; simpl.
  - apply H, suffix_of_refl.
  - apply run_ext. intros p x Hx. apply IH. intros q y Hy. apply H.
    eapply suffix_of_trans; eauto.
Qed.

(** *** Patterns that stay inside one path segment *)

Lemma rep_lift {A} ci a lo hi pos seg rest (k : nat -> string -> option A) :
  atom_matches ci a "/" = false -> at_boundary rest = true ->
  rep ci a lo hi pos (seg +:+ rest) k
  = rep ci a lo hi pos seg (fun p x => k p (x +:+ rest)).
Proof.
  intros Ha Hrest. revert lo hi pos.
  induction seg as [|c seg IH]; intros lo hi pos; simpl.
  - destruct rest as [|c rest]; simpl; [done|].
    simpl in Hrest. apply Ascii.eqb_eq in Hrest as ->.
    rewrite Ha, andb_false_r. done.
  - rewrite IH. done.
Qed.

Lemma run_lift {A} ci r pos seg rest (k : nat -> string -> option A) :
  slash_free ci r = true -> at_boundary rest = true ->
  run ci r pos (seg +:+ rest) k = run ci r pos seg (fun p x => k p (x +:+ rest)).
Proof.
  intros Hr Hrest. destruct r as [a|lo hi a| | | | | |]; simpl in Hr; try done.
  - apply negb_true_iff in Hr. simpl.
    destruct seg as [|c seg]; simpl; [|done].
    destruct rest as [|c rest]; [done|].
    simpl in Hrest. apply Ascii.eqb_eq in Hrest as ->. by rewrite Hr.
  - apply negb_true_iff in Hr. simpl. by apply rep_lift.
Qed.

Lemma runs_lift {A} ci items : forall pos seg rest (k : nat -> string -> option A),
  forallb (slash_free ci) items = true -> at_boundary rest = true ->
  runs ci items k pos (seg +:+ rest)
  = runs ci items (fun p x => k p (x +:+ rest)) pos seg.
Proof.
  induction items as [|r t IH]; intros pos seg rest k Hit Hrest; simpl; [done|].
  simpl in Hit. apply andb_true_iff in Hit as [Hr Ht].
  rewrite run_lift by done. apply run_ext. intros p x _. by apply IH.
Qed.

(** What a match hands on does not influence whether there is one. *)
Lemma rep_map {A B} (h : B -> A) ci a lo hi s :
  forall pos pos' (k : nat -> string -> option A) (k' : nat -> string -> option B),
  (forall p p' x, k p x = option_map h (k' p' x)) ->
  rep ci a lo hi pos s k = option_map h (rep ci a lo hi pos' s k').
Proof.
  revert lo hi. induction s as [|c s IH]; intros lo hi pos pos' k k' H; simpl.
  - destruct lo; [apply H | done].
  - destruct (hi_allows hi && atom_matches ci a c).
    + rewrite (IH _ _ (S pos) (S pos') k k' H).
      destruct (rep ci a _ _ (S pos') s k'); simpl; [done|].
      destruct lo; [apply H | done].
    + destruct lo; [apply H | done].
Qed.

Lemma runs_map {A B} (h : B -> A) ci items :
  forall s pos pos' (k : nat -> string -> option A) (k' : nat -> string -> option B),
  forallb (slash_free ci) items = true ->
  (forall p p' x, k p x = option_map h (k' p' x)) ->
  runs ci items k pos s = option_map h (runs ci items k' pos' s).
Proof.
  induction items as [|r t IH]; intros s pos pos' k k' Hit H; simpl; [apply H|].
  simpl in Hit. apply andb_true_iff in Hit as [Hr Ht].
  destruct r as [a|lo hi a| | | | | |]; simpl in Hr; try done; simpl.
  - destruct s as [|c s]; [done|]. destruct (atom_matches ci a c); [|done].
    by apply IH.
  - apply rep_map. intros p p' x. by apply IH.
Qed.


Lemma slash_matches ci c : atom_matches ci (Lit "/") c = Ascii.eqb c "/".
Proof.
  destruct ci, c as [[] [] [] [] [] [] [] []]; reflexivity.
Qed.

Lemma no_slash_suffix x seg : suffix_of x seg -> no_slash seg = true -> no_slash x = true.
Proof.
  intros [pre ->]. induction pre as [|c pre IH]; simpl; [done|].
  intros [_ H]%andb_true_iff. by apply IH.
Qed.

(** The lookahead at the end of the three patterns succeeds exactly at the
    end of the segment. *)
Lemma segment_end_spec {A} ci p x rest (k : nat -> string -> option A) :
  no_slash x = true -> at_boundary rest = true ->
  run ci Templating.segment_end p (x +:+ rest) k
  = match x with EmptyString => k p rest | String _ _ => None end.
Proof.
  intros Hx Hrest. unfold Templating.segment_end, chr. simpl.
  destruct x as [|c x]; simpl.
  - destruct rest as [|c rest]; [done|]. simpl in Hrest.
    rewrite slash_matches, Hrest. done.
  - simpl in Hx. apply andb_true_iff in Hx as [Hc _].
    rewrite slash_matches. apply negb_true_iff in Hc. by rewrite Hc.
Qed.

Lemma seq_cons r l : l <> [] -> seq (r :: l) = Seq r (seq l).
Proof. destruct l; [done | reflexivity]. Qed.

Lemma snoc_not_nil {X} (l : list X) x : l ++ [x] <> [].
Proof. destruct l; done. Qed.

(** An anchored pattern matches at the start of the input or not at all. *)
Lemma exec_whole_later body ci s pos :
  exec_here (Templating.whole body ci) (S pos) s = None.
Proof.
  unfold exec_here, Templating.whole. cbn [source flag_i].
  rewrite seq_cons by apply snoc_not_nil. done.
Qed.

Lemma search_whole_later body ci s pos :
  search (Templating.whole body ci) (S pos) s = false.
Proof.
  revert pos. induction s as [|c s IH]; intros pos; cbn [search];
    rewrite exec_whole_later; [done | apply IH].
Qed.

Lemma test_whole body ci seg :
  forallb (slash_free ci) body = true ->
  test (Templating.whole body ci) seg = bool_decide (is_Some (covers body ci seg)).
Proof.
  intros Hbody. unfold test.
  assert (He : exec_here (Templating.whole body ci) 0 seg
               = option_map (fun _ => String.length seg) (covers body ci seg)).
  { unfold exec_here, Templating.whole. cbn [source flag_i].
    rewrite seq_cons by apply snoc_not_nil. cbn [run]. rewrite run_seq_snoc.
    unfold covers. apply runs_map; [done|]. intros p p' x.
    destruct x; simpl; [f_equal; lia | done]. }
  destruct seg as [|c seg]; cbn [search]; rewrite He;
    destruct (covers body ci _) as [[]|]; cbn [option_map].
  - rewrite bool_decide_eq_true_2; [done | by eexists].
  - rewrite bool_decide_eq_false_2; [done | by intros [? ?]].
  - rewrite bool_decide_eq_true_2; [done | by eexists].
  - rewrite search_whole_later, bool_decide_eq_false_2; [done | by intros [? ?]].
Qed.

Lemma exec_in_path body ci pos seg rest :
  forallb (slash_free ci) body = true ->
  no_slash seg = true -> at_boundary rest = true ->
  exec_here (Templating.in_path body ci) pos ("/" +:+ seg +:+ rest)
  = if test (Templating.whole body ci) seg then Some (S (String.length seg)) else None.
Proof.
  intros Hbody Hseg Hrest. rewrite test_whole by done.
  unfold exec_here, Templating.in_path. cbn [source flag_i].
  rewrite seq_cons by apply snoc_not_nil.
  change ("/" +:+ seg +:+ rest) with (String "/" (seg +:+ rest)).
  cbn [run chr]. rewrite slash_matches. cbn [Ascii.eqb Bool.eqb].
  rewrite run_seq_snoc, runs_lift by done.
  rewrite (runs_ext ci body _ _ _
             (fun _ x => match x with
                         | EmptyString => Some (S (String.length seg))
                         | _ => None end)).
  - rewrite (runs_map (fun _ : unit => S (String.length seg)) ci body seg (S pos) 0 _
               (fun _ x => match x with EmptyString => Some tt | _ => None end));
      [| done | intros ? ? []; done].
    fold (covers body ci seg). destruct (covers body ci seg) as [[]|]; cbn [option_map].
    + rewrite bool_decide_eq_true_2; [done | by eexists].
    + rewrite bool_decide_eq_false_2; [done | by intros [? ?]].
  - intros p x Hx. rewrite segment_end_spec; [| by eapply no_slash_suffix | done].
    destruct x; [|done]. f_equal. cbn [String.length]. rewrite slength_app. lia.
Qed.


(** *** Global replacement over the segments of a path *)

Lemma replace_skip p by_ x : forall n pos rest,
  String.length x = n ->
  replace_from p by_ n pos (x +:+ rest) = replace_from p by_ 0 (pos + n) rest.
Proof.
  induction x as [|c x IH]; intros n pos rest <-; simpl.
  - by rewrite Nat.add_0_r.
  - rewrite (IH (String.length x) (S pos) rest eq_refl). f_equal. lia.
Qed.

Lemma exec_in_path_other body ci pos c r :
  Ascii.eqb c "/" = false ->
  exec_here (Templating.in_path body ci) pos (String c r) = None.
Proof.
  intros Hc. unfold exec_here, Templating.in_path. cbn [source flag_i].
  rewrite seq_cons by apply snoc_not_nil. cbn [run chr].
  by rewrite slash_matches, Hc.
Qed.

Lemma exec_in_path_empty body ci pos :
  exec_here (Templating.in_path body ci) pos "" = None.
Proof.
  unfold exec_here, Templating.in_path. cbn [source flag_i].
  rewrite seq_cons by apply snoc_not_nil. done.
Qed.

Lemma replace_through body ci by_ seg : forall pos rest,
  no_slash seg = true ->
  replace_from (Templating.in_path body ci) by_ 0 pos (seg +:+ rest)
  = seg +:+ replace_from (Templating.in_path body ci) by_ 0 (pos + String.length seg) rest.
Proof.
  induction seg as [|c seg IH]; intros pos rest Hseg.
  - simpl. by rewrite Nat.add_0_r.
  - simpl in Hseg. apply andb_true_iff in Hseg as [Hc Hseg].
    apply negb_true_iff in Hc.
    change (String c seg +:+ rest) with (String c (seg +:+ rest)).
    cbn [replace_from]. rewrite exec_in_path_other by done.
    rewrite IH by done. simpl. do 3 f_equal. lia.
Qed.

Lemma slashed_boundary segs : at_boundary (slashed segs) = true.
Proof. by destruct segs. Qed.

Lemma replace_pass body ci ph segs : forall pos,
  forallb (slash_free ci) body = true ->
  forallb no_slash segs = true ->
  replace_from (Templating.in_path body ci) ("/" +:+ ph) 0 pos (slashed segs)
  = slashed (map (fun seg => if test (Templating.whole body ci) seg then ph else seg) segs).
Proof.
  induction segs as [|seg t IH]; intros pos Hbody Hsegs.
  { cbn [slashed map replace_from]. by rewrite exec_in_path_empty. }
  simpl in Hsegs. apply andb_true_iff in Hsegs as [Hseg Ht].
  cbn [slashed map].
  pose proof (exec_in_path body ci pos seg (slashed t) Hbody Hseg (slashed_boundary t)) as He.
  change ("/" +:+ seg +:+ slashed t) with (String "/" (seg +:+ slashed t)) in *.
  cbn [replace_from]. rewrite He.
  destruct (test (Templating.whole body ci) seg).
  - rewrite (replace_skip _ _ seg (String.length seg) (S pos) (slashed t) eq_refl).
    rewrite IH by done. by rewrite sapp_assoc.
  - rewrite replace_through by done. rewrite IH by done. done.
Qed.


(** *** Paths as lists of segments *)

Lemma split_not_nil c s : JS.split c s <> [].
Proof.
  induction s as [|x s IH]; simpl; [done|].
  destruct (Ascii.eqb x c); [done|]. by destruct (JS.split c s).
Qed.

Lemma split_no_slash s : forallb no_slash (JS.split "/" s) = true.
Proof.
  induction s as [|x s IH]; simpl; [done|].
  destruct (Ascii.eqb x "/") eqn:Hx; simpl; [done|].
  destruct (JS.split "/" s) as [|h t]; simpl in *; by rewrite Hx.
Qed.

Lemma slashed_split s : slashed (JS.split "/" s) = "/" +:+ s.
Proof.
  induction s as [|x s IH]; simpl; [done|].
  destruct (Ascii.eqb x "/") eqn:Hx.
  - apply Ascii.eqb_eq in Hx as ->. simpl. by rewrite IH.
  - pose proof (split_not_nil "/" s). destruct (JS.split "/" s) as [|h t]; [done|].
    simpl in *. by injection IH as ->.
Qed.

Lemma slashed_join l : l <> [] -> slashed l = "/" +:+ JS.join "/" l.
Proof.
  induction l as [|x t IH]; [done|]. intros _.
  destruct t as [|y t].
  - simpl. by rewrite sapp_nil_r.
  - cbn [slashed JS.join] in *. rewrite IH by done. done.
Qed.


(** *** The shapes, character by character *)

Lemma rep_exact {A} ci a n : forall pos s (k : nat -> string -> option A),
  rep ci a n (Some n) pos s k
  = match take_chars (atom_matches ci a) n s with
    | Some r => k (pos + n) r
    | None => None
    end.
Proof.
  induction n as [|n IH]; intros pos s k.
  - cbn [take_chars]. rewrite Nat.add_0_r. by destruct s.
  - destruct s as [|c s]; [done|]. cbn [rep take_chars hi_allows hi_pred Nat.pred andb].
    destruct (atom_matches ci a c); [|done]. rewrite IH.
    replace (S pos + n) with (pos + S n) by lia.
    destruct (take_chars _ n s); [by destruct (k _ _) | done].
Qed.

Lemma rep_all {A} ci a (v : A) s : forall lo pos,
  rep ci a lo None pos s
      (fun _ x => match x with EmptyString => Some v | _ => None end)
  = if (lo <=? String.length s)%nat && all_chars (atom_matches ci a) s
    then Some v else None.
Proof.
  induction s as [|c s IH]; intros lo pos.
  - by destruct lo.
  - cbn [rep hi_allows hi_pred andb all_chars String.length].
    destruct (atom_matches ci a c).
    + rewrite IH. replace (Nat.pred lo <=? String.length s)%nat
        with (lo <=? S (String.length s))%nat by (by destruct lo).
      cbn [andb]. destruct (_ && _); [done | by destruct lo].
    + rewrite andb_false_r. by destruct lo.
Qed.

Lemma digit_matches c : atom_matches false digit c = is_digit c.
Proof. destruct c as [[] [] [] [] [] [] [] []]; reflexivity. Qed.

Lemma hex_matches c : atom_matches true hex c = is_hex c.
Proof. destruct c as [[] [] [] [] [] [] [] []]; reflexivity. Qed.

Lemma lower_hex_matches c : atom_matches false hex c = is_lower_hex c.
Proof. destruct c as [[] [] [] [] [] [] [] []]; reflexivity. Qed.

Lemma dash_matches ci c : atom_matches ci (Lit "-") c = Ascii.eqb c "-".
Proof. destruct ci, c as [[] [] [] [] [] [] [] []]; reflexivity. Qed.

Lemma all_chars_ext p q s : (forall c, p c = q c) -> all_chars p s = all_chars q s.
Proof. intros H. induction s as [|c s IH]; simpl; [done | by rewrite H, IH]. Qed.

Lemma take_chars_ext p q n : forall s,
  (forall c, p c = q c) -> take_chars p n s = take_chars q n s.
Proof.
  induction n as [|n IH]; intros s H; [done|]. destruct s as [|c s]; [done|].
  simpl. rewrite H. destruct (q c); [by apply IH | done].
Qed.

Lemma whole_digits seg :
  test (Templating.whole Templating.digits_body false) seg = digits_shape seg.
Proof.
  rewrite test_whole by reflexivity. unfold covers, Templating.digits_body, digits_shape.
  cbn [runs run]. rewrite rep_all, (all_chars_ext _ _ seg digit_matches).
  destruct seg as [|c seg]; [done|]. cbn [String.length JS.truthy Nat.leb andb].
  destruct (all_chars is_digit (String c seg)).
  - rewrite bool_decide_eq_true_2; [done | by eexists].
  - rewrite bool_decide_eq_false_2; [done | by intros [? ?]].
Qed.

(** One group of a shape followed by a dash, and one group at the end. *)
Lemma runs_group_dash ci n body pos s :
  runs ci (Rep n (Some n) hex :: chr "-" :: body)
       (fun _ x => match x with EmptyString => Some tt | _ => None end) pos s
  = match take_chars (atom_matches ci hex) n s with
    | Some (String c r) =>
        if Ascii.eqb c "-"
        then runs ci body (fun _ x => match x with EmptyString => Some tt | _ => None end)
                  (S (pos + n)) r
        else None
    | _ => None
    end.
Proof.
  cbn [runs run chr]. rewrite rep_exact.
  destruct (take_chars _ n s) as [[|c r]|]; [done| |done].
  by rewrite dash_matches.
Qed.

Lemma runs_last_group ci n pos s :
  runs ci [Rep n (Some n) hex]
       (fun _ x => match x with EmptyString => Some tt | _ => None end) pos s
  = match take_chars (atom_matches ci hex) n s with
    | Some EmptyString => Some tt
    | _ => None
    end.
Proof. cbn [runs run]. rewrite rep_exact. by destruct (take_chars _ n s) as [[|c r]|]. Qed.

Lemma whole_uuid seg :
  test (Templating.whole Templating.uuid_body true) seg = uuid_shape seg.
Proof.
  rewrite test_whole by reflexivity.
  unfold covers, Templating.uuid_body, uuid_shape. cbn [groups_shape].
  rewrite runs_group_dash, (take_chars_ext _ _ 8 seg hex_matches).
  destruct (take_chars is_hex 8 seg) as [[|c1 s1]|]; try by rewrite bool_decide_eq_false_2 by (by intros [? ?]).
  destruct (Ascii.eqb c1 "-"); [|by rewrite bool_decide_eq_false_2 by (by intros [? ?])].
  rewrite runs_group_dash, (take_chars_ext _ _ 4 s1 hex_matches).
  destruct (take_chars is_hex 4 s1) as [[|c2 s2]|]; try by rewrite bool_decide_eq_false_2 by (by intros [? ?]).
  destruct (Ascii.eqb c2 "-"); [|by rewrite bool_decide_eq_false_2 by (by intros [? ?])].
  rewrite runs_group_dash, (take_chars_ext _ _ 4 s2 hex_matches).
  destruct (take_chars is_hex 4 s2) as [[|c3 s3]|]; try by rewrite bool_decide_eq_false_2 by (by intros [? ?]).
  destruct (Ascii.eqb c3 "-"); [|by rewrite bool_decide_eq_false_2 by (by intros [? ?])].
  rewrite runs_group_dash, (take_chars_ext _ _ 4 s3 hex_matches).
  destruct (take_chars is_hex 4 s3) as [[|c4 s4]|]; try by rewrite bool_decide_eq_false_2 by (by intros [? ?]).
  destruct (Ascii.eqb c4 "-"); [|by rewrite bool_decide_eq_false_2 by (by intros [? ?])].
  rewrite runs_last_group, (take_chars_ext _ _ 12 s4 hex_matches). cbn [andb].
  destruct (take_chars is_hex 12 s4) as [[|c5 s5]|];
    [by rewrite bool_decide_eq_true_2 by (by eexists)
    | by rewrite bool_decide_eq_false_2 by (by intros [? ?]) ..].
Qed.

Lemma whole_hex24 ci seg :
  test (Templating.whole Templating.hex24_body ci) seg = hex24_shape ci seg.
Proof.
  rewrite test_whole by (by destruct ci).
  unfold covers, Templating.hex24_body, hex24_shape. cbn [groups_shape].
  rewrite runs_last_group.
  rewrite (take_chars_ext _ (if ci then is_hex else is_lower_hex) 24 seg)
    by (destruct ci; [apply hex_matches | apply lower_hex_matches]).
  destruct (take_chars _ 24 seg) as [[|c r]|];
    [by rewrite bool_decide_eq_true_2 by (by eexists)
    | by rewrite bool_decide_eq_false_2 by (by intros [? ?]) ..].
Qed.

Lemma segment_template_rule ci seg : segment_template ci seg = segment_rule ci seg.
Proof.
  unfold segment_template, segment_rule.
  by rewrite whole_digits, whole_uuid, whole_hex24.
Qed.

Lemma no_slash_placeholders (t : string -> bool) ph segs :
  no_slash ph = true -> forallb no_slash segs = true ->
  forallb no_slash (map (fun seg => if t seg then ph else seg) segs) = true.
Proof.
  intros Hph. induction segs as [|seg r IH]; simpl; [done|].
  intros [Hseg Hr]%andb_true_iff. rewrite IH by done.
  destruct (t seg); by rewrite ?Hph, ?Hseg.
Qed.

Lemma three_passes seg :
  (fun seg => if test (Templating.whole Templating.hex24_body true) seg
              then "{objectId}" else seg)
    ((fun seg => if test (Templating.whole Templating.uuid_body true) seg
                 then "{uuid}" else seg)
       ((fun seg => if test (Templating.whole Templating.digits_body false) seg
                    then "{id}" else seg) seg))
  = segment_template true seg.
Proof.
  unfold segment_template. cbv beta.
  destruct (test (Templating.whole Templating.digits_body false) seg); [reflexivity|].
  destruct (test (Templating.whole Templating.uuid_body true) seg); [reflexivity|].
  done.
Qed.

End RegexFacts.

Import Regex Segments RegexFacts.

(** C2, as amended.  On every path that begins with a slash, as the paths
    of URLs do, [OpenAPIGenerator.normalizePath] computes the template given
    segment by segment: a segment matching [^\d+$] becomes [{id}], one of
    the 8-4-4-4-12 hexadecimal shape becomes [{uuid}], one of 24 hexadecimal
    characters in either letter case becomes [{objectId}], any other segment
    stays as it is, the shapes being tried in that order. *)
Theorem normalizePath_by_segments (path : string) :
  JS.startsWith "/" path = true ->
  OpenAPIGenerator.normalizePath path = Segments.template_by_rule true path.
Proof.
  destruct path as [|c rest]; [done|]. cbn [JS.startsWith].
  destruct (Ascii.eqb "/" c) eqn:Hc; [|done]. intros _.
  apply Ascii.eqb_eq in Hc as <-.
  unfold template_by_rule.
  rewrite (map_ext _ _ (fun seg => eq_sym (segment_template_rule true seg))).
  unfold OpenAPIGenerator.normalizePath, replace.
  change (String "/" rest) with ("/" +:+ rest) at 1. rewrite <- slashed_split.
  change "/{id}" with ("/" +:+ "{id}").
  change "/{uuid}" with ("/" +:+ "{uuid}").
  change "/{objectId}" with ("/" +:+ "{objectId}").
  pose proof (split_no_slash rest) as Hsegs.
  rewrite !replace_pass; try reflexivity; try done;
    repeat (apply no_slash_placeholders; [reflexivity|]); try done.
  rewrite !map_map. rewrite (map_ext _ _ three_passes).
  cbn [JS.split]. change (Ascii.eqb "/" "/") with true. cbn [map].
  change (segment_template true "") with "".
  pose proof (split_not_nil "/" rest) as Hne.
  rewrite slashed_join by (by destruct (JS.split "/" rest)).
  destruct (map (segment_template true) (JS.split "/" rest)) eqn:E; [|done].
  by destruct (JS.split "/" rest).
Qed.

Lemma normalizePath_by_segments_witness :
  JS.startsWith "/" "/users/42" = true /\
  OpenAPIGenerator.normalizePath "/users/42" = Segments.template_by_rule true "/users/42".
Proof. split; [reflexivity | apply normalizePath_by_segments; reflexivity]. Defined.

(** C2 as the specification states it fails: the analyzer has one
    placeholder for every identifier shape, so the two functions disagree on
    an ObjectId, and the synthesizer also templates 24 hexadecimal characters
    in upper case. *)
Lemma templating_functions_differ :
  (APIAnalyzer.normalizePath "/docs/507f1f77bcf86cd799439011" = "/docs/{id}" /\
   OpenAPIGenerator.normalizePath "/docs/507f1f77bcf86cd799439011" = "/docs/{objectId}") /\
  (OpenAPIGenerator.normalizePath "/docs/507F1F77BCF86CD799439011" = "/docs/{objectId}" /\
   Segments.template_by_rule false "/docs/507F1F77BCF86CD799439011"
   = "/docs/507F1F77BCF86CD799439011").
Proof. repeat split; vm_compute; reflexivity. Qed.

(** The analyzer's patterns also consume the slash that ends a segment, so
    the segment after an identifier is glued to the placeholder. *)
Lemma analyzer_swallows_slash :
  APIAnalyzer.normalizePath "/users/42/posts" = "/users/{id}posts" /\
  OpenAPIGenerator.normalizePath "/users/42/posts" = "/users/{id}/posts".
Proof. split; vm_compute; reflexivity. Qed.

(** ** Sets in insertion order *)

Module SetFacts.
Import APIAnalyzer.

Lemma set_add_elem x y l : y ∈ set_add x l <-> y = x \/ y ∈ l.
Proof.
  unfold set_add. case_bool_decide as H.
  - split; [by right | intros [->|?]; done].
  - rewrite elem_of_app, list_elem_of_singleton. tauto.
Qed.

Lemma set_add_NoDup x l : NoDup l -> NoDup (set_add x l).
Proof.
  intros Hl. unfold set_add. case_bool_decide as H; [done|].
  apply NoDup_app. split_and!; [done | | apply NoDup_singleton].
  intros y Hy ->%list_elem_of_singleton. done.
Qed.

Lemma set_add_prefix x l : l `prefix_of` set_add x l.
Proof. unfold set_add. case_bool_decide; [done | by apply prefix_app_r]. Qed.

Lemma add_all_elem l : forall acc y, y ∈ add_all l acc <-> y ∈ acc \/ y ∈ l.
Proof.
  induction l as [|x l IH]; intros acc y; simpl.
  - rewrite elem_of_nil. tauto.
  - unfold add_all in *. simpl. rewrite IH, set_add_elem, elem_of_cons. tauto.
Qed.

Lemma add_all_NoDup l : forall acc, NoDup acc -> NoDup (add_all l acc).
Proof.
  induction l as [|x l IH]; intros acc Hacc; [done|].
  apply IH. by apply set_add_NoDup.
Qed.

Lemma add_all_prefix l : forall acc, acc `prefix_of` add_all l acc.
Proof.
  induction l as [|x l IH]; intros acc; [done|].
  etrans; [apply (set_add_prefix x) | apply IH].
Qed.

Lemma distinct_elem l y : y ∈ distinct l <-> y ∈ l.
Proof. unfold distinct. rewrite (add_all_elem l [] y), elem_of_nil. tauto. Qed.

Lemma distinct_NoDup l : NoDup (distinct l).
Proof. apply (add_all_NoDup l []), NoDup_nil_2. Qed.

Lemma distinct_head x l : head (distinct (x :: l)) = Some x.
Proof.
  unfold distinct. change (add_all (x :: l) []) with (add_all l (set_add x [])).
  destruct (add_all_prefix l (set_add x [])) as [k Hk]. rewrite Hk. done.
Qed.

Lemma infer_fold samples : forall ts us,
  fold_left (fun '(types, uniqueValues) sample =>
               (set_add (sampleType sample) types, set_add sample uniqueValues))
            samples (ts, us)
  = (add_all (map sampleType samples) ts, add_all samples us).
Proof.
  induction samples as [|x l IH]; intros ts us; [done|]. simpl. by rewrite IH.
Qed.

Lemma inferParameterTypes_unfold x l :
  inferParameterTypes (x :: l)
  = let types := distinct (map sampleType (x :: l)) in
    let uniqueValues := distinct (x :: l) in
    if (length types =? 1)%nat then
      {| i_type := hd "" types; i_example := head uniqueValues;
         i_anyOf := None; i_examples := None |}
    else
      {| i_type := "string"; i_example := None;
         i_anyOf := Some types; i_examples := Some (take 3 uniqueValues) |}.
Proof. unfold inferParameterTypes. rewrite infer_fold. done. Qed.

(** A duplicate-free list whose members are all [t] has at most one. *)
Lemma NoDup_all_same (t : string) l :
  NoDup l -> (forall y, y ∈ l -> y = t) -> l = [] \/ l = [t].
Proof.
  intros Hnd Hall. destruct l as [|a [|b r]]; [by left | right | exfalso].
  - f_equal. apply Hall. by left.
  - assert (a = t) as -> by (apply Hall; by left).
    assert (b = t) as -> by (apply Hall; right; by left).
    apply NoDup_cons in Hnd as [Hn _]. apply Hn. by left.
Qed.

End SetFacts.

Import SetFacts.

(** ** Sanitization *)

Module SanitizeFacts.
Import Utils Confidentiality.

Lemma sensitive_grow extra key :
  is_sensitive (defaultSensitiveKeys ++ defaultSensitiveKeys ++ extra) key
  = sensitive extra key.
Proof.
  unfold sensitive, is_sensitive. rewrite !existsb_app.
  by destruct (existsb _ defaultSensitiveKeys).
Qed.

(** Passing the accumulated list down changes nothing. *)
Lemma sanitize_grow data : forall extra,
  sanitizeSensitiveData data (defaultSensitiveKeys ++ extra)
  = sanitizeSensitiveData data extra.
Proof.
  induction data as [x|items IH|entries IH] using value_rect'; intros extra;
    [done| |]; cbn [sanitizeSensitiveData]; f_equal.
  - induction IH as [|item r Hitem _ IHr]; [done|]. cbn [map]. f_equal; [apply Hitem | apply IHr].
  - induction IH as [|[k v] r Hv _ IHr]; [done|]. cbn [omap list_omap] in *.
    destruct (JS.is_proto k); [apply IHr|]. f_equal; [|apply IHr].
    f_equal. rewrite sensitive_grow. fold (sensitive extra k).
    destruct (sensitive extra k); [done|]. destruct v; [done| |]; apply Hv.
Qed.

Lemma sanitize_scalar x extra : sanitizeSensitiveData (Scalar x) extra = Scalar x.
Proof. done. Qed.

Lemma sanitize_array items extra :
  sanitizeSensitiveData (Array items) extra
  = Array (map (fun item => sanitizeSensitiveData item extra) items).
Proof.
  cbn [sanitizeSensitiveData]. f_equal. apply map_ext. intros. apply sanitize_grow.
Qed.

Lemma sanitize_object entries extra :
  sanitizeSensitiveData (Object entries) extra
  = Object (omap (fun e => if JS.is_proto (fst e) then None
                           else Some (fst e, if sensitive extra (fst e) then redacted
                                             else sanitizeSensitiveData (snd e) extra))
                 entries).
Proof.
  cbn [sanitizeSensitiveData]. f_equal.
  induction entries as [|[k v] r IH]; [done|]. cbn [omap list_omap fst snd] in *.
  destruct (JS.is_proto k); [exact IH|]. f_equal; [|exact IH].
  f_equal. fold (sensitive extra k). destruct (sensitive extra k); [done|].
  destruct v; [done| |]; apply sanitize_grow.
Qed.

(** The entry of a key in what the loop over the entries leaves. *)
Lemma entry_omap (g : string -> value -> value) k entries :
  entry k (omap (fun e => if JS.is_proto (fst e) then None
                          else Some (fst e, g (fst e) (snd e))) entries)
  = if JS.is_proto k then None else g k <$> entry k entries.
Proof.
  induction entries as [|[k' v] r IH]; [by destruct (JS.is_proto k)|].
  cbn [omap list_omap entry fst snd] in *.
  unfold JS.string_eqb. destruct (JS.is_proto k') eqn:Hk'.
  - rewrite IH. case_bool_decide as E; [|done]. subst k'. by rewrite Hk'.
  - cbn [entry]. unfold JS.string_eqb. case_bool_decide as E; [|exact IH].
    subst k'. by rewrite Hk'.
Qed.

Lemma at_path_app p q v :
  at_path (p ++ q) v = at_path p v ≫= at_path q.
Proof.
  revert v. induction p as [|s r IH]; intros v; [done|]. cbn [app at_path].
  destruct (child s v); [apply IH | done].
Qed.

Lemma plain_key k : plain_step (Key k) = negb (JS.is_proto k).
Proof. done. Qed.

Lemma child_sanitize extra s v :
  clear_step extra s = true -> plain_step s = true ->
  child s (sanitizeSensitiveData v extra)
  = (fun w => sanitizeSensitiveData w extra) <$> child s v.
Proof.
  intros Hs Hp. destruct v as [x|items|entries].
  - by destruct s.
  - rewrite sanitize_array. destruct s as [k|i]; [done|]. cbn [child].
    apply nth_error_map.
  - rewrite sanitize_object. destruct s as [k|i]; [|done]. cbn [child].
    rewrite (entry_omap (fun k v => if sensitive extra k then redacted
                                    else sanitizeSensitiveData v extra)).
    rewrite plain_key in Hp. apply negb_true_iff in Hp. rewrite Hp.
    cbn [clear_step] in Hs. apply negb_true_iff in Hs. by rewrite Hs.
Qed.

Lemma at_path_sanitize extra p : forall v,
  forallb (clear_step extra) p = true -> forallb plain_step p = true ->
  at_path p (sanitizeSensitiveData v extra)
  = (fun w => sanitizeSensitiveData w extra) <$> at_path p v.
Proof.
  induction p as [|s r IH]; intros v Hp Hq; [done|].
  cbn [forallb] in Hp, Hq.
  apply andb_true_iff in Hp as [Hs Hr]. apply andb_true_iff in Hq as [Hs' Hr'].
  cbn [at_path]. rewrite child_sanitize by done.
  destruct (child s v); cbn; [by apply IH | done].
Qed.

(** *** Substrings *)

Lemma startsWith_prefix p : forall s,
  JS.startsWith p s = true <-> exists b, s = p +:+ b.
Proof.
  induction p as [|a p IH]; intros s.
  - split; [by exists s | done].
  - destruct s as [|c s]; cbn [JS.startsWith].
    + split; [done | by intros [b Hb]].
    + destruct (Ascii.eqb a c) eqn:E.
      * apply Ascii.eqb_eq in E as ->. rewrite IH.
        split; intros [b Hb]; exists b; [by rewrite Hb | by injection Hb].
      * apply Ascii.eqb_neq in E. split; [done|]. intros [b Hb]. by injection Hb.
Qed.

Lemma includes_substring s : forall p,
  JS.includes s p = true <-> exists a b, s = a +:+ p +:+ b.
Proof.
  induction s as [|c s IH]; intros p; cbn [JS.includes].
  - rewrite orb_false_r, startsWith_prefix. split.
    + intros [b Hb]. by exists "", b.
    + intros ([|? ?] & b & Hb); [by exists b | done].
  - rewrite orb_true_iff, startsWith_prefix, IH. split.
    + intros [[b Hb]|(a & b & Hb)]; [by exists "", b|].
      exists (String c a), b. by rewrite Hb.
    + intros ([|c' a] & b & Hb); [left; by exists b|].
      right. exists a, b. by injection Hb.
Qed.

(** A string that holds a word holds the end of the word. *)
Lemma includes_end s pre word :
  JS.includes s (pre +:+ word) = true -> JS.includes s word = true.
Proof.
  rewrite !includes_substring. intros (a & b & ->).
  exists (a +:+ pre), b. by rewrite !StringFacts.sapp_assoc.
Qed.

End SanitizeFacts.

Import Utils Confidentiality SanitizeFacts.

(** C10, as amended.  [Utils.sanitizeSensitiveData] takes a key for
    sensitive when its lower-cased name contains one of the fourteen words
    authorization, cookie, set-cookie, x-api-key, x-csrf-token,
    x-auth-token, x-access-token, x-refresh-token, x-session-id, password,
    secret, token, key, credential, or one of the extra words it is given;
    so it does for a name that contains api-key.  Under every sensitive
    key other than [__proto__] it stores "[REDACTED]", at any depth of
    objects and arrays that is reached through keys that are neither
    sensitive nor [__proto__]; it leaves every scalar reached through such
    keys as it was; and two values that differ only in what they store
    under sensitive keys have the same sanitized form. *)
Theorem sanitize_noninterference (extra : list string) :
  (forall key,
     sensitive extra key = true <->
     exists s, In s (["authorization"; "cookie"; "set-cookie"; "x-api-key";
                      "x-csrf-token"; "x-auth-token"; "x-access-token";
                      "x-refresh-token"; "x-session-id"; "password"; "secret";
                      "token"; "key"; "credential"] ++ extra) /\
               JS.includes (JS.toLowerCase key) s = true) /\
  (forall key word,
     In word ["authorization"; "cookie"; "api-key"; "token"; "password"; "secret";
              "key"; "credential"] ->
     JS.includes (JS.toLowerCase key) word = true ->
     sensitive extra key = true) /\
  (forall data p k v,
     forallb (clear_step extra) p = true ->
     forallb plain_step p = true ->
     sensitive extra k = true ->
     k <> "__proto__" ->
     at_path (p ++ [Key k]) data = Some v ->
     at_path (p ++ [Key k]) (sanitizeSensitiveData data extra)
     = Some (Scalar (Text "[REDACTED]"))) /\
  (forall data p x,
     forallb (clear_step extra) p = true ->
     forallb plain_step p = true ->
     at_path p data = Some (Scalar x) ->
     at_path p (sanitizeSensitiveData data extra) = Some (Scalar x)) /\
  (forall a b,
     low_equiv extra a b ->
     sanitizeSensitiveData a extra = sanitizeSensitiveData b extra).
Proof.
  assert (Hchar : forall key,
            sensitive extra key = true <->
            exists s, In s (["authorization"; "cookie"; "set-cookie"; "x-api-key";
                             "x-csrf-token"; "x-auth-token"; "x-access-token";
                             "x-refresh-token"; "x-session-id"; "password"; "secret";
                             "token"; "key"; "credential"] ++ extra) /\
                      JS.includes (JS.toLowerCase key) s = true).
  { intros key. unfold sensitive, is_sensitive. apply existsb_exists. }
  split_and!.
  - exact Hchar.
  - intros key word Hword Hkey. apply Hchar.
    assert (exists s, In s ["authorization"; "cookie"; "token"; "password"; "secret";
                            "key"; "credential"] /\
                      JS.includes (JS.toLowerCase key) s = true) as (s & Hs & Hin).
    { cbn [In] in Hword.
      destruct Hword as [<-|[<-|[<-|[<-|[<-|[<-|[<-|[<-|[]]]]]]]]];
        try (eexists; split; [|exact Hkey]; cbn [In]; tauto).
      exists "key". split; [cbn [In]; tauto|].
      by apply (includes_end _ "api-"). }
    exists s. split; [|done]. apply in_or_app. left.
    cbn [In] in *. tauto.
  - intros data p k v Hp Hq Hk Hproto. rewrite !at_path_app, at_path_sanitize by done.
    destruct (at_path p data) as [w|]; [|done]. cbn.
    destruct w as [x|items|entries]; [done|done|].
    rewrite sanitize_object.
    rewrite (entry_omap (fun k v => if sensitive extra k then redacted
                                    else sanitizeSensitiveData v extra)).
    unfold JS.is_proto, JS.string_eqb. rewrite bool_decide_eq_false_2 by done.
    rewrite Hk. destruct (entry k entries); [done|done].
  - intros data p x Hp Hq Hx. rewrite at_path_sanitize by done. by rewrite Hx.
  - intros a. induction a as [x|items IH|entries IH] using value_rect';
      intros b Hab; inversion Hab as [y|l1 l2 Hl|e1 e2 He]; subst.
    + done.
    + rewrite !sanitize_array. f_equal.
      clear Hab. revert IH. induction Hl as [|u w l1 l2 Huw _ IHl]; intros IH; [done|].
      apply Forall_cons in IH as [Hu Hr]. cbn [map]. f_equal; [by apply Hu | by apply IHl].
    + rewrite !sanitize_object. f_equal.
      clear Hab. revert IH. induction He as [|[k u] [k' w] e1 e2 [Hk Huw] _ IHe]; intros IH; [done|].
      apply Forall_cons in IH as [Hu Hr]. cbn [fst snd] in *. subst k'.
      cbn [omap list_omap fst snd]. destruct (JS.is_proto k); [by apply IHe|].
      f_equal; [|by apply IHe]. f_equal.
      destruct (sensitive extra k) eqn:E; [done|].
      destruct Huw as [?|Huw]; [done | by apply Hu].
Qed.

Lemma sanitize_noninterference_witness :
  sanitizeSensitiveData
    (Object [("Authorization", Scalar (Text "Bearer abc")); ("page", Scalar (Number 1))]) []
  = sanitizeSensitiveData
      (Object [("Authorization", Scalar (Text "Bearer xyz")); ("page", Scalar (Number 1))]) [].
Proof.
  apply (proj2 (proj2 (proj2 (proj2 (sanitize_noninterference []))))).
  apply low_object. constructor.
  - split; [reflexivity | left; vm_compute; reflexivity].
  - constructor; [|constructor].
    split; [reflexivity | right; apply low_scalar].
Defined.

(** C10 as it is stated fails at the key [__proto__]: the key holds none
    of the sensitive words, and the scalar an object has under it as an
    own property is not in the result, which has no entry for that key. *)
Lemma proto_entry_not_carried :
  sensitive [] "__proto__" = false /\
  at_path [Key "__proto__"]
          (Object [("__proto__", Scalar (Number 5)); ("page", Scalar (Number 1))])
  = Some (Scalar (Number 5)) /\
  at_path [Key "__proto__"]
          (sanitizeSensitiveData
             (Object [("__proto__", Scalar (Number 5)); ("page", Scalar (Number 1))]) [])
  = None /\
  sanitizeSensitiveData
    (Object [("__proto__", Scalar (Number 5)); ("page", Scalar (Number 1))]) []
  = Object [("page", Scalar (Number 1))].
Proof. split_and!; vm_compute; reflexivity. Qed.

(** ** Synthesis *)

Module GeneratorFacts.
Import OpenAPIGenerator Synthesis.

(** *** The suffix loop *)

Lemma pretty_N_go_length x : forall s,
  String.length s <= String.length (pretty_N_go x s).
Proof.
  induction (N.lt_wf_0 x) as [x _ IH]; intros s.
  assert (x = 0 \/ 0 < x)%N as [->|?] by lia; [by rewrite pretty_N_go_0|].
  rewrite pretty_N_go_step by done.
  etrans; [|by eapply IH, N.div_lt]. simpl. lia.
Qed.

Lemma ofNat_not_empty n : JS.ofNat n <> "".
Proof.
  unfold JS.ofNat, pretty, pretty_nat, pretty, pretty_N.
  case_decide as Hn; [done|]. intros H.
  assert (0 < N.of_nat n)%N as Hpos by lia.
  pose proof (pretty_N_go_step (N.of_nat n) "" Hpos) as Hs.
  pose proof (pretty_N_go_length (N.of_nat n `div` 10)
                (String (pretty_N_char (N.of_nat n `mod` 10)) "")) as Hl.
  rewrite <- Hs, H in Hl. simpl in Hl. lia.
Qed.

Lemma sapp_inj_l (a b c : string) : a +:+ b = a +:+ c -> b = c.
Proof. induction a as [|x a IH]; simpl; [done|]. intros [= H]. by apply IH. Qed.

Lemma sapp_self_l (a b : string) : a = a +:+ b -> b = "".
Proof.
  intros H. apply (sapp_inj_l a). rewrite <- H.
  clear. induction a as [|x a IH]; simpl; [done | by rewrite <- IH].
Qed.

(** The loop leaves with an unused identifier, the current candidate or
    the stem with a counter not below the current one. *)
Lemma suffix_loop_result turns cache stem : forall operationId counter id,
  suffix_loop turns cache stem operationId counter = Some id ->
  (id ∉ cache) /\
  (id = operationId \/ exists k, counter <= k /\ id = stem +:+ JS.ofNat k).
Proof.
  induction turns as [|t IH]; intros operationId counter id; cbn [suffix_loop];
    case_bool_decide as Hin; try done; try (intros [= ?]; subst; by auto).
  - intros H. apply IH in H as [Hid [->|(k & Hk & ->)]].
    + split; [done|]. right. exists counter. auto.
    + split; [done|]. right. exists k. split; [lia | done].
Qed.

(** The loop always leaves: each turn finds one more member of the cache,
    all different, and the cache has [size cache] of them. *)
Lemma suffix_loop_leaves cache stem turns : forall (tried : gset string) operationId counter,
  tried ⊆ cache ->
  size cache <= turns + size tried ->
  operationId ∉ tried ->
  (forall k, counter <= k ->
     (stem +:+ JS.ofNat k ∉ tried) /\ stem +:+ JS.ofNat k <> operationId) ->
  is_Some (suffix_loop turns cache stem operationId counter).
Proof.
  induction turns as [|t IH]; intros tried operationId counter Hsub Hsize Hnew Hfresh;
    cbn [suffix_loop]; case_bool_decide as Hin; try by eexists.
  - exfalso.
    assert (size ({[operationId]} ∪ tried) <= size cache) as Hle
      by (apply subseteq_size; set_solver).
    rewrite size_union, size_singleton in Hle by set_solver. lia.
  - apply (IH ({[operationId]} ∪ tried)).
    + set_solver.
    + rewrite size_union, size_singleton by set_solver. lia.
    + destruct (Hfresh counter) as [? ?]; [lia|]. set_solver.
    + intros k Hk. destruct (Hfresh k) as [? ?]; [lia|]. split; [set_solver|].
      intros Heq%sapp_inj_l. apply (inj pretty) in Heq. lia.
Qed.

Lemma suffix_loop_total cache stem :
  is_Some (suffix_loop (size cache) cache stem stem 1).
Proof.
  apply (suffix_loop_leaves cache stem (size cache) ∅); [set_solver | lia | set_solver |].
  intros k Hk. split; [set_solver|].
  intros Heq. symmetry in Heq. apply sapp_self_l in Heq. by apply ofNat_not_empty in Heq.
Qed.


(** *** One operation *)

Lemma generateUniqueOperationId_spec method pathname g :
  let '(id, g') := generateUniqueOperationId method pathname g in
  (id ∉ operationIdCache g) /\
  operationIdCache g' = {[id]} ∪ operationIdCache g /\
  schemaCache g' = schemaCache g /\
  exists suffix,
    id = (APIAnalyzer.methodPrefix method +:+ capitalize (resource_of pathname)) +:+ suffix /\
    (suffix = "" \/ exists k, 1 <= k /\ suffix = JS.ofNat k).
Proof.
  unfold generateUniqueOperationId. cbv zeta. fold (resource_of pathname).
  set (stem := APIAnalyzer.methodPrefix method +:+ capitalize (resource_of pathname)).
  destruct (suffix_loop_total (operationIdCache g) stem) as [id Hid].
  rewrite Hid. cbn [default].
  apply suffix_loop_result in Hid as [Hnew Hshape].
  split_and!; [done..|].
  destruct Hshape as [->|(k & Hk & ->)].
  - exists "". split; [|by left]. clear. induction stem as [|c r IH]; simpl; [done | by rewrite <- IH].
  - exists (JS.ofNat k). split; [done | right; eauto].
Qed.

Lemma generateUniqueOperationId_cache method pathname g1 g2 :
  operationIdCache g1 = operationIdCache g2 ->
  fst (generateUniqueOperationId method pathname g1)
  = fst (generateUniqueOperationId method pathname g2).
Proof. intros H. unfold generateUniqueOperationId. cbv zeta. cbn [fst]. by rewrite H. Qed.

Lemma generateResponses_fst endpoint g :
  fst (generateResponses endpoint g) = responses_of endpoint.
Proof.
  unfold generateResponses, generateResponseContent, generateResponseSchema, responses_of.
  cbv zeta. destruct (schemaCache g !! _); cbn [fst];
    repeat (destruct (status_ge _ _)); reflexivity.
Qed.

Lemma generateResponses_cache endpoint g :
  operationIdCache (snd (generateResponses endpoint g)) = operationIdCache g.
Proof.
  unfold generateResponses, generateResponseContent, generateResponseSchema.
  cbv zeta. by destruct (schemaCache g !! _).
Qed.

Lemma generateOperation_fst endpoint g :
  fst (generateOperation endpoint g)
  = operation_with
      (fst (generateUniqueOperationId (method endpoint) (pathname endpoint) g)) endpoint.
Proof.
  unfold generateOperation.
  destruct (generateUniqueOperationId _ _ g) as [id g1] eqn:E1.
  pose proof (generateResponses_fst endpoint g1) as Hr.
  destruct (generateResponses endpoint g1) as [rs g2]. cbn [fst] in *. by subst rs.
Qed.

Lemma generateOperation_cache endpoint g :
  operationIdCache (snd (generateOperation endpoint g))
  = {[ fst (generateUniqueOperationId (method endpoint) (pathname endpoint) g) ]}
    ∪ operationIdCache g.
Proof.
  unfold generateOperation.
  pose proof (generateUniqueOperationId_spec (method endpoint) (pathname endpoint) g) as Hs.
  destruct (generateUniqueOperationId _ _ g) as [id g1] eqn:E1.
  destruct Hs as (_ & Hc & _).
  pose proof (generateResponses_cache endpoint g1) as Hr.
  destruct (generateResponses endpoint g1) as [rs g2]. cbn [fst snd] in *. congruence.
Qed.

(** *** The loop over the endpoints *)

Lemma generatePaths_snoc endpoints endpoint g :
  generatePaths (endpoints ++ [endpoint]) g
  = paths_step (generatePaths endpoints g) endpoint.
Proof. unfold generatePaths. by rewrite fold_left_app. Qed.

Lemma paths_step_lookup paths g endpoint p m :
  operation_at (fst (paths_step (paths, g) endpoint)) p m
  = if decide (key endpoint = (p, m)) then Some (fst (generateOperation endpoint g))
    else operation_at paths p m.
Proof.
  unfold paths_step, operation_at, key.
  destruct (generateOperation endpoint g) as [op g'] eqn:E. cbn [fst].
  set (path := normalizePath (pathname endpoint)).
  set (meth := JS.toLowerCase (method endpoint)).
  destruct (decide (path = p)) as [->|Hp].
  - rewrite lookup_insert_eq. cbn.
    destruct (decide (meth = m)) as [->|Hm].
    + rewrite lookup_insert_eq. by rewrite decide_True.
    + rewrite lookup_insert_ne by done. rewrite decide_False by congruence.
      by destruct (paths !! p).
  - rewrite lookup_insert_ne by done. rewrite decide_False by congruence. done.
Qed.


Lemma generatePaths_last post : forall pre endpoint g p m,
  key endpoint = (p, m) ->
  Forall (fun e => key e <> (p, m)) post ->
  operation_at (fst (generatePaths (pre ++ endpoint :: post) g)) p m
  = Some (fst (generateOperation endpoint (snd (generatePaths pre g)))).
Proof.
  induction post as [|x post IH] using rev_ind; intros pre endpoint g p m Hk Hpost.
  - rewrite generatePaths_snoc. destruct (generatePaths pre g) as [paths g'].
    rewrite paths_step_lookup. by rewrite decide_True.
  - apply Forall_app in Hpost as [Hpost Hx]. rewrite Forall_singleton in Hx.
    replace (pre ++ endpoint :: post ++ [x]) with ((pre ++ endpoint :: post) ++ [x])
      by (by rewrite <- app_assoc).
    rewrite generatePaths_snoc.
    destruct (generatePaths (pre ++ endpoint :: post) g) as [paths g'] eqn:E.
    rewrite paths_step_lookup. rewrite decide_False by done.
    specialize (IH pre endpoint g p m Hk Hpost). by rewrite E in IH.
Qed.

Lemma generatePaths_absent endpoints : forall g p m,
  Forall (fun e => key e <> (p, m)) endpoints ->
  operation_at (fst (generatePaths endpoints g)) p m = None.
Proof.
  induction endpoints as [|x l IH] using rev_ind; intros g p m Hl; [done|].
  apply Forall_app in Hl as [Hl Hx]. rewrite Forall_singleton in Hx.
  rewrite generatePaths_snoc. destruct (generatePaths l g) as [paths g'] eqn:E.
  rewrite paths_step_lookup, decide_False by done.
  specialize (IH g p m Hl). by rewrite E in IH.
Qed.

(** The last endpoint filed under a key. *)
Lemma last_under_key (k : string * string) endpoints :
  Exists (fun e => key e = k) endpoints ->
  exists pre endpoint post,
    endpoints = pre ++ endpoint :: post /\ key endpoint = k /\
    Forall (fun e => key e <> k) post.
Proof.
  induction endpoints as [|x l IH] using rev_ind; intros Hex.
  - by apply Exists_nil in Hex.
  - destruct (decide (key x = k)) as [Hx|Hx].
    + exists l, x, []. auto.
    + apply Exists_app in Hex as [Hex|Hex].
      * destruct (IH Hex) as (pre & e & post & -> & He & Hpost).
        exists pre, e, (post ++ [x]). split_and!; [by rewrite <- app_assoc | done |].
        apply Forall_app. split; [done | by apply Forall_singleton].
      * apply Exists_cons in Hex as [?|Hex]; [done | by apply Exists_nil in Hex].
Qed.

Lemma generatePaths_present endpoints g p m op :
  operation_at (fst (generatePaths endpoints g)) p m = Some op ->
  exists pre endpoint post,
    endpoints = pre ++ endpoint :: post /\ key endpoint = (p, m) /\
    Forall (fun e => key e <> (p, m)) post /\
    op = fst (generateOperation endpoint (snd (generatePaths pre g))).
Proof.
  intros Hop.
  destruct (decide (Exists (fun e => key e = (p, m)) endpoints)) as [Hex|Hno].
  - destruct (last_under_key _ _ Hex) as (pre & e & post & -> & He & Hpost).
    rewrite generatePaths_last in Hop by done. injection Hop as <-.
    exists pre, e, post. auto.
  - apply not_Exists_Forall in Hno; [|intros ?; apply _].
    rewrite generatePaths_absent in Hop; [done|].
    eapply Forall_impl; [exact Hno | done].
Qed.



(** *** What a call reads and leaves of the instance *)

Lemma paths_step_fst paths g endpoint :
  fst (paths_step (paths, g) endpoint)
  = <[ normalizePath (pathname endpoint) :=
         <[ JS.toLowerCase (method endpoint) := fst (generateOperation endpoint g) ]>
           (default ∅ (paths !! normalizePath (pathname endpoint))) ]> paths.
Proof. unfold paths_step. by destruct (generateOperation endpoint g). Qed.

Lemma paths_step_snd paths g endpoint :
  snd (paths_step (paths, g) endpoint) = snd (generateOperation endpoint g).
Proof. unfold paths_step. by destruct (generateOperation endpoint g). Qed.

Lemma paths_step_agree a b endpoint :
  agree a b -> agree (paths_step a endpoint) (paths_step b endpoint).
Proof.
  destruct a as [pa ga], b as [pb gb]. intros [Hp Hc]. cbn [fst snd] in *. subst pb.
  split.
  - rewrite !paths_step_fst, !generateOperation_fst.
    by rewrite (generateUniqueOperationId_cache _ _ ga gb Hc).
  - rewrite !paths_step_snd, !generateOperation_cache.
    by rewrite (generateUniqueOperationId_cache _ _ ga gb Hc), Hc.
Qed.

Lemma fold_paths_agree endpoints : forall a b,
  agree a b -> agree (fold_left paths_step endpoints a) (fold_left paths_step endpoints b).
Proof.
  induction endpoints as [|e l IH]; intros a b H; [done|].
  cbn [fold_left]. by apply IH, paths_step_agree.
Qed.

Lemma fold_paths_cache endpoints : forall a,
  operationIdCache (snd a) ⊆ operationIdCache (snd (fold_left paths_step endpoints a)).
Proof.
  induction endpoints as [|e l IH]; intros [paths g]; [done|].
  cbn [fold_left]. etrans; [|apply IH].
  rewrite (surjective_pairing (paths_step (paths, g) e)).
  cbn [snd]. rewrite paths_step_snd, generateOperation_cache. set_solver.
Qed.

(** The [paths] of the document are what the loop built. *)
Lemma paths_of_document new_URL now endpoints options g :
  paths (fst (generateOpenAPISpec new_URL now endpoints options g))
  = fst (generatePaths endpoints g).
Proof.
  unfold generateOpenAPISpec. destruct endpoints as [|e l]; [done|]. cbv zeta.
  destruct (generatePaths (e :: l) g), (generateExtensions now (e :: l) options). done.
Qed.

End GeneratorFacts.

Import OpenAPIGenerator Synthesis GeneratorFacts.




(** C3, as amended.  The operationId of every operation of the document is
    the method prefix (GET gives get, POST create, PUT update, PATCH patch,
    DELETE delete, any verb outside the table its lower-cased self), then
    the capitalized last non-empty segment of the path as it was observed in
    the last observation of the key ("item" when the path has none), then
    nothing or a decimal counter from 1.  The observations GET
    https://api.x.com/users/42 and GET https://api.x.com/users/43 give the
    single path "/users/{id}" with one get operation, whose operationId is
    "get43" and whose only parameter is the required path parameter id of
    type integer. *)
Theorem operationId_of_last_observation :
  (forall new_URL now endpoints options g p m op,
     operation_at (paths (fst (generateOpenAPISpec new_URL now endpoints options g))) p m
     = Some op ->
     exists pre endpoint post suffix,
       endpoints = pre ++ endpoint :: post /\ key endpoint = (p, m) /\
       Forall (fun e => key e <> (p, m)) post /\
       operationId op
       = (APIAnalyzer.methodPrefix (method endpoint)
          +:+ capitalize (resource_of (pathname endpoint))) +:+ suffix /\
       (suffix = "" \/ exists k, 1 <= k /\ suffix = JS.ofNat k)) /\
  (APIAnalyzer.methodPrefix "GET" = "get" /\
   APIAnalyzer.methodPrefix "POST" = "create" /\
   APIAnalyzer.methodPrefix "PUT" = "update" /\
   APIAnalyzer.methodPrefix "PATCH" = "patch" /\
   APIAnalyzer.methodPrefix "DELETE" = "delete" /\
   forall verb,
     JS.toUpperCase verb ∉ ["GET"; "POST"; "PUT"; "DELETE"; "PATCH"; "HEAD"; "OPTIONS"] ->
     APIAnalyzer.methodPrefix verb = JS.toLowerCase verb) /\
  (exists op,
     paths (fst (Scenarios.first_call Scenarios.users_42_43))
     = {[ "/users/{id}" := {[ "get" := op ]} ]} /\
     operationId op = "get43" /\
     parameters op
     = [ {| name := "id"; in_ := "path"; required := true; schema_type := "integer";
            example := None; p_description := "Identifier for users" |} ]).
Proof.
  split_and!; try reflexivity.
  - intros new_URL now endpoints options g p m op Hop. rewrite paths_of_document in Hop.
    destruct (generatePaths_present _ _ _ _ _ Hop) as (pre & e & post & -> & He & Hpost & ->).
    rewrite generateOperation_fst. cbn [operation_with operationId].
    pose proof (generateUniqueOperationId_spec (method e) (pathname e)
                  (snd (generatePaths pre g))) as Hs.
    destruct (generateUniqueOperationId _ _ _) as [id g'].
    destruct Hs as (_ & _ & _ & suffix & -> & Hsuffix).
    exists pre, e, post, suffix. auto.
  - intros verb Hverb. unfold APIAnalyzer.methodPrefix. cbn [find fst snd].
    unfold JS.string_eqb.
    repeat (let E := fresh "E" in
            case_bool_decide as E;
            [exfalso; apply Hverb; rewrite <- E; set_solver | clear E]).
    done.
  - eexists. split_and!; vm_compute; reflexivity.
Qed.

Lemma operationId_of_last_observation_witness :
  exists pre endpoint post suffix,
    Scenarios.users_42_43 = pre ++ endpoint :: post /\
    key endpoint = ("/users/{id}", "get") /\
    Forall (fun e => key e <> ("/users/{id}", "get")) post /\
    "get43"
    = (APIAnalyzer.methodPrefix (method endpoint)
       +:+ capitalize (resource_of (pathname endpoint))) +:+ suffix /\
    (suffix = "" \/ exists k, 1 <= k /\ suffix = JS.ofNat k).
Proof.
  apply (proj1 operationId_of_last_observation URL.parse "2026-01-01T00:00:00.000Z"
           Scenarios.users_42_43 no_options constructor "/users/{id}" "get"
           (operation_with "get43"
              {| url := "https://api.x.com/users/43"; method := "GET";
                 status := Some 200; contentType := Some "application/json";
                 hostname := "api.x.com"; pathname := "/users/43";
                 searchParams := Some []; headers := Some []; responseSize := 0 |})).
  vm_compute. reflexivity.
Defined.

(** C3 as the specification states it fails on its own scenario: the
    resource is read off the observed path, not off the template. *)
Lemma operationId_from_observed_path :
  exists op,
    operation_at (paths (fst (Scenarios.first_call Scenarios.users_42_43)))
                 "/users/{id}" "get" = Some op /\
    operationId op = "get43" /\ operationId op <> "getUsers".
Proof.
  eexists. split; [vm_compute; reflexivity|]. split; [vm_compute; reflexivity | done].
Qed.

(** C5, as amended.  The two caches are fields of the instance, seeded
    empty by the constructor and kept from one call to the next: a call
    only adds to the operationId cache, and every operationId of its
    document is in the cache afterwards.  Synthesis is repeatable from equal
    starting states: on one snapshot and one reading of the clock, two
    generators with equal operationId caches, two fresh ones for instance,
    give identical documents, whatever their schema caches hold. *)
Theorem synthesis_repeatable_per_instance :
  (schemaCache constructor = ∅ /\ operationIdCache constructor = ∅) /\
  (forall new_URL now endpoints options g1 g2,
     operationIdCache g1 = operationIdCache g2 ->
     fst (generateOpenAPISpec new_URL now endpoints options g1)
     = fst (generateOpenAPISpec new_URL now endpoints options g2)) /\
  (forall new_URL now endpoints options g,
     let '(document, g') := generateOpenAPISpec new_URL now endpoints options g in
     operationIdCache g ⊆ operationIdCache g' /\
     forall p m op,
       operation_at (paths document) p m = Some op ->
       operationId op ∈ operationIdCache g').
Proof.
  split_and!; try done.
  - intros new_URL now endpoints options g1 g2 Hc.
    unfold generateOpenAPISpec. destruct endpoints as [|e l]; [done|].
    cbv zeta.
    destruct (fold_paths_agree (e :: l) (∅, g1) (∅, g2)) as [Hp _]; [done|].
    fold (generatePaths (e :: l) g1) in Hp. fold (generatePaths (e :: l) g2) in Hp.
    destruct (generatePaths (e :: l) g1) as [p1 g1'], (generatePaths (e :: l) g2) as [p2 g2'].
    cbn [fst] in *. subst p2. by destruct (generateExtensions now (e :: l) options).
  - intros new_URL now endpoints options g.
    unfold generateOpenAPISpec. destruct endpoints as [|e l].
    { split; [done|]. intros p m op. unfold operation_at. cbn.
      by rewrite lookup_empty. }
    cbv zeta. set (eps := e :: l).
    pose proof (fold_paths_cache eps (∅, g)) as Hmono.
    fold (generatePaths eps g) in Hmono. cbn [snd] in Hmono.
    assert (Hids : forall p m op,
              operation_at (fst (generatePaths eps g)) p m = Some op ->
              operationId op ∈ operationIdCache (snd (generatePaths eps g))).
    { intros p m op Hop.
      destruct (generatePaths_present _ _ _ _ _ Hop) as (pre & x & post & Heq & _ & _ & ->).
      rewrite Heq. unfold generatePaths.
      replace (pre ++ x :: post) with ((pre ++ [x]) ++ post) by (by rewrite <- app_assoc).
      rewrite fold_left_app. apply fold_paths_cache.
      fold (generatePaths (pre ++ [x]) g). rewrite generatePaths_snoc.
      rewrite (surjective_pairing (generatePaths pre g)).
      rewrite paths_step_snd, generateOperation_cache, generateOperation_fst.
      cbn [operation_with operationId]. set_solver. }
    destruct (generatePaths eps g) as [ps g'].
    destruct (generateExtensions now eps options). cbn [fst snd OpenAPIGenerator.paths] in *. auto.
Qed.

Lemma synthesis_repeatable_per_instance_witness :
  fst (generateOpenAPISpec URL.parse "2026-01-01T00:00:00.000Z" Scenarios.users_once
         no_options constructor)
  = fst (generateOpenAPISpec URL.parse "2026-01-01T00:00:00.000Z" Scenarios.users_once
           no_options
           {| schemaCache := {[ "Users" := resource_schema "users" ]};
              operationIdCache := ∅ |}).
Proof.
  apply (proj1 (proj2 synthesis_repeatable_per_instance)). reflexivity.
Defined.

(** C5 as the specification states it fails: the operationId cache is not
    emptied at the start of a call, so a second call on the same instance
    suffixes the operationId. *)
Lemma second_call_differs :
  (exists op, operation_at (paths (fst (Scenarios.first_call Scenarios.users_once)))
                           "/users" "get" = Some op /\
              operationId op = "getUsers") /\
  (exists op, operation_at (paths (fst (Scenarios.second_call Scenarios.users_once)))
                           "/users" "get" = Some op /\
              operationId op = "getUsers1") /\
  fst (Scenarios.first_call Scenarios.users_once)
  <> fst (Scenarios.second_call Scenarios.users_once).
Proof.
  split_and!.
  - eexists. split; vm_compute; reflexivity.
  - eexists. split; vm_compute; reflexivity.
  - intros H.
    assert (E : operation_at (paths (fst (Scenarios.first_call Scenarios.users_once)))
                  "/users" "get"
                = operation_at (paths (fst (Scenarios.second_call Scenarios.users_once)))
                    "/users" "get") by (by rewrite H).
    vm_compute in E. discriminate E.
Qed.

(** C7, as amended.  An operation carries the security requirement
    bearerAuth exactly when the last observation of its key has a header
    whose lower-cased name contains "authorization", "api-key" or "token",
    and carries none otherwise.  Whenever some observation has a header
    whose lower-cased name contains "authorization", the document declares
    the bearerAuth scheme, of type http and scheme bearer; when no
    observation has a header whose lower-cased name contains
    "authorization", "api-key" or "token", the document declares no
    scheme.  An observation with the header Authorization gives an
    operation with that requirement and a document with that scheme. *)
Theorem security_of_last_observation :
  (forall new_URL now endpoints options g p m op,
     operation_at (paths (fst (generateOpenAPISpec new_URL now endpoints options g))) p m
     = Some op ->
     exists pre endpoint post,
       endpoints = pre ++ endpoint :: post /\ key endpoint = (p, m) /\
       Forall (fun e => key e <> (p, m)) post /\
       (security op = bearer_required <-> has_header auth_like endpoint = true) /\
       (security op = [] <-> has_header auth_like endpoint = false)) /\
  (forall h,
     auth_like h = true <->
     JS.includes (JS.toLowerCase h) "authorization" = true \/
     JS.includes (JS.toLowerCase h) "api-key" = true \/
     JS.includes (JS.toLowerCase h) "token" = true) /\
  (forall new_URL now endpoints options g,
     Exists (fun e => has_header names_authorization e = true) endpoints ->
     securitySchemes (components (fst (generateOpenAPISpec new_URL now endpoints options g)))
     = Some {[ "bearerAuth" := bearer_scheme ]}) /\
  (forall new_URL now endpoints options g,
     Forall (fun e => has_header auth_like e = false) endpoints ->
     securitySchemes (components (fst (generateOpenAPISpec new_URL now endpoints options g)))
     = match endpoints with [] => None | _ :: _ => Some ∅ end) /\
  (exists op,
     operation_at (paths (fst (Scenarios.first_call Scenarios.users_authorized))) "/users" "get"
     = Some op /\
     security op = bearer_required /\
     securitySchemes (components (fst (Scenarios.first_call Scenarios.users_authorized)))
     = Some {[ "bearerAuth" := bearer_scheme ]}).
Proof.
  split_and!.
  - intros new_URL now endpoints options g p m op Hop. rewrite paths_of_document in Hop.
    destruct (generatePaths_present _ _ _ _ _ Hop) as (pre & e & post & -> & He & Hpost & ->).
    exists pre, e, post. rewrite generateOperation_fst. cbn [operation_with security].
    split_and!; try done; unfold generateSecurity, has_header;
      destruct (headers e) as [hs|]; try destruct (existsb auth_like (map fst hs));
      split; done.
  - intros h. unfold auth_like. rewrite !orb_true_iff. tauto.
  - intros new_URL now endpoints options g Hex.
    unfold generateOpenAPISpec. destruct endpoints as [|e l]; [by apply Exists_nil in Hex|].
    cbv zeta. destruct (generatePaths (e :: l) g), (generateExtensions now (e :: l) options).
    cbn [fst components securitySchemes generateComponents]. f_equal.
    unfold generateSecuritySchemes.
    replace (existsb _ (e :: l)) with true; [done|].
    symmetry. apply existsb_exists. apply Exists_exists in Hex as (x & Hx & Hh).
    exists x. split; [by apply list_elem_of_In|]. exact Hh.
  - intros new_URL now endpoints options g Hall.
    unfold generateOpenAPISpec. destruct endpoints as [|e l]; [done|].
    cbv zeta. destruct (generatePaths (e :: l) g), (generateExtensions now (e :: l) options).
    cbn [fst components securitySchemes generateComponents]. f_equal.
    unfold generateSecuritySchemes.
    replace (existsb _ (e :: l)) with false; [done|].
    symmetry. apply not_true_is_false. intros (x & Hx & Hh)%existsb_exists.
    rewrite Forall_forall in Hall. apply list_elem_of_In in Hx.
    specialize (Hall x Hx). unfold has_header in Hall.
    destruct (headers x) as [hs|]; [|done].
    apply existsb_exists in Hh as (h & Hh1 & Hh2).
    apply not_true_iff_false in Hall. apply Hall.
    apply existsb_exists. exists h. split; [done|].
    unfold auth_like. by rewrite Hh2.
  - eexists. split_and!; vm_compute; reflexivity.
Qed.

Lemma security_of_last_observation_witness :
  securitySchemes (components (fst (Scenarios.first_call Scenarios.users_authorized)))
  = Some {[ "bearerAuth" := bearer_scheme ]}.
Proof.
  apply (proj1 (proj2 (proj2 security_of_last_observation))).
  apply Exists_cons_hd. vm_compute. reflexivity.
Defined.

(** C7 as the specification states it fails: an observation with the
    header Authorization contributes to the key, a later one without it
    replaces its operation, and the document still declares the scheme. *)
Lemma authorization_of_earlier_observation_lost :
  Exists (fun e => has_header auth_like e = true /\ key e = ("/users", "get"))
         Scenarios.users_authorized_then_not /\
  (exists op,
     operation_at (paths (fst (Scenarios.first_call Scenarios.users_authorized_then_not)))
                  "/users" "get" = Some op /\
     security op = []) /\
  securitySchemes (components (fst (Scenarios.first_call Scenarios.users_authorized_then_not)))
  = Some {[ "bearerAuth" := bearer_scheme ]}.
Proof.
  split_and!.
  - apply Exists_cons_hd. split; vm_compute; reflexivity.
  - eexists. split; vm_compute; reflexivity.
  - vm_compute. reflexivity.
Qed.

(** The scheme is declared for "authorization" alone: a header X-API-Key
    marks the operation and leaves the document without the scheme. *)
Lemma api_key_marks_without_scheme :
  (exists op,
     operation_at (paths (fst (Scenarios.first_call Scenarios.users_with_api_key)))
                  "/users" "get" = Some op /\
     security op = bearer_required) /\
  securitySchemes (components (fst (Scenarios.first_call Scenarios.users_with_api_key)))
  = Some ∅.
Proof.
  split; [eexists; split|]; vm_compute; reflexivity.
Qed.

(** ** Parameter type inference *)

Module ParameterFacts.
Import OpenAPIGenerator.

Lemma query_of_path_parameters (pathParams : list PathParam) :
  filter (fun q => in_ q = "query")
         (map (fun param =>
                 {| name := pp_name param; in_ := "path"; required := true;
                    schema_type := pp_type param; example := None;
                    p_description := "Identifier for " +:+ pp_resource param |})
              pathParams)
  = [].
Proof.
  induction pathParams as [|param r IH]; [done|].
  cbn [map]. by rewrite filter_cons_False.
Qed.

Lemma query_of_query_parameters (entries : list (string * string)) :
  filter (fun q => in_ q = "query")
         (map (fun '(name, value) =>
                 {| name := name; in_ := "query"; required := false;
                    schema_type := inferParameterType value; example := Some value;
                    p_description := "Query parameter: " +:+ name |})
              entries)
  = map (fun entry =>
           {| name := fst entry; in_ := "query"; required := false;
              schema_type := inferParameterType (snd entry);
              example := Some (snd entry);
              p_description := "Query parameter: " +:+ fst entry |})
        entries.
Proof.
  induction entries as [|[n v] r IH]; [done|].
  cbn [map fst snd]. rewrite filter_cons_True by done. by rewrite IH.
Qed.

End ParameterFacts.

Import SetFacts OpenAPIGenerator Synthesis GeneratorFacts ParameterFacts.

(** C8, as amended.  [APIAnalyzer.inferParameterTypes] classifies each
    sample as boolean (the literals "true" and "false"), number (not empty
    and numerically coercible) or string (anything else), as the
    synthesizer does for a single value.  When all the samples of a
    non-empty list have one type, it emits that type with the first sample
    as the example; when two samples differ in type, it emits type string,
    an [anyOf] that lists each type that occurs exactly once, and the first
    three distinct samples, hence at most three, each of them a sample.
    The samples "5" and "abc" give type string, [anyOf] number and string,
    and the examples "5" and "abc".  In a synthesized document the values
    of several observations are not pooled: the query parameters of an
    operation are those of the query of the last observation of its key,
    one for each entry and in that order, each typed from its value alone
    and with that value as its example. *)
Theorem inferParameterTypes_spec :
  (forall sample,
     APIAnalyzer.sampleType sample
     = if bool_decide (sample = "true" \/ sample = "false") then "boolean"
       else if negb (JSNumber.isNaN sample) && bool_decide (sample <> "") then "number"
       else "string") /\
  (forall sample,
     OpenAPIGenerator.inferParameterType sample = APIAnalyzer.sampleType sample) /\
  (forall samples t,
     samples <> [] ->
     (forall s, s ∈ samples -> APIAnalyzer.sampleType s = t) ->
     APIAnalyzer.inferParameterTypes samples
     = {| APIAnalyzer.i_type := t; APIAnalyzer.i_example := head samples;
          APIAnalyzer.i_anyOf := None; APIAnalyzer.i_examples := None |}) /\
  (forall samples s1 s2,
     s1 ∈ samples -> s2 ∈ samples ->
     APIAnalyzer.sampleType s1 <> APIAnalyzer.sampleType s2 ->
     exists types examples,
       APIAnalyzer.inferParameterTypes samples
       = {| APIAnalyzer.i_type := "string"; APIAnalyzer.i_example := None;
            APIAnalyzer.i_anyOf := Some types;
            APIAnalyzer.i_examples := Some examples |} /\
       NoDup types /\
       (forall t, t ∈ types <-> exists s, s ∈ samples /\ APIAnalyzer.sampleType s = t) /\
       examples = take 3 (APIAnalyzer.distinct samples) /\
       length examples <= 3 /\
       (forall e, e ∈ examples -> e ∈ samples)) /\
  APIAnalyzer.inferParameterTypes ["5"; "abc"]
  = {| APIAnalyzer.i_type := "string"; APIAnalyzer.i_example := None;
       APIAnalyzer.i_anyOf := Some ["number"; "string"];
       APIAnalyzer.i_examples := Some ["5"; "abc"] |} /\
  (forall new_URL now endpoints options g p m op,
     operation_at (paths (fst (generateOpenAPISpec new_URL now endpoints options g))) p m
     = Some op ->
     exists pre endpoint post,
       endpoints = pre ++ endpoint :: post /\ key endpoint = (p, m) /\
       Forall (fun e => key e <> (p, m)) post /\
       filter (fun q => in_ q = "query") (parameters op)
       = map (fun entry =>
                {| name := fst entry; in_ := "query"; required := false;
                   schema_type := inferParameterType (snd entry);
                   example := Some (snd entry);
                   p_description := "Query parameter: " +:+ fst entry |})
             (default [] (searchParams endpoint))).
Proof.
  split_and!.
  - intros sample. unfold APIAnalyzer.sampleType, JS.string_eqb.
    repeat case_bool_decide; simpl; try done; tauto.
  - reflexivity.
  - intros [|x l] t Hne Hall; [done|].
    rewrite inferParameterTypes_unfold. cbv zeta.
    assert (Hd : APIAnalyzer.distinct (map APIAnalyzer.sampleType (x :: l)) = [t]).
    { destruct (NoDup_all_same t (APIAnalyzer.distinct (map APIAnalyzer.sampleType (x :: l))))
        as [E|E]; [apply distinct_NoDup | | | done].
      - intros y [s [-> Hs]]%distinct_elem%list_elem_of_fmap. by apply Hall.
      - pose proof (distinct_head (APIAnalyzer.sampleType x) (map APIAnalyzer.sampleType l)) as Hh.
        simpl in E. rewrite E in Hh. done. }
    rewrite Hd, distinct_head. done.
  - intros samples s1 s2 H1 H2 Hne.
    destruct samples as [|x l]; [by apply elem_of_nil in H1|].
    rewrite inferParameterTypes_unfold. cbv zeta.
    set (types := APIAnalyzer.distinct (map APIAnalyzer.sampleType (x :: l))).
    assert (Hin : forall t, t ∈ types <->
                   exists s, s ∈ x :: l /\ APIAnalyzer.sampleType s = t).
    { intros t. unfold types. rewrite distinct_elem, list_elem_of_fmap.
      split; intros [s Hs]; exists s; split; by destruct Hs. }
    assert (Hlen : (length types =? 1)%nat = false).
    { apply Nat.eqb_neq. intros Hlen.
      destruct types as [|a [|b r]]; simpl in Hlen; try lia.
      assert (APIAnalyzer.sampleType s1 ∈ [a]) as E1%list_elem_of_singleton
        by (apply Hin; eauto).
      assert (APIAnalyzer.sampleType s2 ∈ [a]) as E2%list_elem_of_singleton
        by (apply Hin; eauto).
      congruence. }
    rewrite Hlen. eexists _, _. split_and!; [done | apply distinct_NoDup | done | done | | ].
    + rewrite length_take. lia.
    + intros e He. apply distinct_elem.
      apply elem_of_take in He as (i & Hi & _). by eapply list_elem_of_lookup_2.
  - vm_compute. reflexivity.
  - intros new_URL now endpoints options g p m op Hop. rewrite paths_of_document in Hop.
    destruct (generatePaths_present _ _ _ _ _ Hop) as (pre & e & post & -> & He & Hpost & ->).
    exists pre, e, post. split_and!; [done..|].
    rewrite generateOperation_fst. cbn [parameters operation_with].
    unfold generateParameters. rewrite filter_app.
    rewrite query_of_path_parameters. cbn [app].
    destruct (searchParams e) as [entries|]; [|done]. cbn [default].
    apply query_of_query_parameters.
Qed.

Lemma inferParameterTypes_spec_witness :
  APIAnalyzer.inferParameterTypes ["5"; "7"]
  = {| APIAnalyzer.i_type := "number"; APIAnalyzer.i_example := Some "5";
       APIAnalyzer.i_anyOf := None; APIAnalyzer.i_examples := None |}.
Proof.
  apply (proj1 (proj2 (proj2 inferParameterTypes_spec)) ["5"; "7"] "number").
  - discriminate.
  - intros s Hs.
    apply elem_of_cons in Hs as [->|Hs]; [vm_compute; reflexivity|].
    apply elem_of_cons in Hs as [->|Hs]; [vm_compute; reflexivity|].
    by apply elem_of_nil in Hs.
Defined.

(** C8 as the specification states it fails for query observations: the
    values 5 and abc of the parameter [page], observed one after the other,
    give a parameter with the type and the example of the later value
    alone, string with abc in one order and number with 5 in the other,
    where the inference over both samples keeps both examples. *)
Lemma query_values_not_pooled :
  (exists op,
     operation_at (paths (fst (Scenarios.first_call Scenarios.page_5_then_abc)))
                  "/users" "get" = Some op /\
     map (fun q => (name q, in_ q, schema_type q, example q)) (parameters op)
     = [("page", "query", "string", Some "abc")]) /\
  (exists op,
     operation_at (paths (fst (Scenarios.first_call Scenarios.page_abc_then_5)))
                  "/users" "get" = Some op /\
     map (fun q => (name q, in_ q, schema_type q, example q)) (parameters op)
     = [("page", "query", "number", Some "5")]) /\
  APIAnalyzer.inferParameterTypes ["5"; "abc"]
  = {| APIAnalyzer.i_type := "string"; APIAnalyzer.i_example := None;
       APIAnalyzer.i_anyOf := Some ["number"; "string"];
       APIAnalyzer.i_examples := Some ["5"; "abc"] |}.
Proof.
  split_and!; [eexists; split; vm_compute; reflexivity ..| vm_compute; reflexivity].
Qed.

(** ** References, failures and servers *)

(** C4 is violated by the code: for the single observation GET
    https://api.x.com/users/42 the schema of the 200 response refers to
    "#/components/schemas/42", named after the observed path, while
    [components.schemas] holds the entries named after the template and
    "Error". *)
Lemma response_ref_dangles :
  refs_of_paths (fst (Scenarios.first_call Scenarios.user_42))
  = ["#/components/schemas/42"] /\
  dom (schemas (components (fst (Scenarios.first_call Scenarios.user_42))))
  = {[ "{id}"; "{id}Input"; "Error" ]} /\
  resolves (fst (Scenarios.first_call Scenarios.user_42)) "#/components/schemas/42" = false.
Proof. split_and!; vm_compute; reflexivity. Qed.

Module AnalyzerFacts.
Import APIAnalyzer.

Lemma group_step_throws new_URL groups endpoint :
  new_URL (url endpoint) = None ->
  group_step new_URL groups endpoint = Throw "TypeError: Invalid URL".
Proof. intros H. unfold group_step, getEndpointGroupKey. by rewrite H. Qed.

Lemma group_step_error new_URL groups endpoint e :
  group_step new_URL groups endpoint = Throw e -> e = "TypeError: Invalid URL".
Proof.
  unfold group_step, getEndpointGroupKey, extractEndpointPattern.
  destruct (new_URL (url endpoint)); cbn [rbind]; [|congruence].
  destruct (existsb _ groups); cbn [rbind]; congruence.
Qed.

(** One unparseable URL anywhere makes the grouping loop throw. *)
Lemma for_each_group_throws new_URL endpoints : forall groups endpoint,
  endpoint ∈ endpoints -> new_URL (url endpoint) = None ->
  for_each (group_step new_URL) endpoints groups = Throw "TypeError: Invalid URL".
Proof.
  induction endpoints as [|x l IH]; intros groups e He Hbad.
  - by apply elem_of_nil in He.
  - cbn [for_each]. destruct (group_step new_URL groups x) as [groups'|err] eqn:E.
    + cbn [rbind]. apply elem_of_cons in He as [->|He].
      * rewrite group_step_throws in E by done. discriminate.
      * by eapply IH.
    + apply group_step_error in E as ->. done.
Qed.

Lemma analyzeEndpoints_throws new_URL endpoints endpoint :
  endpoint ∈ endpoints -> new_URL (url endpoint) = None ->
  analyzeEndpoints new_URL endpoints = Throw "TypeError: Invalid URL".
Proof.
  intros He Hbad. unfold analyzeEndpoints, groupEndpointsByPattern.
  destruct endpoints as [|x l]; [by apply elem_of_nil in He|].
  by rewrite (for_each_group_throws new_URL (x :: l) [] endpoint He Hbad).
Qed.

End AnalyzerFacts.

(** C6 is violated by the analyzer: with an observation whose URL does
    not parse, [APIAnalyzer.analyzeEndpoints] throws from the grouping loop
    before any statistics are made, although [generateStatistics] on its
    own counts the method and status of that observation, and although the
    synthesizer, which reads the stored path, still files an operation for
    it. *)
Lemma analysis_aborts_on_unparseable_url :
  URL.parse (url Scenarios.unparseable) = None /\
  APIAnalyzer.analyzeEndpoints URL.parse (Scenarios.users_once ++ [Scenarios.unparseable])
  = Throw "TypeError: Invalid URL" /\
  APIAnalyzer.st_methods
    (APIAnalyzer.generateStatistics URL.parse (Scenarios.users_once ++ [Scenarios.unparseable]))
  = [("GET", 2)] /\
  is_Some (operation_at
             (paths (fst (Scenarios.first_call (Scenarios.users_once ++ [Scenarios.unparseable]))))
             "/users" "get").
Proof.
  split_and!; [reflexivity | | vm_compute; reflexivity | vm_compute; by eexists].
  apply (AnalyzerFacts.analyzeEndpoints_throws URL.parse _ Scenarios.unparseable);
    [vm_compute; right; left | reflexivity].
Qed.

Module ServerFacts.
Import StringFacts SetFacts.

Lemma origin_truthy u : JS.truthy (URL.origin u) = true.
Proof. unfold URL.origin. by destruct (URL.protocol u). Qed.

Lemma origin_default_port u :
  URL.port u = "" -> URL.protocol u +:+ "//" +:+ URL.hostname u = URL.origin u.
Proof. intros H. unfold URL.origin. rewrite H. cbn [JS.truthy]. by rewrite sapp_nil_r. Qed.

(** The origins that [generateServers] collects. *)
Lemma origins_truthy new_URL (endpoints : list Endpoint) :
  filter (fun o => JS.truthy o = true)
         (omap (fun e => URL.origin <$> new_URL (url e)) endpoints)
  = omap (fun e => URL.origin <$> new_URL (url e)) endpoints.
Proof.
  induction endpoints as [|e l IH]; [done|]. simpl.
  destruct (new_URL (url e)) as [u|]; simpl; [|exact IH].
  rewrite filter_cons_True by apply origin_truthy. f_equal. exact IH.
Qed.

(** When the first observation parses and has the default port of its
    scheme, the list of servers starts with its origin and then has every
    other origin once. *)
Lemma servers_when_default_port new_URL e0 rest u0 :
  new_URL (url e0) = Some u0 -> URL.port u0 = "" ->
  let endpoints := e0 :: rest in
  let origins :=
    APIAnalyzer.distinct (omap (fun e => URL.origin <$> new_URL (url e)) endpoints) in
  let servers := generateServers new_URL (determineBaseURL new_URL endpoints) endpoints in
  head servers = Some (URL.origin u0) /\ NoDup servers /\
  forall o, o ∈ servers <-> o ∈ origins.
Proof.
  intros Hu Hport endpoints origins servers.
  assert (Hbase : determineBaseURL new_URL endpoints = URL.origin u0).
  { unfold determineBaseURL, endpoints. rewrite Hu. by apply origin_default_port. }
  assert (Hin : URL.origin u0 ∈ origins).
  { apply distinct_elem. unfold endpoints. simpl. rewrite Hu. simpl. left. }
  pose proof (distinct_NoDup (omap (fun e => URL.origin <$> new_URL (url e)) endpoints)) as Hnd.
  fold origins in Hnd.
  unfold servers, generateServers. rewrite Hbase, origins_truthy. fold origins.
  cbn [app]. destruct (1 <? length origins)%nat eqn:Hlen.
  - split_and!; [done | |].
    + apply NoDup_cons. split; [|by apply NoDup_filter].
      intros [H _]%list_elem_of_filter. done.
    + intros o. rewrite elem_of_cons, list_elem_of_filter.
      destruct (decide (o = URL.origin u0)) as [->|Hne]; [tauto|]. tauto.
  - apply Nat.ltb_ge in Hlen.
    destruct origins as [|a [|b r]]; [by apply elem_of_nil in Hin | | simpl in Hlen; lia].
    apply list_elem_of_singleton in Hin as <-.
    split_and!; [done | apply NoDup_singleton | done].
Qed.

End ServerFacts.

(** C9 is violated by the code: the first server is built from the
    protocol and the host name of the first observation, without its port.
    For http://localhost:3000 it is not the origin, and with a second
    origin present the origin of the first observation is listed as an
    additional server. *)
Lemma first_server_drops_port :
  URL.origin <$> URL.parse "http://localhost:3000/api/users" = Some "http://localhost:3000" /\
  servers (fst (Scenarios.first_call Scenarios.local_only)) = ["http://localhost"] /\
  servers (fst (Scenarios.first_call Scenarios.local_then_remote))
  = ["http://localhost"; "http://localhost:3000"; "https://api.x.com"].
Proof. split_and!; vm_compute; reflexivity. Qed.

(** ** Operation identifiers *)

Module UniquenessFacts.
Import OpenAPIGenerator Synthesis GeneratorFacts.

(** The loop leaves at the first unused candidate. *)
Lemma suffix_loop_lowest turns cache stem : forall operationId counter id,
  suffix_loop turns cache stem operationId counter = Some id ->
((operationId ∉ cache) /\ id = operationId) \/
  (operationId ∈ cache /\
   exists k, counter <= k /\ id = stem +:+ JS.ofNat k /\ (id ∉ cache) /\
             forall j, counter <= j < k -> stem +:+ JS.ofNat j ∈ cache).
Proof.
  induction turns as [|t IH]; intros operationId counter id; cbn [suffix_loop];
    case_bool_decide as Hin; try done; try (intros [= ?]; subst; by auto).
  intros H. right. split; [done|].
  apply IH in H as [[Hnew ->]|(Hold & k & Hk & -> & Hnew & Hbelow)].
  - exists counter. split_and!; [lia | done | done | intros j Hj; lia].
  - exists k. split_and!; [lia | done | done |].
    intros j Hj. destruct (decide (j = counter)) as [->|Hne]; [done|].
    apply Hbelow. lia.
Qed.

Lemma generatePaths_app pre post g :
  generatePaths (pre ++ post) g = fold_left paths_step post (generatePaths pre g).
Proof. unfold generatePaths. by rewrite fold_left_app. Qed.

(** The identifier given to an endpoint is in the cache ever after. *)
Lemma id_stays_cached pre endpoint mid g :
  fst (generateUniqueOperationId (method endpoint) (pathname endpoint)
         (snd (generatePaths pre g)))
  ∈ operationIdCache (snd (generatePaths (pre ++ endpoint :: mid) g)).
Proof.
  replace (pre ++ endpoint :: mid) with ((pre ++ [endpoint]) ++ mid)
    by (by rewrite <- app_assoc).
  rewrite generatePaths_app. apply fold_paths_cache.
  rewrite generatePaths_snoc, (surjective_pairing (generatePaths pre g)).
  rewrite paths_step_snd, generateOperation_cache. set_solver.
Qed.

Lemma cache_grows pre post g :
  operationIdCache g ⊆ operationIdCache (snd (generatePaths (pre ++ post) g)).
Proof. unfold generatePaths. apply (fold_paths_cache (pre ++ post) (∅, g)). Qed.

Lemma id_is_new method pathname g :
  fst (generateUniqueOperationId method pathname g) ∉ operationIdCache g.
Proof.
  pose proof (generateUniqueOperationId_spec method pathname g) as H.
  destruct (generateUniqueOperationId method pathname g). by destruct H.
Qed.

End UniquenessFacts.

Import OpenAPIGenerator Synthesis GeneratorFacts UniquenessFacts.

(** X1.  The operationIds of a document are pairwise different: two
    operations filed under different (template, method) keys never share
    their operationId, and none of them was in the operationId cache of the
    instance before the call. *)
Theorem operationIds_unique new_URL now endpoints options g p1 m1 p2 m2 op1 op2 :
  let document := fst (generateOpenAPISpec new_URL now endpoints options g) in
  operation_at (paths document) p1 m1 = Some op1 ->
  operation_at (paths document) p2 m2 = Some op2 ->
  (p1, m1) <> (p2, m2) ->
  operationId op1 <> operationId op2 /\ (operationId op1 ∉ operationIdCache g).
Proof.
  cbv zeta. rewrite paths_of_document. intros H1 H2 Hne.
  destruct (generatePaths_present _ _ _ _ _ H1) as (pre1 & e1 & post1 & E1 & K1 & _ & ->).
  destruct (generatePaths_present _ _ _ _ _ H2) as (pre2 & e2 & post2 & E2 & K2 & _ & ->).
  rewrite !generateOperation_fst. cbn [operation_with operationId].
  split.
  - rewrite E1 in E2. apply app_eq_app in E2 as [l [[Hp Hq]|[Hp Hq]]].
    + destruct l as [|x l].
      { rewrite app_nil_r in Hp. simpl in Hq. injection Hq as -> _. congruence. }
      simpl in Hq. injection Hq as <- _. subst pre1.
      intros Heq. apply (id_is_new (method e1) (pathname e1)
                           (snd (generatePaths (pre2 ++ e2 :: l) g))).
      rewrite Heq. apply id_stays_cached.
    + destruct l as [|x l].
      { rewrite app_nil_r in Hp. simpl in Hq. injection Hq as -> _. congruence. }
      simpl in Hq. injection Hq as <- _. subst pre2.
      intros Heq. apply (id_is_new (method e2) (pathname e2)
                           (snd (generatePaths (pre1 ++ e1 :: l) g))).
      rewrite <- Heq. apply id_stays_cached.
  - intros Hin. apply (id_is_new (method e1) (pathname e1) (snd (generatePaths pre1 g))).
    pose proof (cache_grows pre1 [] g) as Hsub. rewrite app_nil_r in Hsub. by apply Hsub.
Qed.

(** X2.  [generateUniqueOperationId] returns the stem (method prefix and
    capitalized resource) when it is unused, and otherwise the stem with the
    lowest counter from 1 that makes it unused; the identifier it returns is
    added to the cache. *)
Theorem generateUniqueOperationId_lowest method pathname g :
  let stem := APIAnalyzer.methodPrefix method +:+ capitalize (resource_of pathname) in
  let id := fst (generateUniqueOperationId method pathname g) in
  let g' := snd (generateUniqueOperationId method pathname g) in
  (stem ∉ operationIdCache g -> id = stem) /\
  (stem ∈ operationIdCache g ->
   exists k, 1 <= k /\ id = stem +:+ JS.ofNat k /\
             forall j, 1 <= j < k -> stem +:+ JS.ofNat j ∈ operationIdCache g) /\
  (id ∉ operationIdCache g) /\
  operationIdCache g' = {[ id ]} ∪ operationIdCache g.
Proof.
  cbv zeta. unfold generateUniqueOperationId. cbv zeta. fold (resource_of pathname).
  set (stem := APIAnalyzer.methodPrefix method +:+ capitalize (resource_of pathname)).
  destruct (suffix_loop_total (operationIdCache g) stem) as [id Hid].
  rewrite Hid. cbn [default fst snd operationIdCache].
  apply suffix_loop_lowest in Hid as [[Hnew ->]|(Hold & k & Hk & -> & Hnew & Hbelow)].
  - split_and!; done.
  - split_and!; [done | | done | done].
    intros _. exists k. auto.
Qed.

Lemma generateUniqueOperationId_lowest_witness :
  fst (generateUniqueOperationId "GET" "/users" constructor) = "getUsers".
Proof.
  apply (proj1 (generateUniqueOperationId_lowest "GET" "/users" constructor)).
  apply not_elem_of_empty.
Defined.

Lemma operationIds_unique_witness :
  exists op1 op2,
    operation_at (paths (fst (Scenarios.first_call MoreScenarios.users_get_post)))
                 "/users" "get" = Some op1 /\
    operation_at (paths (fst (Scenarios.first_call MoreScenarios.users_get_post)))
                 "/users" "post" = Some op2 /\
    operationId op1 <> operationId op2.
Proof.
  eexists _, _. split; [vm_compute; reflexivity|]. split; [vm_compute; reflexivity|].
  refine (proj1 (operationIds_unique URL.parse "2026-01-01T00:00:00.000Z"
                   MoreScenarios.users_get_post no_options constructor
                   "/users" "get" "/users" "post" _ _ _ _ _)).
  - vm_compute. reflexivity.
  - vm_compute. reflexivity.
  - discriminate.
Defined.

(** ** Templates and path parameters *)

Module TemplateFacts.
Import Regex Segments RegexFacts StringFacts.

(** A string is its text before the first slash and then its segments,
    each behind its slash. *)
Lemma split_head_tail path :
  exists seg0 segs,
    JS.split "/" path = seg0 :: segs /\ path = seg0 +:+ slashed segs /\
    no_slash seg0 = true /\ forallb no_slash segs = true.
Proof.
  pose proof (split_not_nil "/" path) as Hne.
  pose proof (split_no_slash path) as Hns.
  pose proof (slashed_split path) as Hs.
  destruct (JS.split "/" path) as [|seg0 segs]; [done|].
  exists seg0, segs. cbn [forallb] in Hns. apply andb_true_iff in Hns as [H0 Hr].
  cbn [slashed] in Hs. injection Hs as Hs. done.
Qed.

Lemma pass_from_head body ci ph seg0 segs :
  forallb (slash_free ci) body = true ->
  no_slash seg0 = true -> forallb no_slash segs = true ->
  replace (Templating.in_path body ci) ("/" +:+ ph) (seg0 +:+ slashed segs)
  = seg0 +:+ slashed (map (fun seg => if test (Templating.whole body ci) seg
                                      then ph else seg) segs).
Proof.
  intros Hbody H0 Hsegs. unfold replace.
  rewrite replace_through by done. by rewrite replace_pass.
Qed.

Lemma placeholder_rule seg : Placeholders.placeholder seg = segment_rule true seg.
Proof.
  unfold Placeholders.placeholder, Placeholders.placeholder_name, segment_rule.
  destruct (digits_shape seg); [done|].
  destruct (uuid_shape seg); [done|].
  by destruct (hex24_shape true seg).
Qed.

(** [OpenAPIGenerator.normalizePath] on any string: the text before the
    first slash stays, every later segment follows the rule. *)
Lemma normalizePath_segments seg0 segs :
  no_slash seg0 = true -> forallb no_slash segs = true ->
  OpenAPIGenerator.normalizePath (seg0 +:+ slashed segs)
  = seg0 +:+ slashed (map Placeholders.placeholder segs).
Proof.
  intros H0 Hsegs.
  rewrite (map_ext _ _ placeholder_rule).
  rewrite (map_ext _ _ (fun seg => eq_sym (segment_template_rule true seg))).
  unfold OpenAPIGenerator.normalizePath.
  change "/{id}" with ("/" +:+ "{id}").
  change "/{uuid}" with ("/" +:+ "{uuid}").
  change "/{objectId}" with ("/" +:+ "{objectId}").
  rewrite !pass_from_head; try reflexivity; try done;
    repeat (apply no_slash_placeholders; [reflexivity|]); try done.
  rewrite !map_map. by rewrite (map_ext _ _ three_passes).
Qed.

(** The same for the one pattern of the service worker's generator. *)
Lemma background_normalizePath_segments seg0 segs :
  no_slash seg0 = true -> forallb no_slash segs = true ->
  BackgroundGenerator.normalizePath (seg0 +:+ slashed segs)
  = seg0 +:+ slashed (map (fun seg => if digits_shape seg then "{id}" else seg) segs).
Proof.
  intros H0 Hsegs. unfold BackgroundGenerator.normalizePath.
  change "/{id}" with ("/" +:+ "{id}").
  rewrite pass_from_head by done. do 2 f_equal.
  apply map_ext. intros seg. by rewrite whole_digits.
Qed.

Lemma placeholder_no_slash seg : no_slash seg = true -> no_slash (Placeholders.placeholder seg) = true.
Proof.
  intros H. unfold Placeholders.placeholder, Placeholders.placeholder_name.
  destruct (digits_shape seg); [done|].
  destruct (uuid_shape seg); [done|].
  by destruct (hex24_shape true seg).
Qed.

Lemma placeholders_no_slash segs :
  forallb no_slash segs = true -> forallb no_slash (map Placeholders.placeholder segs) = true.
Proof.
  induction segs as [|seg r IH]; simpl; [done|].
  intros [Hseg Hr]%andb_true_iff. by rewrite placeholder_no_slash, IH.
Qed.

(** A placeholder has none of the three shapes. *)
Lemma placeholder_twice seg :
  Placeholders.placeholder (Placeholders.placeholder seg) = Placeholders.placeholder seg.
Proof.
  assert (forall n, Placeholders.placeholder_name seg = Some n ->
                    Placeholders.placeholder ("{" +:+ n +:+ "}") = "{" +:+ n +:+ "}") as Hn.
  { unfold Placeholders.placeholder_name. intros n Hn.
    destruct (digits_shape seg); [by injection Hn as <-|].
    destruct (uuid_shape seg); [by injection Hn as <-|].
    destruct (hex24_shape true seg); [by injection Hn as <-|done]. }
  unfold Placeholders.placeholder at 2 3.
  destruct (Placeholders.placeholder_name seg) as [n|] eqn:E; [by apply Hn|].
  unfold Placeholders.placeholder. by rewrite E.
Qed.

Lemma join_cons_slashed seg0 segs : JS.join "/" (seg0 :: segs) = seg0 +:+ slashed segs.
Proof.
  revert seg0. induction segs as [|x t IH]; intros seg0.
  - simpl. by rewrite sapp_nil_r.
  - change (JS.join "/" (seg0 :: x :: t)) with (seg0 +:+ "/" +:+ JS.join "/" (x :: t)).
    by rewrite IH.
Qed.

Lemma param_name_at segments index seg :
  map OpenAPIGenerator.pp_name (OpenAPIGenerator.path_param_at segments index seg)
  = option_list (Placeholders.placeholder_name seg).
Proof.
  unfold OpenAPIGenerator.path_param_at, Placeholders.placeholder_name.
  rewrite whole_digits, whole_uuid, whole_hex24.
  destruct (digits_shape seg); [done|].
  destruct (uuid_shape seg); [done|].
  by destruct (hex24_shape true seg).
Qed.

Lemma param_names_at segments : forall index segs,
  map OpenAPIGenerator.pp_name
      (concat (imap (fun i => OpenAPIGenerator.path_param_at segments (index + i)) segs))
  = omap Placeholders.placeholder_name segs.
Proof.
  intros index segs. revert index.
  induction segs as [|seg r IH]; intros index; [done|].
  cbn [imap concat omap list_omap]. rewrite map_app.
  rewrite (imap_ext _ (fun i => OpenAPIGenerator.path_param_at segments (S index + i)))
    by (intros; unfold compose; f_equal; lia).
  rewrite IH, param_name_at.
  by destruct (Placeholders.placeholder_name seg).
Qed.

Lemma param_types_at segments index seg :
  Forall (fun p => OpenAPIGenerator.pp_type p
                   = if JS.string_eqb (OpenAPIGenerator.pp_name p) "id"
                     then "integer" else "string")
         (OpenAPIGenerator.path_param_at segments index seg).
Proof.
  unfold OpenAPIGenerator.path_param_at.
  repeat match goal with |- context [if ?b then _ else _] => destruct b end;
    repeat constructor.
Qed.

Lemma toLower_toUpper s : JS.toLowerCase (JS.toUpperCase s) = JS.toLowerCase s.
Proof.
  induction s as [|c s IH]; [done|].
  cbn [JS.toLowerCase JS.toUpperCase JS.smap] in *. f_equal; [|exact IH].
  clear. destruct c as [[] [] [] [] [] [] [] []]; vm_compute; reflexivity.
Qed.

(** The two verbs that only the library's table lists get from the
    fallback of the service worker's table what the library's table gives. *)
Lemma methodPrefix_agree method :
  BackgroundGenerator.methodPrefix method = APIAnalyzer.methodPrefix method.
Proof.
  unfold BackgroundGenerator.methodPrefix, APIAnalyzer.methodPrefix.
  cbn [find fst snd]. unfold JS.string_eqb.
  repeat (let E := fresh "E" in case_bool_decide as E; [reflexivity|]; clear E).
  case_bool_decide as E1.
  { rewrite <- toLower_toUpper, <- E1. reflexivity. }
  case_bool_decide as E2.
  { rewrite <- toLower_toUpper, <- E2. reflexivity. }
  reflexivity.
Qed.

End TemplateFacts.

Import Regex Segments RegexFacts StringFacts TemplateFacts.

(** X3.  Templating a template changes nothing: for every string,
    [OpenAPIGenerator.normalizePath] applied twice gives what it gives
    applied once, since none of the three placeholders has one of the
    three identifier shapes. *)
Theorem normalizePath_idempotent (path : string) :
  OpenAPIGenerator.normalizePath (OpenAPIGenerator.normalizePath path)
  = OpenAPIGenerator.normalizePath path.
Proof.
  destruct (split_head_tail path) as (seg0 & segs & _ & -> & H0 & Hsegs).
  rewrite normalizePath_segments by done.
  rewrite normalizePath_segments by (done || by apply placeholders_no_slash).
  rewrite map_map. do 2 f_equal. apply map_ext, placeholder_twice.
Qed.

(** X4.  The path parameters of an operation are the placeholders of its
    template: for a path that begins with a slash, [normalizePath] replaces
    exactly the segments for which [extractPathParameters] pushes a
    parameter, the placeholder is the parameter's name in braces, the
    parameters come in the order of the segments, and a parameter is an
    integer when it is named [id] and a string otherwise. *)
Theorem path_parameters_are_placeholders (pathname : string) :
  JS.startsWith "/" pathname = true ->
  let segments := JS.split "/" pathname in
  OpenAPIGenerator.normalizePath pathname
  = JS.join "/" (map Placeholders.placeholder segments) /\
  map OpenAPIGenerator.pp_name (OpenAPIGenerator.extractPathParameters pathname)
  = omap Placeholders.placeholder_name segments /\
  Forall (fun p => OpenAPIGenerator.pp_type p
                   = if JS.string_eqb (OpenAPIGenerator.pp_name p) "id"
                     then "integer" else "string")
         (OpenAPIGenerator.extractPathParameters pathname).
Proof.
  intros Hslash segments. subst segments. split; [|split].
  - destruct (split_head_tail pathname) as (seg0 & segs & Hsplit & Hpath & H0 & Hsegs).
    rewrite Hsplit. rewrite Hpath at 1.
    rewrite normalizePath_segments by done.
    cbn [map]. rewrite join_cons_slashed. f_equal.
    destruct seg0 as [|c r]; [done|].
    rewrite Hpath in Hslash. cbn [JS.startsWith String.append] in Hslash.
    simpl in H0. destruct (Ascii.eqb "/" c) eqn:Hc; [|done].
    apply Ascii.eqb_eq in Hc as <-. done.
  - unfold OpenAPIGenerator.extractPathParameters.
    apply (param_names_at (JS.split "/" pathname) 0).
  - unfold OpenAPIGenerator.extractPathParameters.
    cbv zeta. apply Forall_concat, Forall_forall. intros l Hl.
    apply list_elem_of_lookup in Hl as [i Hl]. rewrite list_lookup_imap in Hl.
    destruct (JS.split "/" pathname !! i); [|done].
    injection Hl as <-. apply param_types_at.
Qed.

Lemma path_parameters_are_placeholders_witness :
  OpenAPIGenerator.normalizePath "/users/42/posts/7"
  = JS.join "/" (map Placeholders.placeholder (JS.split "/" "/users/42/posts/7")) /\
  map OpenAPIGenerator.pp_name (OpenAPIGenerator.extractPathParameters "/users/42/posts/7")
  = ["id"; "id"].
Proof.
  pose proof (path_parameters_are_placeholders "/users/42/posts/7" eq_refl) as (H1 & H2 & _).
  split; [exact H1 | exact H2].
Defined.

(** X5.  The generator of the service worker knows one identifier shape
    only.  On a string none of whose segments is a UUID or has 24
    hexadecimal characters, its [normalizePath] gives the template of
    [OpenAPIGenerator.normalizePath]. *)
Theorem background_normalizePath_agrees (pathname : string) :
  Forall (fun seg => uuid_shape seg = false /\ hex24_shape true seg = false)
         (JS.split "/" pathname) ->
  BackgroundGenerator.normalizePath pathname = OpenAPIGenerator.normalizePath pathname.
Proof.
  destruct (split_head_tail pathname) as (seg0 & segs & Hsplit & Hpath & H0 & Hsegs).
  rewrite Hsplit. intros Hshapes. apply Forall_cons in Hshapes as [_ Hshapes].
  rewrite Hpath.
  rewrite normalizePath_segments, background_normalizePath_segments by done.
  do 2 f_equal. apply Forall_fmap_ext_1.
  eapply Forall_impl; [exact Hshapes|]. intros seg [Hu Hh]. cbv beta.
  unfold Placeholders.placeholder, Placeholders.placeholder_name.
  rewrite Hu, Hh. by destruct (digits_shape seg).
Qed.

Lemma background_normalizePath_agrees_witness :
  BackgroundGenerator.normalizePath "/users/42/posts"
  = OpenAPIGenerator.normalizePath "/users/42/posts".
Proof.
  apply background_normalizePath_agrees.
  repeat (apply Forall_cons; split; [split; vm_compute; reflexivity|]).
  apply Forall_nil_2.
Defined.

(** X6.  The two generators name operations alike: with the same names
    already given out, [generateUniqueOperationId] of the service worker's
    generator returns the identifier and the cache that the library's
    returns, for every verb and path, although its table lacks HEAD and
    OPTIONS. *)
Theorem background_operationId_agrees (method pathname : string)
    (g : OpenAPIGenerator.Generator) :
  BackgroundGenerator.generateUniqueOperationId method pathname g
  = OpenAPIGenerator.generateUniqueOperationId method pathname g.
Proof.
  unfold BackgroundGenerator.generateUniqueOperationId,
    OpenAPIGenerator.generateUniqueOperationId.
  rewrite methodPrefix_agree. reflexivity.
Qed.

(** ** Servers, counters and statistics *)

Module SortFacts.
Import APIAnalyzer Counting.

Section Sorting.
Context {K : Type}.
Implicit Types (e : K * nat) (m l : list (K * nat)).

Lemma insert_by_count_perm e l : insert_by_count e l ≡ₚ e :: l.
Proof.
  induction l as [|a r IH]; [done|]. cbn [insert_by_count].
  destruct (snd a <=? snd e)%nat; [done|].
  rewrite IH. apply perm_swap.
Qed.

Lemma sort_perm m : sortMapByValue m ≡ₚ m.
Proof.
  induction m as [|e r IH]; [done|].
  cbn [sortMapByValue fold_right]. rewrite insert_by_count_perm.
  by apply perm_skip.
Qed.

Lemma insert_by_count_descending e l :
  descending l -> descending (insert_by_count e l).
Proof.
  induction l as [|a r IH]; intros Hl.
  - cbn. split; [constructor | done].
  - cbn [insert_by_count]. destruct Hl as [Ha Hr].
    destruct (snd a <=? snd e)%nat eqn:E.
    + apply Nat.leb_le in E. cbn [descending]. split_and!; [|done..].
      constructor; [done|]. eapply Forall_impl; [exact Ha|]. cbv beta. lia.
    + apply Nat.leb_gt in E. cbn [descending]. split; [|by apply IH].
      rewrite insert_by_count_perm. constructor; [lia | done].
Qed.

Lemma sort_descending m : descending (sortMapByValue m).
Proof.
  induction m as [|e r IH]; [done|].
  by apply insert_by_count_descending.
Qed.

Lemma insert_by_count_stable c e l :
  with_count c (insert_by_count e l) = with_count c (e :: l).
Proof.
  unfold with_count. induction l as [|a r IH]; [done|].
  cbn [insert_by_count]. destruct (snd a <=? snd e)%nat eqn:E; [done|].
  apply Nat.leb_gt in E. rewrite filter_cons, IH, !filter_cons.
  repeat case_decide; try done; lia.
Qed.

Lemma sort_stable c m : with_count c (sortMapByValue m) = with_count c m.
Proof.
  induction m as [|e r IH]; [done|].
  cbn [sortMapByValue fold_right]. rewrite insert_by_count_stable.
  unfold with_count in *. rewrite !filter_cons. fold (sortMapByValue r).
  by rewrite IH.
Qed.

Lemma total_perm m m' : m ≡ₚ m' -> total m = total m'.
Proof.
  unfold total. induction 1; cbn [fold_right]; lia.
Qed.

Lemma total_app m m' : total (m ++ m') = total m + total m'.
Proof. unfold total. induction m; cbn [fold_right app]; lia. Qed.

End Sorting.

(** *** Counters *)

Lemma count_of_count_up k k' m :
  count_of k (count_up k' m) = count_of k m + (if JS.string_eqb k k' then 1 else 0).
Proof.
  unfold JS.string_eqb.
  induction m as [|[k0 n] r IH].
  - cbn. unfold JS.string_eqb. case_bool_decide; done.
  - cbn [count_up count_of]. unfold JS.string_eqb in *.
    repeat (case_bool_decide; cbn [count_of]; unfold JS.string_eqb in *);
      subst; try done; try lia.
Qed.

Lemma total_count_up k m : total (count_up k m) = S (total m).
Proof.
  unfold total. induction m as [|[k0 n] r IH]; [done|].
  cbn [count_up]. destruct (JS.string_eqb k k0); cbn [fold_right fst snd] in *; lia.
Qed.

Lemma keys_count_up k m :
  map fst (count_up k m) = set_add k (map fst m).
Proof.
  unfold set_add. induction m as [|[k0 n] r IH].
  - cbn. rewrite bool_decide_eq_false_2; [done | apply not_elem_of_nil].
  - cbn [count_up map fst]. unfold JS.string_eqb.
    destruct (decide (k = k0)) as [->|Hne].
    + rewrite (bool_decide_eq_true_2 (k0 = k0)) by done. cbn [map fst].
      rewrite bool_decide_eq_true_2 by (apply elem_of_cons; by left). done.
    + rewrite (bool_decide_eq_false_2 (k = k0)) by done. cbn [map fst]. rewrite IH.
      destruct (decide (k ∈ map fst r)) as [Hin|Hin].
      * rewrite (bool_decide_eq_true_2 (k ∈ map fst r)) by done.
        rewrite bool_decide_eq_true_2 by (apply elem_of_cons; by right). done.
      * rewrite (bool_decide_eq_false_2 (k ∈ map fst r)) by done.
        rewrite bool_decide_eq_false_2; [done|].
        intros [?|?]%elem_of_cons; done.
Qed.

Lemma count_of_elem k n m :
  NoDup (map fst m) -> (k, n) ∈ m -> count_of k m = n.
Proof.
  induction m as [|[k0 n0] r IH]; intros Hnd Hin.
  - by apply elem_of_nil in Hin.
  - cbn [map fst] in Hnd. apply NoDup_cons in Hnd as [Hk0 Hnd].
    cbn [count_of]. unfold JS.string_eqb. apply elem_of_cons in Hin as [Heq|Hin].
    + injection Heq as -> ->. by rewrite bool_decide_eq_true_2.
    + rewrite bool_decide_eq_false_2; [by apply IH|].
      intros ->. apply Hk0. apply list_elem_of_fmap. by exists (k0, n).
Qed.

Lemma count_of_absent k m : k ∉ map fst m -> count_of k m = 0.
Proof.
  induction m as [|[k0 n0] r IH]; intros Hk; [done|].
  cbn [map fst] in Hk. apply not_elem_of_cons in Hk as [Hne Hk].
  cbn [count_of]. unfold JS.string_eqb. rewrite bool_decide_eq_false_2 by done.
  by apply IH.
Qed.

Lemma count_of_perm k m m' :
  NoDup (map fst m) -> m ≡ₚ m' -> count_of k m = count_of k m'.
Proof.
  intros Hnd Hp.
  assert (NoDup (map fst m')) as Hnd' by (by rewrite <- Hp).
  destruct (decide (k ∈ map fst m)) as [Hk|Hk].
  - apply list_elem_of_fmap in Hk as ([k0 n] & -> & Hin). cbn [fst].
    rewrite (count_of_elem k0 n m) by done.
    symmetry. apply count_of_elem; [done|]. by rewrite <- Hp.
  - rewrite count_of_absent by done. symmetry. apply count_of_absent.
    by rewrite <- Hp.
Qed.

(** A [Map] of counters filled by a loop. *)
Lemma counters_filled {E : Type} (f : E -> string) (l : list E) : forall m,
  NoDup (map fst m) ->
  let m' := fold_left (fun m e => count_up (f e) m) l m in
  NoDup (map fst m') /\
  total m' = total m + length l /\
  forall k, count_of k m' = count_of k m + length (filter (fun e => f e = k) l).
Proof.
  induction l as [|e r IH]; intros m Hnd; cbn [fold_left].
  - cbn. split_and!; [done | lia | intros; lia].
  - destruct (IH (count_up (f e) m)) as (H1 & H2 & H3).
    { rewrite keys_count_up. by apply SetFacts.set_add_NoDup. }
    split_and!; [done | |].
    + rewrite H2, total_count_up. cbn [length]. lia.
    + intros k. rewrite H3, count_of_count_up, filter_cons. unfold JS.string_eqb.
      case_bool_decide; case_decide; subst; cbn [length]; try done; lia.
Qed.

Lemma fold_stats_methods new_URL l : forall st,
  st_methods (fold_left (stats_step new_URL) l st)
  = fold_left (fun m e => count_up (method e) m) l (st_methods st).
Proof. induction l as [|e r IH]; intros st; [done|]. cbn [fold_left]. by rewrite IH. Qed.

Lemma fold_stats_statusCodes new_URL l : forall st,
  st_statusCodes (fold_left (stats_step new_URL) l st)
  = fold_left (fun m e => count_up (status_key (status e)) m) l (st_statusCodes st).
Proof. induction l as [|e r IH]; intros st; [done|]. cbn [fold_left]. by rewrite IH. Qed.

Lemma fold_stats_total new_URL l : forall st,
  totalEndpoints (fold_left (stats_step new_URL) l st) = totalEndpoints st.
Proof. induction l as [|e r IH]; intros st; [done|]. cbn [fold_left]. by rewrite IH. Qed.

(** *** Decimal numerals *)

Lemma pretty_N_char_digit x : Segments.is_digit (pretty_N_char x) = true.
Proof.
  unfold pretty_N_char.
  repeat (match goal with |- context [match ?y with _ => _ end] => destruct y end;
          try reflexivity).
Qed.

Lemma pretty_N_go_digits x : forall s,
  Segments.all_chars Segments.is_digit s = true ->
  Segments.all_chars Segments.is_digit (pretty_N_go x s) = true.
Proof.
  induction (N.lt_wf_0 x) as [x _ IH]. intros s Hs.
  destruct (decide (x = 0)%N) as [->|Hx].
  - by rewrite pretty_N_go_0.
  - rewrite pretty_N_go_step by lia. apply IH.
    + apply N.div_lt; lia.
    + cbn [Segments.all_chars]. by rewrite pretty_N_char_digit, Hs.
Qed.

Lemma ofNat_digits n : Segments.all_chars Segments.is_digit (JS.ofNat n) = true.
Proof.
  unfold JS.ofNat, pretty, pretty_nat, pretty, pretty_N.
  case_decide; [reflexivity|]. by apply pretty_N_go_digits.
Qed.

Lemma status_key_inj a b : status_key a = status_key b -> a = b.
Proof.
  destruct a as [n|], b as [m|]; cbn [status_key]; intros H.
  - f_equal. unfold JS.ofNat in H. by apply (inj pretty) in H.
  - pose proof (ofNat_digits n) as Hd. rewrite H in Hd. discriminate.
  - pose proof (ofNat_digits m) as Hd. rewrite <- H in Hd. discriminate.
  - done.
Qed.

End SortFacts.

Import APIAnalyzer Counting SortFacts.

(** X7.  The list of servers of a document, for every base URL and every
    list of observations: the base URL comes first, no URL is listed twice,
    a listed URL is the base URL or the origin of an observation whose URL
    parses, the origins keep the order of their first observation, and an
    origin is left out only when it is the base URL or the only origin. *)
Theorem generateServers_shape (new_URL : string -> option URL.t) (baseURL : string)
    (endpoints : list Endpoint) :
  let origins :=
    distinct (omap (fun e => URL.origin <$> new_URL (url e)) endpoints) in
  let servers := OpenAPIGenerator.generateServers new_URL baseURL endpoints in
  head servers = Some baseURL /\
  NoDup servers /\
  tail servers `sublist_of` origins /\
  (forall o, o ∈ servers <-> o = baseURL \/ (o ∈ origins /\ 1 < length origins)).
Proof.
  intros origins servers.
  pose proof (SetFacts.distinct_NoDup
                (omap (fun e => URL.origin <$> new_URL (url e)) endpoints)) as Hnd.
  fold origins in Hnd.
  unfold servers, OpenAPIGenerator.generateServers.
  rewrite ServerFacts.origins_truthy. fold origins. cbn [app head tail].
  destruct (1 <? length origins)%nat eqn:Hlen.
  - apply Nat.ltb_lt in Hlen. split_and!; [done | | |].
    + apply NoDup_cons. split; [|by apply NoDup_filter].
      intros [H _]%list_elem_of_filter. done.
    + apply sublist_filter.
    + intros o. rewrite elem_of_cons, list_elem_of_filter.
      destruct (decide (o = baseURL)) as [->|Hne]; [tauto|]. tauto.
  - apply Nat.ltb_ge in Hlen. split_and!; [done | apply NoDup_singleton | apply sublist_nil_l |].
    intros o. rewrite list_elem_of_singleton. split; [tauto|]. intros [?|[_ ?]]; [done|lia].
Qed.

(** X8.  [sortMapByValue] returns the entries it is given, by counts that
    never go up, and entries with the same count keep the order in which
    the [Map] had them. *)
Theorem sortMapByValue_stable_descending {K : Type} (m : list (K * nat)) :
  sortMapByValue m ≡ₚ m /\
  descending (sortMapByValue m) /\
  forall c, with_count c (sortMapByValue m) = with_count c m.
Proof.
  split_and!; [apply sort_perm | apply sort_descending | intros; apply sort_stable].
Qed.

(** X9.  The statistics count every observation once, whether or not its
    URL parses: for each verb as it was observed, the entry of [methods]
    is the number of observations with that verb, for each status the
    entry of [statusCodes] is the number of observations with that status,
    an absent entry standing for none; the counts of each of the two
    tables add up to [totalEndpoints], the number of observations. *)
Theorem statistics_count_observations (new_URL : string -> option URL.t)
    (endpoints : list Endpoint) :
  let stats := generateStatistics new_URL endpoints in
  (forall verb, count_of verb (st_methods stats)
                = length (filter (fun e => method e = verb) endpoints)) /\
  (forall code, count_of (status_key code) (st_statusCodes stats)
                = length (filter (fun e => status e = code) endpoints)) /\
  total (st_methods stats) = length endpoints /\
  total (st_statusCodes stats) = length endpoints /\
  totalEndpoints stats = length endpoints.
Proof.
  intros stats. unfold stats, generateStatistics.
  cbn [st_methods st_statusCodes totalEndpoints].
  rewrite fold_stats_methods, fold_stats_statusCodes, fold_stats_total.
  cbn [st_methods st_statusCodes totalEndpoints].
  destruct (counters_filled method endpoints [] (NoDup_nil_2 (A:=string))) as (M1 & M2 & M3).
  destruct (counters_filled (fun e => status_key (status e)) endpoints []
              (NoDup_nil_2 (A:=string))) as (S1 & S2 & S3).
  cbv zeta in *. split_and!.
  - intros verb.
    rewrite <- (count_of_perm verb _ (sortMapByValue _) M1) by (symmetry; apply sort_perm).
    by rewrite M3.
  - intros code.
    rewrite <- (count_of_perm (status_key code) _ (sortMapByValue _) S1)
      by (symmetry; apply sort_perm).
    rewrite S3. cbn [count_of]. rewrite Nat.add_0_l. f_equal. apply list_filter_iff.
    intros e. split; [apply status_key_inj | by intros ->].
  - rewrite (total_perm _ _ (sort_perm _)). by rewrite M2.
  - rewrite (total_perm _ _ (sort_perm _)). by rewrite S2.
  - done.
Qed.

(** ** Groups of the analysis *)

Module GroupFacts.
Import APIAnalyzer AnalyzerFacts Counting SortFacts.

Lemma for_each_ok {S E : Type} (step : S -> E -> result S) (P : E -> Prop) (l : list E) :
  (forall s e, P e -> exists s', step s e = Ok s') ->
  Forall P l -> forall s, exists s', for_each step l s = Ok s'.
Proof.
  intros Hstep. induction 1 as [|e r He Hr IH]; intros s; cbn [for_each].
  - by eexists.
  - destruct (Hstep s e He) as [s' ->]. cbn [rbind]. apply IH.
Qed.

Lemma group_step_ok new_URL groups e :
  is_Some (new_URL (url e)) -> exists groups', group_step new_URL groups e = Ok groups'.
Proof.
  intros [u Hu]. unfold group_step, getEndpointGroupKey, extractEndpointPattern.
  rewrite Hu. cbn [rbind]. destruct (existsb _ groups); cbn [rbind]; by eexists.
Qed.

Lemma common_step_ok new_URL c e :
  is_Some (new_URL (url e)) -> exists c', common_step new_URL c e = Ok c'.
Proof.
  intros [u Hu]. unfold common_step, extractEndpointPattern.
  rewrite Hu. cbn [rbind]. by eexists.
Qed.

Lemma existsb_key key (groups : list (string * Group)) :
  existsb (fun kg => JS.string_eqb key (fst kg)) groups = true <-> key ∈ map fst groups.
Proof.
  rewrite existsb_exists, list_elem_of_fmap. unfold JS.string_eqb.
  split.
  - intros (kg & Hin & Hk). apply bool_decide_eq_true_1 in Hk.
    exists kg. split; [done|]. by apply list_elem_of_In.
  - intros (kg & -> & Hin). exists kg. split; [by apply list_elem_of_In|].
    by apply bool_decide_eq_true_2.
Qed.

Lemma update_group_present key f (groups : list (string * Group)) :
  key ∈ map fst groups ->
  exists l1 g l2, groups = l1 ++ (key, g) :: l2 /\
                  update_group key f groups = l1 ++ (key, f g) :: l2.
Proof.
  induction groups as [|[k g] r IH]; intros Hin.
  - by apply elem_of_nil in Hin.
  - cbn [update_group]. unfold JS.string_eqb. case_bool_decide as E.
    + subst. by exists [], g, r.
    + cbn [map fst] in Hin. apply elem_of_cons in Hin as [?|Hin]; [done|].
      destruct (IH Hin) as (l1 & g' & l2 & -> & ->).
      by exists ((k, g) :: l1), g', l2.
Qed.

Lemma update_group_absent key f (groups : list (string * Group)) g :
  key ∉ map fst groups ->
  update_group key f (groups ++ [(key, g)]) = groups ++ [(key, f g)].
Proof.
  induction groups as [|[k g0] r IH]; intros Hk.
  - cbn. unfold JS.string_eqb. by rewrite bool_decide_eq_true_2.
  - cbn [map fst] in Hk. apply not_elem_of_cons in Hk as [Hne Hk].
    cbn [app update_group]. unfold JS.string_eqb.
    rewrite bool_decide_eq_false_2 by done. by rewrite IH.
Qed.

(** What the loop of [groupEndpointsByPattern] keeps true of the [Map]
    of groups: the keys are distinct, the groups hold the observations
    seen so far, each group is not empty and holds observations of its
    key only. *)
Lemma group_step_keeps new_URL groups processed e groups' :
  NoDup (map fst groups) ->
  concat (map (fun kg => endpoints (snd kg)) groups) ≡ₚ processed ->
  Forall (fun kg => endpoints (snd kg) <> [] /\
                    Forall (fun e => getEndpointGroupKey new_URL e = Ok (fst kg))
                           (endpoints (snd kg))) groups ->
  group_step new_URL groups e = Ok groups' ->
  NoDup (map fst groups') /\
  concat (map (fun kg => endpoints (snd kg)) groups') ≡ₚ processed ++ [e] /\
  Forall (fun kg => endpoints (snd kg) <> [] /\
                    Forall (fun e => getEndpointGroupKey new_URL e = Ok (fst kg))
                           (endpoints (snd kg))) groups'.
Proof.
  intros Hnd Hperm Hall. unfold group_step.
  destruct (getEndpointGroupKey new_URL e) as [key|] eqn:Ek; [|discriminate].
  cbn [rbind].
  destruct (existsb (fun kg => JS.string_eqb key (fst kg)) groups) eqn:Ex.
  - cbn [rbind]. destruct (extractEndpointPattern new_URL e); [|discriminate].
    cbn [rbind]. intros [= <-].
    apply existsb_key in Ex.
    edestruct (update_group_present key) as (l1 & g & l2 & Hg & ->); [exact Ex|].
    subst groups. rewrite !map_app in *. cbn [map fst snd endpoints] in *.
    rewrite !concat_app in *. cbn [concat] in *.
    split_and!; [done | |].
    + rewrite <- Hperm, <- !app_assoc. do 2 apply Permutation_app_head.
      apply (Permutation_app_comm [e]).
    + apply Forall_app in Hall as [H1 H2]. apply Forall_cons in H2 as [[_ Hg] H2].
      apply Forall_app. split; [done|]. apply Forall_cons. split; [|done].
      cbn [fst snd endpoints] in *. split; [by destruct (endpoints g)|].
      apply Forall_app. split; [done|]. by apply Forall_singleton.
  - assert (key ∉ map fst groups) as Hk.
    { intros Hin%existsb_key. congruence. }
    destruct (new_URL (url e)); [|discriminate]. cbn [rbind].
    destruct (extractEndpointPattern new_URL e); [|discriminate].
    cbn [rbind]. intros [= <-].
    rewrite update_group_absent by done.
    rewrite !map_app, concat_app. cbn [map fst snd endpoints concat app].
    split_and!.
    + apply NoDup_app. split_and!; [done | | apply NoDup_singleton].
      intros y Hy ->%list_elem_of_singleton. done.
    + by apply Permutation_app_tail.
    + apply Forall_app. split; [done|]. apply Forall_singleton.
      cbn [fst snd endpoints]. split; [done|]. by apply Forall_singleton.
Qed.

Lemma for_each_group_keeps new_URL eps : forall groups processed final,
  NoDup (map fst groups) ->
  concat (map (fun kg => endpoints (snd kg)) groups) ≡ₚ processed ->
  Forall (fun kg => endpoints (snd kg) <> [] /\
                    Forall (fun e => getEndpointGroupKey new_URL e = Ok (fst kg))
                           (endpoints (snd kg))) groups ->
  for_each (group_step new_URL) eps groups = Ok final ->
  NoDup (map fst final) /\
  concat (map (fun kg => endpoints (snd kg)) final) ≡ₚ processed ++ eps /\
  Forall (fun kg => endpoints (snd kg) <> [] /\
                    Forall (fun e => getEndpointGroupKey new_URL e = Ok (fst kg))
                           (endpoints (snd kg))) final.
Proof.
  induction eps as [|e r IH]; intros groups processed final Hnd Hperm Hall.
  - cbn [for_each]. intros [= <-]. by rewrite app_nil_r.
  - cbn [for_each].
    destruct (group_step new_URL groups e) as [groups'|] eqn:E; [|discriminate].
    cbn [rbind]. intros Hfinal.
    destruct (group_step_keeps _ _ _ _ _ Hnd Hperm Hall E) as (H1 & H2 & H3).
    destruct (IH _ _ _ H1 H2 H3 Hfinal) as (F1 & F2 & F3).
    split_and!; [done | | done]. by rewrite F2, <- app_assoc.
Qed.

Lemma total_lengths (labelled : list (string * Group)) :
  total (map (fun kg => (snd kg, length (endpoints (snd kg)))) labelled)
  = length (concat (map (fun kg => endpoints (snd kg)) labelled)).
Proof.
  unfold total. induction labelled as [|kg r IH]; [done|].
  cbn [map fold_right concat snd]. rewrite length_app. cbn [snd] in IH. lia.
Qed.

End GroupFacts.

Import APIAnalyzer Counting SortFacts GroupFacts.

(** X10.  The analysis returns a result exactly when the URL of every
    observation parses; an empty list is analysed too. *)
Theorem analysis_succeeds_iff_urls_parse (new_URL : string -> option URL.t)
    (eps : list Endpoint) :
  (exists analysis, analyzeEndpoints new_URL eps = Ok analysis)
  <-> Forall (fun e => is_Some (new_URL (url e))) eps.
Proof.
  split.
  - intros [analysis Ha].
    destruct (decide (Forall (fun e => is_Some (new_URL (url e))) eps)) as [|Hno]; [done|].
    apply not_Forall_Exists in Hno; [|apply _].
    apply Exists_exists in Hno as (e & He & Hbad).
    apply eq_None_not_Some in Hbad.
    rewrite (AnalyzerFacts.analyzeEndpoints_throws new_URL eps e He Hbad) in Ha.
    discriminate.
  - intros Hall. unfold analyzeEndpoints.
    destruct eps as [|e r]; [by eexists|].
    unfold groupEndpointsByPattern, extractCommonPatterns.
    destruct (for_each_ok (group_step new_URL) _ (e :: r)
                (fun s e => group_step_ok new_URL s e) Hall []) as [groups ->].
    cbn [rbind].
    edestruct (for_each_ok (common_step new_URL) _ (e :: r)
                (fun s e => common_step_ok new_URL s e) Hall) as [c ->].
    cbn [rbind]. by eexists.
Qed.

(** X11.  When the grouping returns, its groups split the observations:
    every observation is in one group, so the counts add up to the number
    of observations; [endpointCount] is the size of the group and is not
    zero; the groups come by counts that never go up; the observations of
    one group have one grouping key, and observations of two groups have
    different keys. *)
Theorem groups_partition_observations (new_URL : string -> option URL.t)
    (eps : list Endpoint) (groups : list (Group * nat)) :
  groupEndpointsByPattern new_URL eps = Ok groups ->
  concat (map (fun gn => endpoints (fst gn)) groups) ≡ₚ eps /\
  total groups = length eps /\
  Forall (fun gn => snd gn = length (endpoints (fst gn)) /\ 0 < snd gn) groups /\
  descending groups /\
  Forall (fun gn => exists key,
            Forall (fun e => getEndpointGroupKey new_URL e = Ok key)
                   (endpoints (fst gn))) groups /\
  (forall i j gi gj ei ej,
     groups !! i = Some gi -> groups !! j = Some gj ->
     ei ∈ endpoints (fst gi) -> ej ∈ endpoints (fst gj) ->
     getEndpointGroupKey new_URL ei = getEndpointGroupKey new_URL ej -> i = j).
Proof.
  unfold groupEndpointsByPattern.
  destruct (for_each (group_step new_URL) eps []) as [labelled|] eqn:E; [|discriminate].
  cbn [rbind]. intros [= <-].
  destruct (for_each_group_keeps new_URL eps [] [] labelled) as (Hnd & Hperm & Hall);
    [apply NoDup_nil_2 | done | apply Forall_nil_2 | done |].
  cbn [app] in Hperm.
  set (f := fun kg : string * Group => (snd kg, length (endpoints (snd kg)))) in *.
  pose proof (sort_perm (map f labelled)) as Hsort.
  destruct (Permutation_map_inv _ _ Hsort) as (sorted & Hsorted & Hp).
  assert (NoDup (map fst sorted)) as Hnd' by (by rewrite <- Hp).
  assert (Forall (fun kg => endpoints (snd kg) <> [] /\
                    Forall (fun e => getEndpointGroupKey new_URL e = Ok (fst kg))
                           (endpoints (snd kg))) sorted) as Hall'
    by (by rewrite <- Hp).
  split_and!.
  - rewrite Hsorted, map_map. unfold f. cbn [fst]. by rewrite <- Hperm, Hp.
  - rewrite (total_perm _ _ Hsort). unfold f. rewrite total_lengths.
    by rewrite Hperm.
  - rewrite Hsorted. apply Forall_fmap. eapply Forall_impl; [exact Hall'|].
    intros [k g] [Hne _]. unfold compose, f. cbn [fst snd] in *. split; [reflexivity|].
    destruct (endpoints g); [done|cbn; lia].
  - apply sort_descending.
  - rewrite Hsorted. apply Forall_fmap. eapply Forall_impl; [exact Hall'|].
    intros [k g] [_ Hk]. unfold compose, f. cbn [fst snd] in *. by exists k.
  - rewrite Hsorted. intros i j gi gj ei ej Hi Hj Hei Hej Hkey.
    rewrite list_lookup_fmap in Hi, Hj.
    destruct (sorted !! i) as [[ki g1]|] eqn:Ei; [|done].
    destruct (sorted !! j) as [[kj g2]|] eqn:Ej; [|done].
    injection Hi as <-. injection Hj as <-. cbn [f fst snd] in *.
    rewrite Forall_forall in Hall'.
    destruct (Hall' _ (list_elem_of_lookup_2 _ _ _ Ei)) as [_ H1].
    destruct (Hall' _ (list_elem_of_lookup_2 _ _ _ Ej)) as [_ H2].
    rewrite Forall_forall in H1, H2. cbn [fst snd] in *.
    rewrite (H1 _ Hei), (H2 _ Hej) in Hkey. injection Hkey as ->.
    apply (NoDup_lookup (map fst sorted) i j kj); [done | |];
      rewrite list_lookup_fmap; [by rewrite Ei | by rewrite Ej].
Qed.

Lemma groups_partition_observations_witness :
  exists groups,
    groupEndpointsByPattern URL.parse MoreScenarios.two_default_origins = Ok groups /\
    total groups = length MoreScenarios.two_default_origins.
Proof.
  eexists. split; [vm_compute; reflexivity|].
  refine (proj1 (proj2 (groups_partition_observations URL.parse _ _ _))).
  vm_compute. reflexivity.
Defined.

(** ** Redaction *)

Module RedactionFacts.
Import Utils Confidentiality SanitizeFacts.

Lemma sensitive_app e1 e2 key :
  sensitive (e1 ++ e2) key = sensitive e1 key || sensitive e2 key.
Proof.
  unfold sensitive, is_sensitive. rewrite !existsb_app.
  destruct (existsb _ defaultSensitiveKeys), (existsb _ e1); done.
Qed.

(** The redaction only depends on which keys are sensitive. *)
Lemma sanitize_ext data : forall e1 e2,
  (forall key, sensitive e1 key = sensitive e2 key) ->
  sanitizeSensitiveData data e1 = sanitizeSensitiveData data e2.
Proof.
  induction data as [x|items IH|entries IH] using value_rect'; intros e1 e2 He; [done| |].
  - rewrite !sanitize_array. f_equal.
    induction IH as [|item r Hitem _ IHr]; [done|]. cbn [map]. f_equal; [by apply Hitem|done].
  - rewrite !sanitize_object. f_equal.
    induction IH as [|[k v] r Hv _ IHr]; [done|]. cbn [omap list_omap fst snd] in *.
    destruct (JS.is_proto k); [done|].
    f_equal; [|done]. f_equal. rewrite He. destruct (sensitive e2 k); [done|]. by apply Hv.
Qed.

Lemma sanitize_twice data : forall e1 e2,
  sanitizeSensitiveData (sanitizeSensitiveData data e1) e2
  = sanitizeSensitiveData data (e1 ++ e2).
Proof.
  induction data as [x|items IH|entries IH] using value_rect'; intros e1 e2; [done| |].
  - rewrite !sanitize_array, map_map. f_equal.
    induction IH as [|item r Hitem _ IHr]; [done|]. cbn [map]. f_equal; [apply Hitem|done].
  - rewrite !sanitize_object. f_equal.
    induction IH as [|[k v] r Hv _ IHr]; [done|]. cbn [omap list_omap fst snd] in *.
    destruct (JS.is_proto k) eqn:Hk; [done|].
    cbn [omap list_omap fst snd]. rewrite Hk.
    f_equal; [|done]. f_equal. rewrite sensitive_app.
    destruct (sensitive e1 k); cbn [orb].
    + by destruct (sensitive e2 k).
    + destruct (sensitive e2 k); [done|]. apply Hv.
Qed.

(** *** The headers of [Utils.sanitizeHeaders] *)

Lemma sanitizeHeaders_snoc headers header :
  sanitizeHeaders (headers ++ [header])
  = JS.set_property (fst header)
      (if isSensitiveHeader (JS.toLowerCase (fst header))
       then "[REDACTED]" else snd header) (sanitizeHeaders headers).
Proof.
  unfold sanitizeHeaders. rewrite fold_left_app. cbn [fold_left].
  by destruct (isSensitiveHeader _).
Qed.

(** *** The headers the service worker stores *)

Lemma assign_elem k v o kv :
  kv ∈ Background.assign k v o -> kv = (k, v) \/ kv ∈ o.
Proof.
  induction o as [|[k' v'] r IH]; cbn [Background.assign].
  - intros ->%list_elem_of_singleton. by left.
  - destruct (JS.string_eqb k k').
    + intros [->|H]%elem_of_cons; [by left|]. right. by apply elem_of_cons; right.
    + intros [->|H]%elem_of_cons; [right; by apply elem_of_cons; left|].
      destruct (IH H) as [?|?]; [by left|]. right. by apply elem_of_cons; right.
Qed.

Lemma spread_elem pairs : forall o kv,
  kv ∈ BackgroundScript.spread o pairs -> kv ∈ o \/ kv ∈ pairs.
Proof.
  unfold BackgroundScript.spread.
  induction pairs as [|[k v] r IH]; intros o kv; cbn [fold_left fst snd].
  - by left.
  - intros [H|H]%IH.
    + apply assign_elem in H as [->|H]; [right; by apply elem_of_cons; left | by left].
    + right. by apply elem_of_cons; right.
Qed.

Lemma sanitizeHeaders_redacts headers name value :
  (name, value) ∈ BackgroundScript.sanitizeHeaders headers ->
  BackgroundScript.is_sensitive name = true -> value = "[REDACTED]".
Proof.
  destruct headers as [hs|]; cbn [BackgroundScript.sanitizeHeaders].
  - intros [H|H]%spread_elem; [by apply elem_of_nil in H|].
    apply list_elem_of_fmap in H as ([n v] & [= -> ->] & _). cbn [fst snd].
    by intros ->.
  - by intros ?%elem_of_nil.
Qed.

Lemma updateEndpointHeaders_keeps url_ hs eps :
  (forall name value, (name, value) ∈ hs ->
     BackgroundScript.is_sensitive name = true -> value = "[REDACTED]") ->
  Forall BackgroundScript.headers_redacted eps ->
  Forall BackgroundScript.headers_redacted
         (BackgroundScript.updateEndpointHeaders url_ hs eps).
Proof.
  intros Hhs. induction 1 as [|e r He Hr IH]; cbn [BackgroundScript.updateEndpointHeaders].
  - constructor.
  - destruct (JS.string_eqb (url e) url_).
    + constructor; [|done]. intros name value. cbn [headers default].
      intros [H|H]%spread_elem; [by apply He | by apply Hhs].
    + by constructor.
Qed.

Lemma created_endpoint_redacted new_URL d e :
  Background.createEndpointFromRequest new_URL d = Ok e ->
  BackgroundScript.headers_redacted e.
Proof.
  unfold Background.createEndpointFromRequest.
  destruct (new_URL (Background.d_url d)); [|discriminate].
  intros [= <-] name value. cbn. by intros ?%elem_of_nil.
Qed.

Lemma step_keeps new_URL s ev :
  Forall BackgroundScript.headers_redacted (BackgroundScript.endpoints s) ->
  Forall BackgroundScript.headers_redacted
         (BackgroundScript.endpoints (BackgroundScript.step new_URL s ev)).
Proof.
  intros Hs. destruct ev as [| | |r|r]; cbn [BackgroundScript.step BackgroundScript.endpoints].
  - done.
  - done.
  - constructor.
  - unfold BackgroundScript.handleWebRequest.
    destruct (negb _ || negb _); [done|].
    destruct (Background.createEndpointFromRequest new_URL _) as [e|] eqn:E; [|done].
    cbn [BackgroundScript.endpoints]. apply Forall_app. split; [done|].
    apply Forall_singleton. by eapply created_endpoint_redacted.
  - unfold BackgroundScript.handleRequestHeaders.
    destruct (negb _ || negb _); [done|].
    cbn [BackgroundScript.endpoints].
    apply updateEndpointHeaders_keeps; [|done].
    intros name value. apply sanitizeHeaders_redacts.
Qed.

End RedactionFacts.

Import Utils Confidentiality SanitizeFacts RedactionFacts.

(** X12.  Redacting with one list of extra keys and then with another is
    redacting once with both lists; so redacting again with the same keys
    changes nothing. *)
Theorem sanitizeSensitiveData_composes (data : value) (extra1 extra2 : list string) :
  sanitizeSensitiveData (sanitizeSensitiveData data extra1) extra2
  = sanitizeSensitiveData data (extra1 ++ extra2) /\
  sanitizeSensitiveData (sanitizeSensitiveData data extra1) extra1
  = sanitizeSensitiveData data extra1.
Proof.
  split; [apply sanitize_twice|].
  rewrite sanitize_twice. apply sanitize_ext. intros key.
  rewrite sensitive_app. by destruct (sensitive extra1 key).
Qed.

(** X13.  [Utils.sanitizeHeaders] keeps one entry for each header name of
    the array other than [__proto__], under which it keeps none; under a
    name whose lower-cased form holds one of the sensitive words the entry
    is ["[REDACTED]"], under any other name it is the value of the last
    header of that name. *)
Theorem sanitizeHeaders_entries (headers : list (string * string)) (name : string) :
  sanitizeHeaders headers !! name
  = if bool_decide (name = "__proto__") then None
    else (fun header => if isSensitiveHeader (JS.toLowerCase name)
                        then "[REDACTED]" else snd header)
           <$> last (filter (fun header => fst header = name) headers).
Proof.
  induction headers as [|header headers IH] using rev_ind;
    [by case_bool_decide|].
  rewrite sanitizeHeaders_snoc, filter_app, filter_cons, filter_nil.
  unfold JS.set_property, JS.is_proto, JS.string_eqb.
  destruct (decide (name = "__proto__")) as [Hp|Hp].
  - rewrite (bool_decide_eq_true_2 (name = "__proto__")) in * by done.
    destruct (decide (fst header = "__proto__")) as [Hh|Hh].
    + by rewrite (bool_decide_eq_true_2 (fst header = "__proto__")) by done.
    + rewrite (bool_decide_eq_false_2 (fst header = "__proto__")) by done.
      rewrite lookup_insert_ne by congruence. exact IH.
  - rewrite (bool_decide_eq_false_2 (name = "__proto__")) in * by done.
    destruct (decide (fst header = name)) as [<-|Hne].
    + rewrite (bool_decide_eq_false_2 (fst header = "__proto__")) by done.
      by rewrite lookup_insert_eq, last_snoc.
    + rewrite app_nil_r.
      destruct (decide (fst header = "__proto__")) as [Hh|Hh].
      * by rewrite (bool_decide_eq_true_2 (fst header = "__proto__")) by done.
      * rewrite (bool_decide_eq_false_2 (fst header = "__proto__")) by done.
        by rewrite lookup_insert_ne.
Qed.

(** X14.  Every header name that the service worker redacts, the library
    redacts too: a name whose lower-case form is in the list of
    [sanitizeHeaders] of background.js satisfies [Utils.isSensitiveHeader],
    and its key is sensitive for [Utils.sanitizeSensitiveData] whatever the
    extra keys. *)
Theorem background_redaction_within_library (name : string) (extra : list string) :
  BackgroundScript.is_sensitive name = true ->
  isSensitiveHeader (JS.toLowerCase name) = true /\ sensitive extra name = true.
Proof.
  unfold BackgroundScript.is_sensitive. intros H%bool_decide_eq_true_1.
  unfold sensitive, is_sensitive. rewrite existsb_app.
  unfold BackgroundScript.sensitive in H.
  repeat (apply elem_of_cons in H as [->|H]; [split; vm_compute; reflexivity|]).
  by apply elem_of_nil in H.
Qed.

Lemma background_redaction_within_library_witness :
  isSensitiveHeader (JS.toLowerCase "Authorization") = true /\
  sensitive [] "Authorization" = true.
Proof. apply background_redaction_within_library. reflexivity. Defined.

(** X15.  The service worker never stores the value of a sensitive
    header: if every stored observation has ["[REDACTED]"] under each
    header name of the list of [sanitizeHeaders], then so it is after any
    sequence of events: discovery switched on or off, data cleared,
    requests completed, request headers seen. *)
Theorem stored_headers_stay_redacted (new_URL : string -> option URL.t)
    (events : list BackgroundScript.event) (s : BackgroundScript.State) :
  Forall BackgroundScript.headers_redacted (BackgroundScript.endpoints s) ->
  Forall BackgroundScript.headers_redacted
         (BackgroundScript.endpoints (BackgroundScript.run new_URL events s)).
Proof.
  unfold BackgroundScript.run. revert s.
  induction events as [|ev r IH]; intros s Hs; [done|].
  cbn [fold_left]. apply IH. by apply step_keeps.
Qed.

Lemma stored_headers_stay_redacted_witness :
  Forall BackgroundScript.headers_redacted
         (BackgroundScript.endpoints
            (BackgroundScript.run URL.parse Sessions.authorized_again
                                  BackgroundScript.initial)).
Proof. apply stored_headers_stay_redacted. apply Forall_nil_2. Defined.

(** ** Groups and schemas of the synthesis *)

Module ComponentFacts.
Import OpenAPIGenerator Synthesis GeneratorFacts SetFacts.

(** *** The groups of [analyzeEndpoints] *)

Lemma analyzeEndpoints_snoc eps e :
  analyzeEndpoints (eps ++ [e])
  = push_pattern
      (JS.or_else (nth 1 (JS.split "/" (normalizePath (pathname e))) "") "default")
      (normalizePath (pathname e)) (analyzeEndpoints eps).
Proof. unfold analyzeEndpoints. by rewrite fold_left_app. Qed.

Lemma distinct_snoc l x : APIAnalyzer.distinct (l ++ [x]) = APIAnalyzer.set_add x (APIAnalyzer.distinct l).
Proof. unfold APIAnalyzer.distinct, APIAnalyzer.add_all. by rewrite fold_left_app. Qed.

(** Pushing a pattern into the groups of the keys [ks], where [F] gives
    the patterns of a key. *)
Lemma push_pattern_groups (F F' : string -> list string) key path ks :
  NoDup ks ->
  (key ∉ ks -> F' key = [path]) ->
  (key ∈ ks -> F' key = F key ++ [path]) ->
  (forall k, k <> key -> F' k = F k) ->
  push_pattern key path (map (fun k => {| g_name := k; patterns := F k |}) ks)
  = map (fun k => {| g_name := k; patterns := F' k |}) (APIAnalyzer.set_add key ks).
Proof.
  intros Hnd Hnew Hold Hother. unfold APIAnalyzer.set_add.
  induction ks as [|k0 ks IH].
  - cbn. rewrite bool_decide_eq_false_2 by apply not_elem_of_nil.
    cbn. rewrite Hnew; [done | apply not_elem_of_nil].
  - apply NoDup_cons in Hnd as [Hk0 Hnd].
    cbn [map push_pattern g_name patterns]. unfold JS.string_eqb.
    destruct (decide (key = k0)) as [->|Hne].
    + rewrite !bool_decide_eq_true_2 by (done || (apply elem_of_cons; by left)).
      cbn [map]. rewrite Hold by (apply elem_of_cons; by left). f_equal.
      apply map_ext_in. intros k Hk%list_elem_of_In.
      rewrite Hother; [done|]. by intros ->.
    + rewrite bool_decide_eq_false_2 by done.
      rewrite IH; [| done | | ].
      * destruct (decide (key ∈ ks)) as [Hin|Hin].
        -- rewrite (bool_decide_eq_true_2 (key ∈ ks)) by done.
           rewrite bool_decide_eq_true_2 by (apply elem_of_cons; by right).
           cbn [map]. by rewrite Hother.
        -- rewrite (bool_decide_eq_false_2 (key ∈ ks)) by done.
           rewrite bool_decide_eq_false_2 by (by intros [?|?]%elem_of_cons).
           cbn [map app]. by rewrite Hother.
      * intros Hk. apply Hnew. by intros [?|?]%elem_of_cons.
      * intros Hk. apply Hold. by apply elem_of_cons; right.
Qed.

Lemma filter_none {A : Type} (P : A -> Prop) `{forall x, Decision (P x)} (l : list A) :
  Forall (fun x => ~ P x) l -> filter P l = [].
Proof.
  induction 1 as [|x r Hx Hr IH]; [done|].
  by rewrite filter_cons, decide_False.
Qed.

(** *** The schemas *)

Lemma components_of_document new_URL now e l options g :
  components (fst (generateOpenAPISpec new_URL now (e :: l) options g))
  = generateComponents (e :: l) (analyzeEndpoints (e :: l)).
Proof.
  unfold generateOpenAPISpec. cbv zeta.
  destruct (generatePaths (e :: l) g), (generateExtensions now (e :: l) options). done.
Qed.

Lemma status_key_no_bucket status bucket :
  bucket ∈ ["4xx"; "5xx"] -> status_key status <> bucket.
Proof.
  intros Hb Hs. destruct status as [n|]; cbn [status_key] in Hs.
  - pose proof (SortFacts.ofNat_digits n) as Hd. rewrite Hs in Hd.
    repeat (apply elem_of_cons in Hb as [->|Hb]; [discriminate|]).
    by apply elem_of_nil in Hb.
  - subst bucket.
    repeat (apply elem_of_cons in Hb as [?|Hb]; [discriminate|]).
    by apply elem_of_nil in Hb.
Qed.

Lemma bucket_response endpoint bucket r :
  bucket ∈ ["4xx"; "5xx"] ->
  responses_of endpoint !! bucket = Some r ->
  content r = {[ "application/json" := ref_to "Error" ]}.
Proof.
  intros Hb. pose proof (status_key_no_bucket (status endpoint) bucket Hb) as Hne.
  unfold responses_of. cbv zeta.
  repeat (apply elem_of_cons in Hb as [->|Hb]);
    [ | | by apply elem_of_nil in Hb];
    destruct (status_ge (status endpoint) 400), (status_ge (status endpoint) 500);
    rewrite ?lookup_insert_eq, ?(lookup_insert_ne _ "5xx" "4xx"),
      ?(lookup_insert_ne _ "4xx" "5xx"), ?lookup_insert_eq by done;
    rewrite ?lookup_singleton_ne by done;
    intros [= <-] || discriminate; reflexivity.
Qed.

End ComponentFacts.

Import OpenAPIGenerator Synthesis GeneratorFacts SetFacts ComponentFacts.

(** X16.  The groups that the synthesizer makes of the observations: one
    group for each first segment of a template (["default"] when there is
    none), in the order in which the first segments are first seen; the
    patterns of a group are the templates with that first segment, in the
    order of the observations and with their repetitions.  So no group is
    empty, and [patterns[0]], which names the tag and the schemas of the
    group, is always there. *)
Theorem analyzeEndpoints_groups (eps : list Endpoint) :
  let templates := map (fun e => normalizePath (pathname e)) eps in
  let first_segment := fun path => JS.or_else (nth 1 (JS.split "/" path) "") "default" in
  analyzeEndpoints eps
  = map (fun k => {| g_name := k;
                     patterns := filter (fun path => first_segment path = k) templates |})
        (APIAnalyzer.distinct (map first_segment templates)) /\
  Forall (fun group => patterns group <> []) (analyzeEndpoints eps).
Proof.
  cbv zeta.
  set (first_segment := fun path => JS.or_else (nth 1 (JS.split "/" path) "") "default").
  assert (analyzeEndpoints eps
          = map (fun k => {| g_name := k;
                             patterns := filter (fun path => first_segment path = k)
                                           (map (fun e => normalizePath (pathname e)) eps) |})
                (APIAnalyzer.distinct
                   (map first_segment (map (fun e => normalizePath (pathname e)) eps))))
    as Heq.
  { induction eps as [|e eps IH] using rev_ind; [done|].
    rewrite analyzeEndpoints_snoc, IH, !map_app. cbn [map].
    fold (first_segment (normalizePath (pathname e))).
    set (path := normalizePath (pathname e)).
    set (templates := map (fun e => normalizePath (pathname e)) eps).
    rewrite distinct_snoc.
    apply push_pattern_groups.
    - apply distinct_NoDup.
    - intros Hnew. rewrite filter_app, filter_cons, filter_nil.
      rewrite decide_True by done.
      replace (filter _ templates) with (@nil string); [done|].
      symmetry. apply filter_none, Forall_forall. intros p Hp Hk.
      apply Hnew, distinct_elem. rewrite <- Hk. apply list_elem_of_fmap. by exists p.
    - intros _. rewrite filter_app, filter_cons, filter_nil.
      by rewrite decide_True by done.
    - intros k Hk. rewrite filter_app, filter_cons, filter_nil.
      rewrite decide_False by done. by rewrite app_nil_r. }
  split; [exact Heq|].
  rewrite Heq. apply Forall_fmap, Forall_forall. intros k Hk.
  apply (proj1 (distinct_elem _ _)) in Hk.
  cbn [patterns compose].
  apply list_elem_of_fmap in Hk as (p & -> & Hp).
  intros Hnil. by apply (filter_nil_not_elem_of _ _ p Hnil).
Qed.

(** X17.  The references of the error buckets resolve.  In every
    document, a response filed under ["4xx"] or ["5xx"] in any operation
    has the one media type [application/json] with the reference
    "#/components/schemas/Error", and [components.schemas] has the entry
    [Error], which is the common error schema even when a resource is
    called so. *)
Theorem error_responses_resolve (new_URL : string -> option URL.t) (now : string)
    (eps : list Endpoint) (options : Options) (g : Generator)
    (p m bucket : string) (op : Operation) (r : Response) :
  let document := fst (generateOpenAPISpec new_URL now eps options g) in
  operation_at (paths document) p m = Some op ->
  bucket ∈ ["4xx"; "5xx"] ->
  responses op !! bucket = Some r ->
  content r = {[ "application/json" := ref_to "Error" ]} /\
  resolves document (ref_to "Error") = true /\
  schemas (components document) !! "Error" = Some error_schema.
Proof.
  intros document Hop Hb Hr. unfold document in *. clear document.
  rewrite paths_of_document in Hop.
  apply generatePaths_present in Hop as (pre & e & post & Heps & _ & _ & ->).
  rewrite generateOperation_fst in Hr. cbn [responses operation_with] in Hr.
  split; [by eapply bucket_response|].
  destruct eps as [|e0 l]; [by destruct pre|].
  assert (schemas (components (fst (generateOpenAPISpec new_URL now (e0 :: l) options g)))
          !! "Error" = Some error_schema) as Hs.
  { rewrite components_of_document. cbn [generateComponents schemas].
    unfold generateSchemas. apply lookup_insert_eq. }
  split; [|exact Hs].
  unfold resolves. apply existsb_exists. exists "Error". split.
  - apply list_elem_of_In, list_elem_of_fmap. exists ("Error", error_schema).
    split; [done|]. by apply elem_of_map_to_list.
  - unfold JS.string_eqb. by apply bool_decide_eq_true_2.
Qed.

Lemma error_responses_resolve_witness :
  resolves (fst (Scenarios.first_call Scenarios.users_200_404)) (ref_to "Error") = true.
Proof.
  refine (proj1 (proj2 (error_responses_resolve URL.parse "2026-01-01T00:00:00.000Z"
                          Scenarios.users_200_404 no_options constructor
                          "/users" "get" "4xx" _ _ _ _ _))).
  - vm_compute. reflexivity.
  - apply elem_of_cons. by left.
  - vm_compute. reflexivity.
Defined.

(** ** File names *)

Module FilenameFacts.
Import Regex Segments RegexFacts StringFacts Filenames.

Ltac each_char c := destruct c as [[] [] [] [] [] [] [] []].

Lemma starts_with_dash s :
  JS.startsWith "-" s = match s with String c _ => is_dash c | EmptyString => false end.
Proof.
  destruct s as [|c r]; [done|]. cbn [JS.startsWith]. unfold is_dash.
  rewrite (Ascii.eqb_sym "-" c). by destruct (Ascii.eqb c "-").
Qed.

Lemma is_dash_eq c : is_dash c = true -> c = "-"%char.
Proof. apply Ascii.eqb_eq. Qed.

(** *** The first replacement: [/[^a-z0-9]/gi] by a dash *)

Lemma exec_not_alnum pos c r :
  exec_here not_alnum pos (String c r)
  = if atom_plain other_than_alnum c then Some 1 else None.
Proof.
  unfold exec_here, not_alnum. cbn [source flag_i run atom_matches].
  destruct (atom_plain other_than_alnum c); [|done].
  f_equal. cbn [String.length]. lia.
Qed.

Lemma pass_not_alnum s : forall pos,
  replace_from not_alnum "-" 0 pos s = JS.smap dash_unless_alnum s.
Proof.
  induction s as [|c r IH]; intros pos; [done|].
  cbn [replace_from JS.smap]. rewrite exec_not_alnum. unfold dash_unless_alnum at 1.
  destruct (atom_plain other_than_alnum c); by rewrite IH.
Qed.

(** *** The second replacement: [/-+/g] by a dash *)

Lemma rep_dashes {A} (k : nat -> string -> option A) ds : forall lo pos rest,
  all_chars is_dash ds = true -> JS.startsWith "-" rest = false ->
  lo <= String.length ds -> (forall p x, is_Some (k p x)) ->
  rep false (Lit "-") lo None pos (ds +:+ rest) k = k (pos + String.length ds) rest.
Proof.
  induction ds as [|d ds IH]; intros lo pos rest Hrun Hrest Hlo Hk.
  - cbn [String.length] in *. assert (lo = 0) as -> by lia.
    rewrite Nat.add_0_r. cbn [String.append].
    rewrite starts_with_dash in Hrest.
    destruct rest as [|c r]; [done|]. cbn [rep hi_allows andb].
    rewrite dash_matches. fold (is_dash c). by rewrite Hrest.
  - cbn [all_chars] in Hrun. apply andb_true_iff in Hrun as [Hd Hrun].
    change (String d ds +:+ rest) with (String d (ds +:+ rest)).
    cbn [rep hi_allows hi_pred andb]. rewrite dash_matches. fold (is_dash d). rewrite Hd.
    rewrite IH; [| done | done | cbn [String.length] in Hlo; lia | done].
    cbn [String.length]. replace (pos + S (String.length ds)) with (S pos + String.length ds) by lia.
    by destruct (Hk (S pos + String.length ds) rest) as [v ->].
Qed.

Lemma exec_dashes pos d ds rest :
  is_dash d = true -> all_chars is_dash ds = true -> JS.startsWith "-" rest = false ->
  exec_here dashes pos (String d (ds +:+ rest)) = Some (S (String.length ds)).
Proof.
  intros Hd Hrun Hrest. unfold exec_here, dashes. cbn [source flag_i run].
  change (String d (ds +:+ rest)) with (String d ds +:+ rest).
  rewrite rep_dashes; [| by cbn [all_chars]; rewrite Hd | done | cbn [String.length]; lia
                       | by intros; eexists].
  f_equal. rewrite slength_app. cbn [String.length]. lia.
Qed.

Lemma exec_dashes_none pos s :
  JS.startsWith "-" s = false -> exec_here dashes pos s = None.
Proof.
  rewrite starts_with_dash. intros Hs. unfold exec_here, dashes. cbn [source flag_i run].
  destruct s as [|c r]; [done|]. cbn [rep hi_allows andb].
  rewrite dash_matches. fold (is_dash c). by rewrite Hs.
Qed.

Lemma dash_run s :
  exists ds rest, s = ds +:+ rest /\ all_chars is_dash ds = true /\
                   JS.startsWith "-" rest = false.
Proof.
  induction s as [|c r (ds & rest & -> & Hrun & Hrest)].
  - by exists "", "".
  - destruct (is_dash c) eqn:Hc.
    + exists (String c ds), rest. cbn [all_chars]. by rewrite Hc.
    + exists "", (String c (ds +:+ rest)). rewrite starts_with_dash. done.
Qed.

Lemma squeeze_run ds : forall rest,
  all_chars is_dash ds = true -> JS.startsWith "-" rest = false ->
  squeeze true (ds +:+ rest) = squeeze false rest.
Proof.
  induction ds as [|d ds IH]; intros rest Hrun Hrest.
  - cbn [String.append]. rewrite starts_with_dash in Hrest.
    destruct rest as [|c r]; [done|]. cbn [squeeze]. by rewrite Hrest.
  - cbn [all_chars] in Hrun. apply andb_true_iff in Hrun as [Hd Hrun].
    change (String d ds +:+ rest) with (String d (ds +:+ rest)).
    cbn [squeeze]. rewrite Hd. by apply IH.
Qed.

Lemma pass_dashes n : forall s pos,
  String.length s <= n -> replace_from dashes "-" 0 pos s = squeeze false s.
Proof.
  induction n as [|n IH]; intros s pos Hn.
  - destruct s; [reflexivity | cbn [String.length] in Hn; lia].
  - destruct s as [|c r]; [reflexivity|]. cbn [String.length] in Hn.
    destruct (is_dash c) eqn:Hc.
    + destruct (dash_run r) as (ds & rest & -> & Hrun & Hrest).
      cbn [replace_from squeeze]. rewrite exec_dashes, Hc by done.
      rewrite replace_skip by done. rewrite squeeze_run by done.
      rewrite IH by (rewrite slength_app in Hn; lia).
      by rewrite (is_dash_eq c Hc).
    + cbn [replace_from squeeze]. rewrite Hc.
      rewrite exec_dashes_none by (by rewrite starts_with_dash).
      rewrite IH by lia. done.
Qed.

(** *** The third replacement: [/^-|-$/g] by nothing *)

Lemma exec_dash_at_an_end pos c r :
  exec_here dash_at_an_end pos (String c r)
  = if is_dash c && (Nat.eqb pos 0 || negb (JS.truthy r)) then Some 1 else None.
Proof.
  unfold exec_here, dash_at_an_end. cbn [source flag_i run chr].
  rewrite dash_matches. fold (is_dash c).
  destruct (is_dash c); cbn [andb]; [|by destruct pos].
  destruct pos, r; cbn; try done; f_equal; lia.
Qed.

Lemma strip_last_cons c r :
  is_dash c && negb (JS.truthy r) = false -> strip_last (String c r) = String c (strip_last r).
Proof.
  destruct r; cbn [strip_last JS.truthy negb]; [|done].
  rewrite andb_true_r. by intros ->.
Qed.

Lemma pass_dash_later s : forall pos,
  replace_from dash_at_an_end "" 0 (S pos) s = strip_last s.
Proof.
  induction s as [|c r IH]; intros pos; [done|].
  cbn [replace_from]. rewrite exec_dash_at_an_end. cbn [Nat.eqb orb].
  destruct (is_dash c && negb (JS.truthy r)) eqn:E.
  - apply andb_true_iff in E as [Hc Hr]. destruct r; [|done].
    cbn [strip_last]. by rewrite Hc.
  - rewrite strip_last_cons by done. by rewrite IH.
Qed.

Lemma pass_dash_at_an_end s :
  replace dash_at_an_end "" s = strip_last (strip_first s).
Proof.
  unfold replace. destruct s as [|c r]; [done|].
  cbn [replace_from strip_first]. rewrite exec_dash_at_an_end. cbn [Nat.eqb orb].
  rewrite andb_true_r. destruct (is_dash c) eqn:Hc.
  - cbn [String.append]. apply pass_dash_later.
  - rewrite pass_dash_later. rewrite strip_last_cons; [done | by rewrite Hc].
Qed.

Lemma sanitizeFilename_steps filename :
  sanitizeFilename filename
  = JS.toLowerCase (strip_last (strip_first (squeeze false (JS.smap dash_unless_alnum filename)))).
Proof.
  unfold sanitizeFilename. rewrite pass_dash_at_an_end. unfold replace at 1.
  rewrite (pass_dashes _ _ 0 (Nat.le_refl _)). unfold replace.
  by rewrite pass_not_alnum.
Qed.

(** *** The shape of what is left *)

Lemma squeeze_chars (p : ascii -> bool) s : forall b,
  all_chars p s = true -> all_chars p (squeeze b s) = true.
Proof.
  induction s as [|c r IH]; intros b; [done|]. cbn [all_chars squeeze].
  intros [Hc Hr]%andb_true_iff.
  destruct (is_dash c), b; cbn [all_chars]; rewrite ?Hc; by apply IH.
Qed.

Lemma strip_first_chars (p : ascii -> bool) s :
  all_chars p s = true -> all_chars p (strip_first s) = true.
Proof.
  destruct s as [|c r]; [done|]. cbn [all_chars strip_first].
  intros [Hc Hr]%andb_true_iff. destruct (is_dash c); [done|].
  cbn [all_chars]. by rewrite Hc.
Qed.

Lemma strip_last_chars (p : ascii -> bool) s :
  all_chars p s = true -> all_chars p (strip_last s) = true.
Proof.
  induction s as [|c r IH]; [done|]. cbn [all_chars].
  intros [Hc Hr]%andb_true_iff. destruct r as [|d r'].
  - cbn [strip_last]. destruct (is_dash c); [done|]. cbn [all_chars]. by rewrite Hc.
  - change (strip_last (String c (String d r'))) with (String c (strip_last (String d r'))).
    cbn [all_chars]. rewrite Hc. by apply IH.
Qed.

Lemma squeeze_true_start s : JS.startsWith "-" (squeeze true s) = false.
Proof.
  induction s as [|c r IH]; [done|]. cbn [squeeze].
  destruct (is_dash c) eqn:Hc; [done|]. rewrite starts_with_dash. done.
Qed.

Lemma apart_cons c t :
  dashes_apart (String c t)
  = negb (is_dash c && JS.startsWith "-" t) && dashes_apart t.
Proof.
  rewrite starts_with_dash. destruct t; [|reflexivity].
  cbn [dashes_apart]. by rewrite andb_false_r.
Qed.

Lemma squeeze_apart s : forall b, dashes_apart (squeeze b s) = true.
Proof.
  induction s as [|c r IH]; intros b; [done|]. cbn [squeeze].
  destruct (is_dash c) eqn:Hc.
  - destruct b; [apply IH|]. rewrite apart_cons, squeeze_true_start, IH.
    by rewrite andb_false_r.
  - rewrite apart_cons, Hc, IH. done.
Qed.

Lemma apart_tail c t : dashes_apart (String c t) = true -> dashes_apart t = true.
Proof. rewrite apart_cons. by intros [_ ?]%andb_true_iff. Qed.

Lemma strip_first_apart s :
  dashes_apart s = true ->
  dashes_apart (strip_first s) = true /\ JS.startsWith "-" (strip_first s) = false.
Proof.
  destruct s as [|c r]; [done|]. intros Hs. pose proof Hs as Hs'.
  rewrite apart_cons in Hs'. apply andb_true_iff in Hs' as [H1 H2].
  cbn [strip_first]. destruct (is_dash c) eqn:Hc.
  - cbn [andb] in H1. apply negb_true_iff in H1. done.
  - split; [exact Hs|]. by rewrite starts_with_dash.
Qed.

Lemma strip_last_start s :
  JS.startsWith "-" s = false -> JS.startsWith "-" (strip_last s) = false.
Proof.
  rewrite !starts_with_dash. destruct s as [|c [|d r]]; [done| |].
  - cbn [strip_last]. intros Hc. by rewrite Hc.
  - done.
Qed.

Lemma strip_last_apart s :
  dashes_apart s = true ->
  dashes_apart (strip_last s) = true /\ ends_with_dash (strip_last s) = false.
Proof.
  induction s as [|c r IH]; [done|]. intros Hs.
  destruct r as [|d r'].
  - cbn [strip_last]. destruct (is_dash c) eqn:Hc; [done|]. cbn. by rewrite Hc.
  - change (strip_last (String c (String d r'))) with (String c (strip_last (String d r'))).
    pose proof Hs as Hs'. rewrite apart_cons in Hs'.
    apply andb_true_iff in Hs' as [H1 H2].
    destruct (IH H2) as [I1 I2].
    destruct (strip_last (String d r')) as [|d' t] eqn:E.
    + split; [done|]. cbn [ends_with_dash].
      assert (is_dash d = true) as Hd.
      { destruct r' as [|? ?]; cbn [strip_last] in E; [by destruct (is_dash d)|done]. }
      rewrite starts_with_dash, Hd, andb_true_r in H1. by apply negb_true_iff in H1.
    + split; [|exact I2]. rewrite apart_cons, I1, andb_true_r.
      rewrite starts_with_dash.
      assert (d' = d) as ->.
      { destruct r' as [|? ?]; cbn [strip_last] in E;
          [destruct (is_dash d); congruence | congruence]. }
      by rewrite starts_with_dash in H1.
Qed.

(** Lower-casing keeps dashes where they are. *)
Lemma lower_char_dash c : is_dash (JS.toLowerChar c) = is_dash c.
Proof. each_char c; reflexivity. Qed.

Lemma lower_start s : JS.startsWith "-" (JS.toLowerCase s) = JS.startsWith "-" s.
Proof. rewrite !starts_with_dash. destruct s; [done|]. apply lower_char_dash. Qed.

Lemma lower_end s : ends_with_dash (JS.toLowerCase s) = ends_with_dash s.
Proof.
  induction s as [|c r IH]; [done|]. destruct r as [|d r'].
  - apply lower_char_dash.
  - exact IH.
Qed.

Lemma lower_apart s : dashes_apart (JS.toLowerCase s) = dashes_apart s.
Proof.
  induction s as [|c r IH]; [done|].
  change (JS.toLowerCase (String c r)) with (String (JS.toLowerChar c) (JS.toLowerCase r)).
  by rewrite !apart_cons, lower_char_dash, lower_start, IH.
Qed.

Lemma lower_chars c :
  is_lower_alnum (JS.toLowerChar (dash_unless_alnum c))
  || is_dash (JS.toLowerChar (dash_unless_alnum c)) = true.
Proof. each_char c; reflexivity. Qed.

Lemma all_chars_smap (p : ascii -> bool) (f : ascii -> ascii) s :
  all_chars p (JS.smap f s) = all_chars (fun c => p (f c)) s.
Proof. induction s as [|c r IH]; [done|]. cbn [JS.smap all_chars]. by rewrite IH. Qed.

Lemma all_chars_true (p : ascii -> bool) s : (forall c, p c = true) -> all_chars p s = true.
Proof. intros H. induction s as [|c r IH]; [done|]. cbn [all_chars]. by rewrite H, IH. Qed.

(** *** A tidy name is left as it is *)

Lemma tidy_char c :
  is_lower_alnum c || is_dash c = true ->
  dash_unless_alnum c = c /\ JS.toLowerChar c = c.
Proof. each_char c; intros H; try discriminate H; split; reflexivity. Qed.

Lemma smap_fixed (f : ascii -> ascii) (p : ascii -> bool) s :
  (forall c, p c = true -> f c = c) -> all_chars p s = true -> JS.smap f s = s.
Proof.
  intros Hf. induction s as [|c r IH]; [done|]. cbn [all_chars JS.smap].
  intros [Hc Hr]%andb_true_iff. by rewrite (Hf c Hc), IH.
Qed.

Lemma squeeze_fixed s : forall b,
  dashes_apart s = true -> (b = true -> JS.startsWith "-" s = false) ->
  squeeze b s = s.
Proof.
  induction s as [|c r IH]; intros b Hs Hb; [done|].
  rewrite apart_cons in Hs. apply andb_true_iff in Hs as [H1 H2].
  cbn [squeeze]. destruct (is_dash c) eqn:Hc.
  - destruct b.
    + specialize (Hb eq_refl). rewrite starts_with_dash in Hb. congruence.
    + f_equal. apply IH; [done|]. intros _. cbn [andb] in H1. by apply negb_true_iff in H1.
  - f_equal. apply IH; [done | discriminate].
Qed.

Lemma strip_first_fixed s : JS.startsWith "-" s = false -> strip_first s = s.
Proof. rewrite starts_with_dash. destruct s as [|c r]; [done|]. cbn. by intros ->. Qed.

Lemma strip_last_fixed s : ends_with_dash s = false -> strip_last s = s.
Proof.
  induction s as [|c r IH]; [done|]. destruct r as [|d r'].
  - cbn. by intros ->.
  - intros H. change (strip_last (String c (String d r'))) with (String c (strip_last (String d r'))).
    f_equal. by apply IH.
Qed.

Lemma tidy_fixed s : tidy s = true -> sanitizeFilename s = s.
Proof.
  unfold tidy. intros [[[Hchars Hstart]%andb_true_iff Hend]%andb_true_iff Hapart]%andb_true_iff.
  apply negb_true_iff in Hstart, Hend.
  rewrite sanitizeFilename_steps.
  rewrite (smap_fixed dash_unless_alnum _ s (fun c H => proj1 (tidy_char c H)) Hchars).
  rewrite squeeze_fixed by done.
  rewrite strip_first_fixed, strip_last_fixed by done.
  apply (smap_fixed JS.toLowerChar _ s (fun c H => proj2 (tidy_char c H)) Hchars).
Qed.

Lemma sanitizeFilename_tidy filename : tidy (sanitizeFilename filename) = true.
Proof.
  rewrite sanitizeFilename_steps.
  set (dashed := JS.smap dash_unless_alnum filename).
  pose proof (squeeze_apart dashed false) as Hsq.
  destruct (strip_first_apart _ Hsq) as [Hf1 Hf2].
  destruct (strip_last_apart _ Hf1) as [Hl1 Hl2].
  pose proof (strip_last_start _ Hf2) as Hl3.
  unfold tidy. rewrite lower_start, lower_end, lower_apart, Hl1, Hl2, Hl3.
  rewrite !andb_true_r. unfold JS.toLowerCase. rewrite all_chars_smap.
  apply strip_last_chars, strip_first_chars, squeeze_chars.
  unfold dashed. rewrite all_chars_smap. apply all_chars_true, lower_chars.
Qed.

(** *** The letters and digits stay *)

Lemma dash_is_other c : is_dash c = true -> atom_plain other_than_alnum c = true.
Proof. by intros ->%is_dash_eq. Qed.

Lemma kept_char c :
  atom_plain other_than_alnum (dash_unless_alnum c) = atom_plain other_than_alnum c /\
  (atom_plain other_than_alnum c = false -> dash_unless_alnum c = c) /\
  atom_plain other_than_alnum (JS.toLowerChar c) = atom_plain other_than_alnum c /\
  JS.toLowerChar (JS.toLowerChar c) = JS.toLowerChar c.
Proof. each_char c; split_and!; try reflexivity; intros H; try discriminate H; reflexivity. Qed.

Lemma kept_dashed s :
  letters_and_digits (JS.smap dash_unless_alnum s) = letters_and_digits s.
Proof.
  induction s as [|c r IH]; [done|]. cbn [JS.smap letters_and_digits].
  destruct (kept_char c) as (H1 & H2 & _). rewrite H1.
  destruct (atom_plain other_than_alnum c) eqn:E; [done|].
  by rewrite H2, IH.
Qed.

Lemma kept_squeeze s : forall b,
  letters_and_digits (squeeze b s) = letters_and_digits s.
Proof.
  induction s as [|c r IH]; intros b; [done|]. cbn [squeeze letters_and_digits].
  destruct (is_dash c) eqn:Hc.
  - rewrite (dash_is_other c Hc). destruct b; [apply IH|].
    cbn [letters_and_digits]. rewrite (dash_is_other c Hc). apply IH.
  - cbn [letters_and_digits]. by rewrite IH.
Qed.

Lemma kept_strip_first s : letters_and_digits (strip_first s) = letters_and_digits s.
Proof.
  destruct s as [|c r]; [done|]. cbn [strip_first letters_and_digits].
  destruct (is_dash c) eqn:Hc; [|done]. by rewrite (dash_is_other c Hc).
Qed.

Lemma kept_strip_last s : letters_and_digits (strip_last s) = letters_and_digits s.
Proof.
  induction s as [|c r IH]; [done|]. destruct r as [|d r'].
  - cbn [strip_last letters_and_digits]. destruct (is_dash c) eqn:Hc; [|done].
    by rewrite (dash_is_other c Hc).
  - change (strip_last (String c (String d r'))) with (String c (strip_last (String d r'))).
    cbn [letters_and_digits] in *. by rewrite IH.
Qed.

Lemma kept_lower s : letters_and_digits (JS.toLowerCase s) = letters_and_digits s.
Proof.
  induction s as [|c r IH]; [done|].
  change (JS.toLowerCase (String c r)) with (String (JS.toLowerChar c) (JS.toLowerCase r)).
  cbn [letters_and_digits]. destruct (kept_char c) as (_ & _ & H3 & H4).
  by rewrite H3, H4, IH.
Qed.

Lemma sanitizeFilename_keeps filename :
  letters_and_digits (sanitizeFilename filename) = letters_and_digits filename.
Proof.
  rewrite sanitizeFilename_steps.
  by rewrite kept_lower, kept_strip_last, kept_strip_first, kept_squeeze, kept_dashed.
Qed.

End FilenameFacts.

Import Filenames FilenameFacts.

(** X18.  What [Utils.sanitizeFilename] returns is safe in a file name:
    it holds digits, lower-case letters and dashes only, it neither starts
    nor ends with a dash, and no two dashes follow each other.  Its
    letters and digits are those of the argument, lower-cased and in
    order.  A string that already has that shape is returned as it is, so
    sanitizing twice is sanitizing once. *)
Theorem sanitizeFilename_safe (filename : string) :
  tidy (sanitizeFilename filename) = true /\
  letters_and_digits (sanitizeFilename filename) = letters_and_digits filename /\
  (tidy filename = true -> sanitizeFilename filename = filename) /\
  sanitizeFilename (sanitizeFilename filename) = sanitizeFilename filename.
Proof.
  split_and!.
  - apply sanitizeFilename_tidy.
  - apply sanitizeFilename_keeps.
  - apply tidy_fixed.
  - apply tidy_fixed, sanitizeFilename_tidy.
Qed.

Lemma sanitizeFilename_safe_witness :
  sanitizeFilename "api-x-com" = "api-x-com".
Proof.
  apply (proj1 (proj2 (proj2 (sanitizeFilename_safe "api-x-com")))).
  reflexivity.
Defined.

(** ** The discovery session and the common patterns *)

Module SessionFacts.
Import BackgroundScript.

Lemma request_while_off new_URL s ev :
  isDiscovering s = false ->
  (exists r, ev = Completed r \/ ev = BeforeSendHeaders r) ->
  step new_URL s ev = s.
Proof.
  intros Hoff [r [->| ->]]; cbn [step];
    unfold handleWebRequest, handleRequestHeaders; by rewrite Hoff.
Qed.

Lemma completed_step new_URL r s :
  isDiscovering s = true ->
  isDiscovering (step new_URL s (Completed r)) = true /\
  endpoints (step new_URL s (Completed r))
  = endpoints s ++ Background.capture new_URL
                     (map details (filter (fun r => isAPIRequest r = true) [r])).
Proof.
  intros Hon. cbn [step]. unfold handleWebRequest. rewrite Hon. cbn [negb orb].
  rewrite filter_cons, filter_nil.
  destruct (isAPIRequest r) eqn:Hr; cbn [negb].
  - rewrite decide_True by done. cbn [map Background.capture omap list_omap].
    destruct (Background.createEndpointFromRequest new_URL (details r)); cbn; by rewrite ?app_nil_r.
  - rewrite decide_False by done. cbn. by rewrite app_nil_r.
Qed.

End SessionFacts.

Module CommonFacts.
Import APIAnalyzer Counting SortFacts SetFacts.

Lemma fold_count_up_total (ks : list string) : forall m,
  total (fold_left (fun m k => count_up k m) ks m) = total m + length ks.
Proof.
  induction ks as [|k r IH]; intros m; cbn [fold_left length]; [lia|].
  rewrite IH, total_count_up. lia.
Qed.

Lemma ofNat_succ_not_zero i : JS.ofNat (S i) <> "0".
Proof.
  change "0" with (JS.ofNat 0). unfold JS.ofNat. intros H%(inj pretty). discriminate.
Qed.

Lemma common_step_counts new_URL c e c' :
  common_step new_URL c e = Ok c' ->
  total (commonPaths c') = S (total (commonPaths c)) /\
  total (resourceTypes c')
  = total (resourceTypes c) + (if decide (detectResourceType e <> Some 0) then 1 else 0) /\
  ("0" ∉ map fst (resourceTypes c) -> "0" ∉ map fst (resourceTypes c')).
Proof.
  unfold common_step. destruct (extractEndpointPattern new_URL e); [|discriminate].
  cbn [rbind]. intros [= <-]. cbn [commonPaths resourceTypes].
  split_and!; [apply total_count_up | |].
  - destruct (detectResourceType e) as [[|i]|].
    + rewrite decide_False by (by intros H; apply H). lia.
    + rewrite decide_True by done. rewrite total_count_up. lia.
    + rewrite decide_True by done. rewrite total_count_up. lia.
  - intros Hno. destruct (detectResourceType e) as [[|i]|]; [done| |];
      rewrite keys_count_up; intros [H|H]%set_add_elem; try done.
    by apply (ofNat_succ_not_zero i).
Qed.

Lemma for_each_common_counts new_URL eps : forall c c',
  for_each (common_step new_URL) eps c = Ok c' ->
  total (commonPaths c') = total (commonPaths c) + length eps /\
  total (resourceTypes c')
  = total (resourceTypes c)
    + length (filter (fun e => detectResourceType e <> Some 0) eps) /\
  ("0" ∉ map fst (resourceTypes c) -> "0" ∉ map fst (resourceTypes c')).
Proof.
  induction eps as [|e r IH]; intros c c'; cbn [for_each].
  - intros [= <-]. cbn. split_and!; [lia | lia | done].
  - destruct (common_step new_URL c e) as [c1|] eqn:E; [|discriminate].
    cbn [rbind]. intros Hr.
    destruct (common_step_counts _ _ _ _ E) as (A1 & A2 & A3).
    destruct (IH _ _ Hr) as (B1 & B2 & B3).
    split_and!.
    + rewrite B1, A1. cbn [length]. lia.
    + rewrite B2, A2, filter_cons. case_decide; cbn [length]; lia.
    + auto.
Qed.

End CommonFacts.

Import APIAnalyzer Counting SortFacts.

(** X19.  The analyzer names things as the synthesizer does: the first
    identifier that a new generator gives to a verb and a path is the
    analyzer's [generateOperationId], the tags of a path are the same, and
    the type the analyzer infers from one sample is the type the
    synthesizer declares for a query parameter with that value. *)
Theorem analyzer_names_as_synthesizer (method path value : string) :
  fst (OpenAPIGenerator.generateUniqueOperationId method path OpenAPIGenerator.constructor)
  = generateOperationId method path /\
  extractTags path = OpenAPIGenerator.generateOperationTags path /\
  i_type (inferParameterTypes [value]) = OpenAPIGenerator.inferParameterType value.
Proof.
  split_and!; [reflexivity | reflexivity |].
  unfold inferParameterTypes. cbn [fold_left]. unfold set_add.
  rewrite !bool_decide_eq_false_2 by apply not_elem_of_nil. reflexivity.
Qed.

(** X20.  While discovery is off the service worker records nothing:
    completed requests and request headers leave its state as it is. *)
Theorem nothing_recorded_while_off (new_URL : string -> option URL.t)
    (events : list BackgroundScript.event) (s : BackgroundScript.State) :
  BackgroundScript.isDiscovering s = false ->
  Forall (fun ev => exists r, ev = BackgroundScript.Completed r \/
                              ev = BackgroundScript.BeforeSendHeaders r) events ->
  BackgroundScript.run new_URL events s = s.
Proof.
  intros Hoff. unfold BackgroundScript.run.
  induction 1 as [|ev r Hev Hr IH]; [done|].
  cbn [fold_left]. by rewrite SessionFacts.request_while_off.
Qed.

Lemma nothing_recorded_while_off_witness :
  BackgroundScript.run URL.parse
    [BackgroundScript.Completed (Sessions.request "https://api.x.com/users" [])]
    BackgroundScript.initial
  = BackgroundScript.initial.
Proof.
  apply nothing_recorded_while_off; [reflexivity|].
  apply Forall_singleton. eexists. by left.
Defined.

(** X21.  While discovery is on, the completed requests that pass
    [isAPIRequest] and whose URL parses are appended to the stored
    observations, one observation for each, in their order. *)
Theorem completed_requests_are_recorded (new_URL : string -> option URL.t)
    (requests : list BackgroundScript.Request) (s : BackgroundScript.State) :
  BackgroundScript.isDiscovering s = true ->
  BackgroundScript.endpoints
    (BackgroundScript.run new_URL (map BackgroundScript.Completed requests) s)
  = BackgroundScript.endpoints s
    ++ Background.capture new_URL
         (map BackgroundScript.details
              (filter (fun r => BackgroundScript.isAPIRequest r = true) requests)).
Proof.
  unfold BackgroundScript.run. revert s.
  induction requests as [|r rs IH]; intros s Hon.
  - cbn. by rewrite app_nil_r.
  - cbn [map fold_left].
    destruct (SessionFacts.completed_step new_URL r s Hon) as [Hon' Hstep].
    rewrite IH by done. rewrite Hstep, <- app_assoc. f_equal.
    change (r :: rs) with ([r] ++ rs).
    rewrite filter_app, map_app. unfold Background.capture. by rewrite omap_app.
Qed.

Lemma completed_requests_are_recorded_witness :
  BackgroundScript.endpoints
    (BackgroundScript.run URL.parse
       [BackgroundScript.Completed (Sessions.request "https://api.x.com/users" [])]
       (BackgroundScript.step URL.parse BackgroundScript.initial
                              BackgroundScript.StartDiscovery))
  = Scenarios.users_once.
Proof.
  exact (completed_requests_are_recorded URL.parse
           [Sessions.request "https://api.x.com/users" []]
           (BackgroundScript.step URL.parse BackgroundScript.initial
                                  BackgroundScript.StartDiscovery) eq_refl).
Defined.

(** X22.  What [extractCommonPatterns] counts when it returns: every
    observation once in [commonPaths]; in [resourceTypes] every observation
    but those whose lower-cased URL matches the first resource pattern,
    [/\/users?\//i], whose index 0 is not truthy, so no entry is ever
    made for it. *)
Theorem first_resource_type_not_counted (new_URL : string -> option URL.t)
    (eps : list Endpoint) (common : Common) :
  extractCommonPatterns new_URL eps = Ok common ->
  total (commonPaths common) = length eps /\
  total (resourceTypes common)
  = length (filter (fun e => detectResourceType e <> Some 0) eps) /\
  count_of "0" (resourceTypes common) = 0.
Proof.
  unfold extractCommonPatterns.
  destruct (for_each (common_step new_URL) eps _) as [c|] eqn:E; [|discriminate].
  cbn [rbind]. intros [= <-]. cbn [commonPaths resourceTypes].
  destruct (CommonFacts.for_each_common_counts _ _ _ _ E) as (H1 & H2 & H3).
  cbn [commonPaths resourceTypes total fold_right] in H1, H2, H3.
  split_and!.
  - by rewrite (total_perm _ _ (sort_perm _)).
  - by rewrite (total_perm _ _ (sort_perm _)).
  - apply count_of_absent. rewrite (sort_perm (resourceTypes c)).
    apply H3. cbn. apply not_elem_of_nil.
Qed.

Lemma first_resource_type_not_counted_witness :
  exists common,
    extractCommonPatterns URL.parse Scenarios.user_42 = Ok common /\
    total (resourceTypes common)
    = length (filter (fun e => detectResourceType e <> Some 0) Scenarios.user_42).
Proof.
  eexists. split; [vm_compute; reflexivity|].
  refine (proj1 (proj2 (first_resource_type_not_counted URL.parse _ _ _))).
  vm_compute. reflexivity.
Defined.
